(** * NOAA climate connector: a shallow embedding of the three dataset
      processors and of the trend statistics calculator.

    Conventions of the embedding.
    - Python [float] and [int] values coming from JSON are exact rationals
      ([Q]); [sum], [/], [abs], [min], [max] and the comparisons are the
      exact ones, and [round(x, n)] is round-half-to-even on the exact value.
    - A JSON object used as a mapping is an association list in insertion
      order (Python dicts keep insertion order); a well-formed mapping has no
      repeated key.
    - A Python call that may raise returns an [outcome]; code that talks to
      the state store, the clock or the remote service lives in the monad
      [M], which threads the state store and a trace of the external calls. *)

From Stdlib Require Import ZArith QArith Qabs Qround Qreduction.
From Stdlib Require Import List String Ascii Bool Lia.
From Stdlib Require Import Sorting.Mergesort Sorting.Sorted Sorting.Permutation.
From Stdlib Require Import Orders DecimalString.
Import ListNotations.

Local Open Scope string_scope.
Local Open Scope Z_scope.

(* ================================================================== *)
(** ** Python builtins used by the processors *)
(* ================================================================== *)

Module Py.

(** Exceptions the modelled code can raise. *)
Inductive exn :=
| ValueError                     (* int() on a malformed literal *)
| TypeError                      (* arithmetic on None *)
| HTTPStatusError (status : Z).  (* response.raise_for_status() *)

Inductive outcome (A : Type) :=
| Returns (a : A)
| Raises (e : exn).
Arguments Returns {A} a.
Arguments Raises {A} e.

(** *** [int(s)] for a [str] argument, base 10.

    Surrounding whitespace is stripped, one sign is accepted, and the
    digits may be separated by single underscores.  Only ASCII digits and
    ASCII whitespace are modelled. *)

Definition is_space (c : ascii) : bool :=
  let n := Z.of_N (N_of_ascii c) in
  (n =? 32) || ((9 <=? n) && (n <=? 13)) || ((28 <=? n) && (n <=? 31)).

Definition digit_of (c : ascii) : option Z :=
  let n := Z.of_N (N_of_ascii c) in
  if (48 <=? n) && (n <=? 57) then Some (n - 48) else None.

Fixpoint lstrip (l : list ascii) : list ascii :=
  match l with
  | c :: l' => if is_space c then lstrip l' else l
  | [] => []
  end.

Definition strip (l : list ascii) : list ascii :=
  rev (lstrip (rev (lstrip l))).

(** [prev] records whether the previous character was a digit: an
    underscore is accepted only between two digits. *)
Fixpoint parse_digits (l : list ascii) (acc : Z) (prev : bool) : option Z :=
  match l with
  | [] => if prev then Some acc else None
  | c :: l' =>
      match digit_of c with
      | Some d => parse_digits l' (10 * acc + d) true
      | None =>
          if Ascii.eqb c "_" && prev then parse_digits l' acc false
          else None
      end
  end.

Definition int (s : string) : option Z :=
  match strip (list_ascii_of_string s) with
  | c :: l' =>
      if Ascii.eqb c "+" then parse_digits l' 0 false
      else if Ascii.eqb c "-" then option_map Z.opp (parse_digits l' 0 false)
      else parse_digits (c :: l') 0 false
  | [] => None
  end.

(** [str(n)] for an integer. *)
Definition str (n : Z) : string := NilZero.string_of_int (Z.to_int n).

(** *** Arithmetic on numbers *)

(** [sum(l)]: left-to-right addition starting from [0]. *)
Definition sum (l : list Q) : Q := fold_left Qplus l 0%Q.

Definition len {A} (l : list A) : Z := Z.of_nat (List.length l).

(** [l.append(x)] and [l.extend(l')], as values. *)
Definition append {A} (l : list A) (x : A) : list A := (l ++ [x])%list.
Definition extend {A} (l l' : list A) : list A := (l ++ l')%list.

Definition Qltb (x y : Q) : bool := negb (Qle_bool y x).

(** [min(l)] and [max(l)] keep the first of equal elements, as Python
    does; on the empty list Python raises, and the callers never pass
    one. *)
Definition min (l : list Q) : Q :=
  match l with
  | [] => 0%Q
  | x :: l' => fold_left (fun m y => if Qltb y m then y else m) l' x
  end.

Definition max (l : list Q) : Q :=
  match l with
  | [] => 0%Q
  | x :: l' => fold_left (fun m y => if Qltb m y then y else m) l' x
  end.

(** Nearest integer, ties to the even neighbour. *)
Definition round_half_even (x : Q) : Z :=
  let f := Qfloor x in
  match Qcompare (x - inject_Z f) (1 # 2) with
  | Lt => f
  | Gt => f + 1
  | Eq => if Z.even f then f else f + 1
  end.

(** [round(x, ndigits)]. *)
Definition round (x : Q) (ndigits : nat) : Q :=
  let p := inject_Z (10 ^ Z.of_nat ndigits) in
  Qred (inject_Z (round_half_even (x * p)) / p).

(** Slices [l[:k]] and [l[k:]] for [0 <= k]. *)
Definition slice_to {A} (l : list A) (k : Z) : list A := firstn (Z.to_nat k) l.
Definition slice_from {A} (l : list A) (k : Z) : list A := skipn (Z.to_nat k) l.

End Py.
Import Py.

(** [sorted] on a list of [str]: ascending code-point order. *)
Module StrOrder <: TotalLeBool.
Definition t := string.
Definition leb (x y : string) : bool := String.leb x y.
Lemma leb_total : forall x y, leb x y = true \/ leb y x = true.
Proof. exact String.leb_total. Qed.
End StrOrder.

Module StrSort := Sort StrOrder.

Definition sorted (l : list string) : list string := StrSort.sort l.

(* ================================================================== *)
(** ** The remote JSON shape *)
(* ================================================================== *)

(** One optional numeric member of a yearly entry: the key may be missing,
    or present with [null], or present with a number. *)
Inductive member :=
| Absent
| Null
| Num (q : Q).

(** [values.get(k)]: [None] both for a missing key and for [null]. *)
Definition member_get (m : member) : option Q :=
  match m with
  | Num q => Some q
  | _ => None
  end.

(** [k in values]. *)
Definition member_in (m : member) : bool :=
  match m with
  | Absent => false
  | _ => true
  end.

Record entry := { value : member; anomaly : member }.

(** A yearly series: year string to entry, in insertion order. *)
Definition series := list (string * entry).

Definition keys (d : series) : list string := map fst d.

Fixpoint lookup (d : series) (k : string) : option entry :=
  match d with
  | [] => None
  | (k', v) :: d' => if String.eqb k' k then Some v else lookup d' k
  end.

Definition well_formed (d : series) : Prop := NoDup (keys d).

Record description := { title : option string; base_period : option string }.

Record payload := { p_description : option description; p_data : option series }.

(** [data.get("description", {})] and the [get]s on it. *)
Definition get_description (p : payload) : description :=
  match p_description p with
  | Some d => d
  | None => {| title := None; base_period := None |}
  end.

Definition get_title (d : description) : string :=
  match title d with Some t => t | None => "" end.

Definition get_base_period (d : description) : string :=
  match base_period d with Some b => b | None => "1901-2000" end.

(** [data.get("data", {})]. *)
Definition get_data (p : payload) : series :=
  match p_data p with Some d => d | None => [] end.

(** Truth value of a payload: a dict is true when it has a key. *)
Definition payload_truthy (p : payload) : bool :=
  match p_description p, p_data p with
  | None, None => false
  | _, _ => true
  end.

(* ================================================================== *)
(** ** External collaborators: clock, state store, remote client *)
(* ================================================================== *)

(** [datetime.now()]. *)
Record datetime := { dt_year : Z; dt_month : Z; dt_day : Z; dt_second : Z }.

Definition zfill2 (n : Z) : string :=
  if n <? 10 then "0" ++ str n else str n.

(** [strftime("%Y-%m-%d")] and [strftime("%Y-%m")], for years of four
    digits. *)
Definition strftime_Ymd (d : datetime) : string :=
  str (dt_year d) ++ "-" ++ zfill2 (dt_month d) ++ "-" ++ zfill2 (dt_day d).

Definition strftime_Ym (d : datetime) : string :=
  str (dt_year d) ++ "-" ++ zfill2 (dt_month d).

(** The persisted run state of one dataset. *)
Record run_state := {
  last_update : option string;
  records_processed : option Z
}.

Definition empty_state : run_state :=
  {| last_update := None; records_processed := None |}.

(** Modelled from the spec: the state store ([utils.io]) keeps one mapping
    per dataset name; [load_state] gives the mapping saved last under that
    name, and the empty mapping when none was saved. *)
Definition store := list (string * run_state).

Fixpoint store_get (s : store) (name : string) : run_state :=
  match s with
  | [] => empty_state
  | (n, st) :: s' => if String.eqb n name then st else store_get s' name
  end.

Definition store_set (s : store) (name : string) (st : run_state) : store :=
  (name, st) :: s.

(** Modelled from the spec: the remote client ([utils.http_client.get])
    answers a URL with a status code and a JSON body. *)
Record response := { status_code : Z; json : payload }.

(** Modelled from the spec: [raise_for_status] raises on every status that
    is not a success (2xx). *)
Definition is_success (status : Z) : bool :=
  (200 <=? status) && (status <? 300).

(** The calls that leave the process, in the order they are made. *)
Inductive event :=
| LoadState (name : string)
| SaveState (name : string) (st : run_state)
| Get (url : string).

(** What an invocation reads from outside: the clock and the remote
    service.  One invocation sees one clock value. *)
Record env := { now : datetime; remote : string -> response }.

(** What an invocation changes: the state store, and the trace of its
    external calls. *)
Record world := { w_store : store; w_trace : list event }.

Definition M (A : Type) : Type := env -> world -> outcome A * world.

Definition ret {A} (a : A) : M A := fun _ w => (Returns a, w).

Definition raise {A} (x : exn) : M A := fun _ w => (Raises x, w).

Definition bind {A B} (m : M A) (k : A -> M B) : M B :=
  fun e w =>
    match m e w with
    | (Returns a, w') => k a e w'
    | (Raises x, w') => (Raises x, w')
    end.

Declare Scope py_scope.
Delimit Scope py_scope with py.
Notation "x <- m ;; k" := (bind m (fun x => k))
  (at level 61, m at next level, right associativity) : py_scope.
Notation "m ;;; k" := (bind m (fun _ => k))
  (at level 61, right associativity) : py_scope.
Local Open Scope py_scope.

Definition log (w : world) (ev : event) : world :=
  {| w_store := w_store w; w_trace := append (w_trace w) ev |}.

Definition datetime_now : M datetime := fun e w => (Returns (now e), w).

Definition load_state (name : string) : M run_state :=
  fun _ w => (Returns (store_get (w_store w) name), log w (LoadState name)).

Definition save_state (name : string) (st : run_state) : M unit :=
  fun _ w =>
    (Returns tt,
     {| w_store := store_set (w_store w) name st;
        w_trace := append (w_trace w) (SaveState name st) |}).

Definition get (url : string) : M response :=
  fun e w => (Returns (remote e url), log w (Get url)).

Definition raise_for_status (r : response) : M unit :=
  if is_success (status_code r) then ret tt
  else raise (HTTPStatusError (status_code r)).

(** A [for] loop whose body updates the loop-carried value [s]; [continue]
    is [ret s]. *)
Fixpoint for_each {A S} (l : list A) (body : A -> S -> M S) (s : S) : M S :=
  match l with
  | [] => ret s
  | x :: l' => s' <- body x s ;; for_each l' body s'
  end.

(** The shared fetch step: every [fetch_*] function of the three modules is
    this code with its own URL. *)
Definition fetch_url (url : string) : M (option payload) :=
  response <- get url ;;
  if status_code response =? 404 then ret None
  else raise_for_status response ;;; ret (Some (json response)).

(** *** Tables *)

Inductive arrow_type := Int32 | Utf8 | Float64 | TimestampS.

Record field := { f_name : string; f_type : arrow_type; f_nullable : bool }.

Definition pa_field (n : string) (t : arrow_type) (nullable : bool) : field :=
  {| f_name := n; f_type := t; f_nullable := nullable |}.

(** [pa.Table.from_pylist(records, schema=schema)].  The conversions the
    table library performs on the values are not modelled. *)
Record table (R : Type) := { tbl_schema : list field; tbl_rows : list R }.
Arguments tbl_schema {R} t.
Arguments tbl_rows {R} t.

Definition from_pylist {R} (records : list R) (schema : list field) : table R :=
  {| tbl_schema := schema; tbl_rows := records |}.

Definition num_rows {R} (t : table R) : Z := len (tbl_rows t).

Definition option_string_eqb (o : option string) (s : string) : bool :=
  match o with
  | Some s' => String.eqb s' s
  | None => false
  end.

(** [x in [...]] on strings. *)
Definition str_in (x : string) (l : list string) : bool :=
  existsb (String.eqb x) l.

(** The region and surface tables are the same in both global modules. *)
Definition regions : list (string * string) :=
  [ ("globe", "Global");
    ("nhem", "Northern Hemisphere");
    ("shem", "Southern Hemisphere");
    ("europe", "Europe");
    ("asia", "Asia");
    ("africa", "Africa") ].

Definition surface_types : list (string * string) :=
  [ ("land_ocean", "Land and Ocean");
    ("land", "Land");
    ("ocean", "Ocean") ].

Definition BASE_URL : string :=
  "https://www.ncei.noaa.gov/access/monitoring/climate-at-a-glance/global/time-series".

Definition US_BASE_URL : string :=
  "https://www.ncei.noaa.gov/access/monitoring/climate-at-a-glance/national/time-series".

(* ================================================================== *)
(** ** global_temperature_anomalies.py *)
(* ================================================================== *)

Module GlobalTemperatureAnomalies.

Definition fetch_temperature_data (region surface_type : string)
           (start_year : Z) : M (option payload) :=
  t <- datetime_now ;;
  let current_year := dt_year t in
  let url := BASE_URL ++ "/" ++ region ++ "/" ++ surface_type ++ "/1/12/"
             ++ str start_year ++ "-" ++ str current_year ++ "/data.json" in
  fetch_url url.

Record record := {
  year : Z;
  region : string;
  surface_type : string;
  temperature_anomaly_celsius : Q;
  base_period : string;
  description : string;
  data_source : string;
  updated_at : datetime
}.

Definition schema : list field :=
  [ pa_field "year" Int32 false;
    pa_field "region" Utf8 false;
    pa_field "surface_type" Utf8 false;
    pa_field "temperature_anomaly_celsius" Float64 false;
    pa_field "base_period" Utf8 true;
    pa_field "description" Utf8 true;
    pa_field "data_source" Utf8 false;
    pa_field "updated_at" TimestampS false ].

(** The body of the loop over [yearly_data.items()]. *)
Definition yearly_body (region_name surface_name base title : string)
           (current_timestamp : datetime)
           (item : string * entry) (records : list record)
  : M (list record) :=
  let '(year_str, values) := item in
  match member_get (anomaly values) with
  | Some a =>
      match int year_str with
      | None => raise ValueError
      | Some y =>
          ret (append records
                 {| year := y;
                    region := region_name;
                    surface_type := surface_name;
                    temperature_anomaly_celsius := a;
                    base_period := base;
                    description := title;
                    data_source := "NOAA Climate at a Glance";
                    updated_at := current_timestamp |})
      end
  | None => ret records
  end.

(** The body of the loop over the surface types, for one region. *)
Definition surface_body (region_code region_name : string)
           (current_timestamp : datetime)
           (surface : string * string) (records : list record)
  : M (list record) :=
  let '(surface_code, surface_name) := surface in
  if str_in region_code ["europe"; "asia"; "africa"]
     && String.eqb surface_code "ocean"
  then ret records
  else
    data <- fetch_temperature_data region_code surface_code 1850 ;;
    match data with
    | None => ret records
    | Some data =>
        let d := get_description data in
        let title := get_title d in
        let base := get_base_period d in
        let yearly_data := get_data data in
        for_each yearly_data
          (yearly_body region_name surface_name base title current_timestamp)
          records
    end.

Definition region_body (current_timestamp : datetime)
           (r : string * string) (records : list record)
  : M (list record) :=
  let '(region_code, region_name) := r in
  for_each surface_types
    (surface_body region_code region_name current_timestamp) records.

Definition process_global_temperature_anomalies : M (table record) :=
  state <- load_state "global_temperature_anomalies" ;;
  let last := last_update state in
  t <- datetime_now ;;
  let today := strftime_Ymd t in
  if option_string_eqb last today then ret (from_pylist [] schema)
  else
    current_timestamp <- datetime_now ;;
    records <- for_each regions (region_body current_timestamp) [] ;;
    save_state "global_temperature_anomalies"
      {| last_update := Some today;
         records_processed := Some (len records) |} ;;;
    ret (from_pylist records schema).

End GlobalTemperatureAnomalies.

(* ================================================================== *)
(** ** regional_climate_data.py *)
(* ================================================================== *)

Module RegionalClimateData.

Record stats := {
  avg_anomaly : Q;
  min_anomaly : Q;
  max_anomaly : Q;
  trend_direction : string;
  trend_magnitude : Q;
  latest_anomaly : option Q;
  latest_year : option Z
}.

(** [yearly_data[year].get("anomaly", 0)]: the default applies to a missing
    key only; a [null] stays [None]. *)
Definition anomaly_or_zero (e : entry) : option Q :=
  match anomaly e with
  | Absent => Some 0%Q
  | Null => None
  | Num q => Some q
  end.

(** The list comprehension over the sorted years.  [yearly_data[year]] is
    always defined there, since the years are the keys of the mapping. *)
Definition anomalies_of (d : series) (years : list string) : list (option Q) :=
  map (fun year =>
         match lookup d year with
         | Some e => anomaly_or_zero e
         | None => None
         end) years.

(** Arithmetic on a list holding [None] raises [TypeError]; otherwise the
    list is a list of numbers. *)
Fixpoint numbers (l : list (option Q)) : option (list Q) :=
  match l with
  | [] => Some []
  | Some q :: l' => option_map (cons q) (numbers l')
  | None :: _ => None
  end.

Definition calculate_trend_statistics (yearly_data : series)
  : outcome (option stats) :=
  match yearly_data with
  | [] => Returns None
  | _ =>
      let years := sorted (keys yearly_data) in
      match numbers (anomalies_of yearly_data years) with
      | None => Raises TypeError
      | Some anomalies =>
          let n := len anomalies in
          let avg := (sum anomalies / inject_Z n)%Q in
          let mn := min anomalies in
          let mx := max anomalies in
          let '(direction, magnitude) :=
            if 2 <=? n then
              let first_half_avg :=
                (sum (slice_to anomalies (n / 2)) / inject_Z (n / 2))%Q in
              let second_half_avg :=
                (sum (slice_from anomalies (n / 2)) / inject_Z (n - n / 2))%Q in
              (if Qltb first_half_avg second_half_avg
               then "warming" else "cooling",
               Qabs (second_half_avg - first_half_avg))
            else ("stable", 0%Q) in
          match int (last years "") with
          | None => Raises ValueError
          | Some y =>
              Returns (Some {|
                avg_anomaly := round avg 3;
                min_anomaly := round mn 3;
                max_anomaly := round mx 3;
                trend_direction := direction;
                trend_magnitude := round magnitude 3;
                latest_anomaly := Some (round (last anomalies 0%Q) 3);
                latest_year := Some y |})
          end
      end
  end.

Definition fetch_recent_climate_data (region surface_type : string)
           (years_back : Z) : M (option payload) :=
  t <- datetime_now ;;
  let current_year := dt_year t in
  let start_year := current_year - years_back in
  let url := BASE_URL ++ "/" ++ region ++ "/" ++ surface_type ++ "/1/12/"
             ++ str start_year ++ "-" ++ str current_year ++ "/data.json" in
  fetch_url url.

Record record := {
  region : string;
  surface_type : string;
  period_start : Z;
  period_end : Z;
  avg_temperature_anomaly : Q;
  min_temperature_anomaly : Q;
  max_temperature_anomaly : Q;
  r_latest_year : option Z;
  r_latest_anomaly : option Q;
  r_trend_direction : string;
  trend_magnitude_celsius : Q;
  base_period : string;
  data_points : Z;
  updated_at : datetime
}.

Definition schema : list field :=
  [ pa_field "region" Utf8 false;
    pa_field "surface_type" Utf8 false;
    pa_field "period_start" Int32 false;
    pa_field "period_end" Int32 false;
    pa_field "avg_temperature_anomaly" Float64 false;
    pa_field "min_temperature_anomaly" Float64 false;
    pa_field "max_temperature_anomaly" Float64 false;
    pa_field "latest_year" Int32 true;
    pa_field "latest_anomaly" Float64 true;
    pa_field "trend_direction" Utf8 false;
    pa_field "trend_magnitude_celsius" Float64 false;
    pa_field "base_period" Utf8 true;
    pa_field "data_points" Int32 false;
    pa_field "updated_at" TimestampS false ].

Definition periods : list Z := [10; 30; 50].

(** Lifting of a call that may raise into [M]. *)
Definition lift {A} (o : outcome A) : M A := fun _ w => (o, w).

(** The dict literal of one summary record. *)
Definition summary_record (region_name surface_name : string)
           (current_timestamp : datetime) (period : Z)
           (base : string) (yearly_data : series) (st : stats) : record :=
  let current_year := dt_year current_timestamp in
  {| region := region_name;
     surface_type := surface_name;
     period_start := current_year - period;
     period_end := current_year;
     avg_temperature_anomaly := avg_anomaly st;
     min_temperature_anomaly := min_anomaly st;
     max_temperature_anomaly := max_anomaly st;
     r_latest_year := latest_year st;
     r_latest_anomaly := latest_anomaly st;
     r_trend_direction := trend_direction st;
     trend_magnitude_celsius := trend_magnitude st;
     base_period := base;
     data_points := len yearly_data;
     updated_at := current_timestamp |}.

(** The body of the loop over the periods, for one region and surface. *)
Definition period_body (region_code region_name surface_code
                        surface_name : string)
           (current_timestamp : datetime)
           (period : Z) (records : list record) : M (list record) :=
  data <- fetch_recent_climate_data region_code surface_code period ;;
  match data with
  | None => ret records
  | Some data =>
      let d := get_description data in
      let base := get_base_period d in
      let yearly_data := get_data data in
      st <- lift (calculate_trend_statistics yearly_data) ;;
      match st with
      | Some st =>
          ret (append records
                 (summary_record region_name surface_name current_timestamp
                                 period base yearly_data st))
      | None => ret records
      end
  end.

Definition surface_body (region_code region_name : string)
           (current_timestamp : datetime)
           (surface : string * string) (records : list record)
  : M (list record) :=
  let '(surface_code, surface_name) := surface in
  if str_in region_code ["europe"; "asia"; "africa"]
     && String.eqb surface_code "ocean"
  then ret records
  else
    for_each periods
      (period_body region_code region_name surface_code surface_name
                   current_timestamp) records.

Definition region_body (current_timestamp : datetime)
           (r : string * string) (records : list record)
  : M (list record) :=
  let '(region_code, region_name) := r in
  for_each surface_types
    (surface_body region_code region_name current_timestamp) records.

Definition process_regional_climate_data : M (table record) :=
  state <- load_state "regional_climate_data" ;;
  let last := last_update state in
  t <- datetime_now ;;
  let current_month := strftime_Ym t in
  if option_string_eqb last current_month then ret (from_pylist [] schema)
  else
    current_timestamp <- datetime_now ;;
    records <- for_each regions (region_body current_timestamp) [] ;;
    save_state "regional_climate_data"
      {| last_update := Some current_month;
         records_processed := Some (len records) |} ;;;
    ret (from_pylist records schema).

End RegionalClimateData.

(* ================================================================== *)
(** ** precipitation_data.py *)
(* ================================================================== *)

Module PrecipitationData.

Definition fetch_us_precipitation_data (start_year : Z) : M (option payload) :=
  t <- datetime_now ;;
  let current_year := dt_year t in
  let url := US_BASE_URL ++ "/110/pcp/1/12/"
             ++ str start_year ++ "-" ++ str current_year ++ "/data.json" in
  fetch_url url.

Definition fetch_us_temperature_data (start_year : Z) : M (option payload) :=
  t <- datetime_now ;;
  let current_year := dt_year t in
  let url := US_BASE_URL ++ "/110/tavg/1/12/"
             ++ str start_year ++ "-" ++ str current_year ++ "/data.json" in
  fetch_url url.

Record record := {
  year : Z;
  region : string;
  precipitation_inches : option Q;
  precipitation_anomaly_inches : option Q;
  temperature_fahrenheit : option Q;
  temperature_anomaly_fahrenheit : option Q;
  data_type : string;
  base_period : option string;
  updated_at : datetime
}.

Definition schema : list field :=
  [ pa_field "year" Int32 false;
    pa_field "region" Utf8 false;
    pa_field "precipitation_inches" Float64 true;
    pa_field "precipitation_anomaly_inches" Float64 true;
    pa_field "temperature_fahrenheit" Float64 true;
    pa_field "temperature_anomaly_fahrenheit" Float64 true;
    pa_field "data_type" Utf8 false;
    pa_field "base_period" Utf8 true;
    pa_field "updated_at" TimestampS false ].

(** The [anomaly] of an entry as the annual loop reads it:
    [values["anomaly"]] when the key is there, else [None]. *)
Definition anomaly_if_present (values : entry) : option Q :=
  if member_in (anomaly values) then member_get (anomaly values) else None.

(** One annual record, for a year string that [int] accepted. *)
Definition annual_record (yearly_temp : series) (precip_base : string)
           (current_timestamp : datetime)
           (year_str : string) (y : Z) (precip_values : entry) : record :=
  let precip_value := member_get (value precip_values) in
  let precip_anomaly := anomaly_if_present precip_values in
  let '(temp_value, temp_anomaly) :=
    match lookup yearly_temp year_str with
    | Some temp_values =>
        (member_get (value temp_values), anomaly_if_present temp_values)
    | None => (None, None)
    end in
  {| year := y;
     region := "United States";
     precipitation_inches := precip_value;
     precipitation_anomaly_inches := precip_anomaly;
     temperature_fahrenheit := temp_value;
     temperature_anomaly_fahrenheit := temp_anomaly;
     data_type := "Annual Average";
     base_period := Some precip_base;
     updated_at := current_timestamp |}.

(** The body of the loop over [yearly_precip.items()]. *)
Definition annual_body (yearly_temp : series) (precip_base : string)
           (current_timestamp : datetime)
           (item : string * entry) (records : list record)
  : M (list record) :=
  let '(year_str, precip_values) := item in
  match int year_str with
  | None => raise ValueError
  | Some y =>
      ret (append records
             (annual_record yearly_temp precip_base current_timestamp
                            year_str y precip_values))
  end.

(** The [decades] dict: decade to its two value lists, in insertion
    order. *)
Record bucket := { precip_values : list Q; temp_values : list Q }.

Definition decades_dict := list (Z * bucket).

Fixpoint dict_mem (d : decades_dict) (k : Z) : bool :=
  match d with
  | [] => false
  | (k', _) :: d' => (k' =? k) || dict_mem d' k
  end.

(** [d[k] = f(d[k])] for a key that is in [d]. *)
Fixpoint dict_update (d : decades_dict) (k : Z) (f : bucket -> bucket)
  : decades_dict :=
  match d with
  | [] => []
  | (k', b) :: d' =>
      if k' =? k then (k', f b) :: d' else (k', b) :: dict_update d' k f
  end.

Definition append_opt (l : list Q) (o : option Q) : list Q :=
  match o with
  | Some x => append l x
  | None => l
  end.

(** The body of the first decade loop. *)
Definition decades_step (decades : decades_dict) (r : record)
  : decades_dict :=
  let decade := (year r / 10) * 10 in
  let decades :=
    if dict_mem decades decade then decades
    else append decades
                (decade, {| precip_values := []; temp_values := [] |}) in
  dict_update decades decade
    (fun b =>
       {| precip_values := append_opt (precip_values b) (precipitation_inches r);
          temp_values := append_opt (temp_values b) (temperature_fahrenheit r) |}).

Definition build_decades (records : list record) : decades_dict :=
  fold_left decades_step records [].

(** Truth value of [avg_temp]: [None] and [0.0] are false. *)
Definition avg_truthy (o : option Q) : bool :=
  match o with
  | Some x => negb (Qeq_bool x 0)
  | None => false
  end.

(** The body of the second decade loop: the record of one bucket, if it
    has a precipitation value. *)
Definition decade_record (current_timestamp : datetime)
           (item : Z * bucket) : option record :=
  let '(decade, values) := item in
  match precip_values values with
  | [] => None
  | _ =>
      let avg_precip :=
        (sum (precip_values values) / inject_Z (len (precip_values values)))%Q in
      let avg_temp :=
        match temp_values values with
        | [] => None
        | _ => Some (sum (temp_values values)
                     / inject_Z (len (temp_values values)))%Q
        end in
      Some {| year := decade;
              region := "United States";
              precipitation_inches := Some (round avg_precip 2);
              precipitation_anomaly_inches := None;
              temperature_fahrenheit :=
                if avg_truthy avg_temp
                then option_map (fun x => round x 2) avg_temp
                else None;
              temperature_anomaly_fahrenheit := None;
              data_type := "Decade Average";
              base_period := None;
              updated_at := current_timestamp |}
  end.

Fixpoint filter_map {A B} (f : A -> option B) (l : list A) : list B :=
  match l with
  | [] => []
  | x :: l' =>
      match f x with
      | Some y => y :: filter_map f l'
      | None => filter_map f l'
      end
  end.

(** The block under [if records:]. *)
Definition decade_records (current_timestamp : datetime)
           (records : list record) : list record :=
  filter_map (decade_record current_timestamp) (build_decades records).

Definition add_decade_averages (current_timestamp : datetime)
           (records : list record) : list record :=
  match records with
  | [] => records
  | _ => extend records (decade_records current_timestamp records)
  end.

(** The block under [if precip_data:]; [None] and the empty dict are false,
    for [precip_data] and for [temp_data]. *)
Definition annual_records (precip_data temp_data : option payload)
           (current_timestamp : datetime) : M (list record) :=
  match precip_data with
  | Some p =>
      if payload_truthy p then
        let precip_desc := get_description p in
        let precip_base := get_base_period precip_desc in
        let yearly_precip := get_data p in
        let yearly_temp :=
          match temp_data with
          | Some t => if payload_truthy t then get_data t else []
          | None => []
          end in
        for_each yearly_precip
          (annual_body yearly_temp precip_base current_timestamp) []
      else ret []
  | None => ret []
  end.

Definition process_precipitation_data : M (table record) :=
  state <- load_state "precipitation_data" ;;
  let last := last_update state in
  t <- datetime_now ;;
  let current_month := strftime_Ym t in
  if option_string_eqb last current_month then ret (from_pylist [] schema)
  else
    current_timestamp <- datetime_now ;;
    precip_data <- fetch_us_precipitation_data 1895 ;;
    temp_data <- fetch_us_temperature_data 1895 ;;
    records <- annual_records precip_data temp_data current_timestamp ;;
    let records := add_decade_averages current_timestamp records in
    save_state "precipitation_data"
      {| last_update := Some current_month;
         records_processed := Some (len records) |} ;;;
    ret (from_pylist records schema).

End PrecipitationData.

(* ================================================================== *)
(** ** Reasoning about the monad and its loops *)
(* ================================================================== *)

Definition map_outcome {A B} (f : A -> B) (o : outcome A) : outcome B :=
  match o with
  | Returns a => Returns (f a)
  | Raises x => Raises x
  end.

(** The world after some more external calls that leave the store alone. *)
Definition extend_trace (w : world) (tr : list event) : world :=
  {| w_store := w_store w; w_trace := (w_trace w ++ tr)%list |}.

Lemma extend_trace_nil (w : world) : extend_trace w [] = w.
Proof. destruct w; unfold extend_trace; simpl. now rewrite app_nil_r. Qed.

Lemma extend_trace_app (w : world) (t1 t2 : list event) :
  extend_trace (extend_trace w t1) t2 = extend_trace w (t1 ++ t2)%list.
Proof. unfold extend_trace; simpl. now rewrite app_assoc. Qed.

Lemma log_extend (w : world) (ev : event) : log w ev = extend_trace w [ev].
Proof. reflexivity. Qed.

(** What one round of an accumulating loop does: the rows it adds (or the
    exception it raises) and the external calls it makes. *)
Definition step (R : Type) : Type := (outcome (list R) * list event)%type.

(** The rounds of a loop, one after the other, up to the first that
    raises. *)
Fixpoint run_all {A R} (g : A -> step R) (l : list A) : step R :=
  match l with
  | [] => (Returns [], [])
  | x :: l' =>
      match g x with
      | (Returns rows, t) =>
          let '(r, t') := run_all g l' in
          (map_outcome (app rows) r, (t ++ t')%list)
      | (Raises x, t) => (Raises x, t)
      end
  end.

(** A loop body [body] follows [g] when each round appends the rows of [g]
    to the accumulator and makes the calls of [g]. *)
Definition follows {A R} (e : env) (body : A -> list R -> M (list R))
           (g : A -> step R) : Prop :=
  forall x s w,
    body x s e w = (map_outcome (app s) (fst (g x)), extend_trace w (snd (g x))).

Lemma for_each_run_all {A R} (e : env) (body : A -> list R -> M (list R))
      (g : A -> step R) :
  follows e body g ->
  forall l s w,
    for_each l body s e w
    = (map_outcome (app s) (fst (run_all g l)),
       extend_trace w (snd (run_all g l))).
Proof.
  intros Hb l; induction l as [|x l IH]; intros s w; simpl.
  - unfold ret. now rewrite app_nil_r, extend_trace_nil.
  - unfold bind. rewrite Hb.
    destruct (g x) as [[rows|ex] t]; simpl; [|reflexivity].
    rewrite IH.
    destruct (run_all g l) as [[rows'|ex] t']; simpl;
      now rewrite extend_trace_app, ?app_assoc.
Qed.

(** When every round returns, the loop returns the rows of all rounds. *)
Lemma run_all_returns {A R} (g : A -> step R) (rows : A -> list R) (l : list A) :
  (forall x, In x l -> fst (g x) = Returns (rows x)) ->
  run_all g l = (Returns (flat_map rows l), flat_map (fun x => snd (g x)) l).
Proof.
  induction l as [|x l IH]; intros H; simpl; [reflexivity|].
  pose proof (H x (or_introl eq_refl)) as Hx.
  destruct (g x) as [r t]; simpl in *; subst r.
  rewrite IH by (intros; apply H; now right). reflexivity.
Qed.

(** A round that raises makes the loop raise. *)
Lemma run_all_raises {A R} (g : A -> step R) (l : list A) (x : A) :
  In x l -> (exists ex, fst (g x) = Raises ex) ->
  exists ex, fst (run_all g l) = Raises ex.
Proof.
  induction l as [|y l IH]; intros Hin Hx; simpl; [contradiction|].
  destruct (g y) as [[rows|ex] t] eqn:Hy; simpl.
  - destruct Hin as [<-|Hin].
    + rewrite Hy in Hx. simpl in Hx. destruct Hx as [ex Hx]. discriminate.
    + destruct (IH Hin Hx) as [ex Hex].
      destruct (run_all g l) as [r t']; simpl in *; subst r. now exists ex.
  - now exists ex.
Qed.

(** The rows of a round, none when it raises. *)
Definition rows_of {R} (st : step R) : list R :=
  match fst st with
  | Returns rows => rows
  | Raises _ => []
  end.

(** A loop that returns went through every round, and every round
    returned. *)
Lemma run_all_returned {A R} (g : A -> step R) (l : list A) (out : list R) :
  fst (run_all g l) = Returns out ->
  (forall x, In x l -> fst (g x) = Returns (rows_of (g x))) /\
  out = flat_map (fun x => rows_of (g x)) l /\
  snd (run_all g l) = flat_map (fun x => snd (g x)) l.
Proof.
  revert out; induction l as [|x l IH]; intros out H; simpl in *.
  - repeat split; [contradiction|now inversion H].
  - unfold rows_of at 2.
    destruct (g x) as [[rx|ex] t] eqn:Hx; simpl in *; [|discriminate].
    destruct (run_all g l) as [[rl|ex] t'] eqn:Hl; simpl in *; [|discriminate].
    inversion H; subst out; clear H.
    destruct (IH rl eq_refl) as [Hrows [-> ->]].
    split; [|split; reflexivity].
    intros y [<-|Hy]; [|now apply Hrows].
    unfold rows_of. now rewrite Hx.
Qed.

(** The calls of a loop are calls of its rounds, whether it returns or
    raises. *)
Lemma run_all_trace {A R} (g : A -> step R) (P : event -> Prop) (l : list A) :
  (forall x, In x l -> Forall P (snd (g x))) ->
  Forall P (snd (run_all g l)).
Proof.
  induction l as [|x l IH]; intros H; simpl; [constructor|].
  pose proof (H x (or_introl eq_refl)) as Hx.
  destruct (g x) as [[rows|ex] t]; simpl in *; [|exact Hx].
  destruct (run_all g l) as [r t'] eqn:Hl; simpl in *.
  apply Forall_app; split; [exact Hx|].
  apply IH. intros; apply H; now right.
Qed.

(** The rows of a loop are rows of its rounds. *)
Lemma run_all_rows {A R} (g : A -> step R) (P : R -> Prop) (l : list A) :
  (forall x, In x l -> Forall P (rows_of (g x))) ->
  Forall P (rows_of (run_all g l)).
Proof.
  induction l as [|x l IH]; intros H; simpl; [constructor|].
  pose proof (H x (or_introl eq_refl)) as Hx.
  unfold rows_of in Hx |- *.
  destruct (g x) as [[rows|ex] t]; simpl in *; [|constructor].
  assert (IH' : Forall P (rows_of (run_all g l)))
    by (apply IH; intros; apply H; now right).
  unfold rows_of in IH'.
  destruct (run_all g l) as [[rl|ex] t']; simpl in *; [|constructor].
  apply Forall_app; now split.
Qed.

Definition empty_world : world := {| w_store := []; w_trace := [] |}.

(** The round of a loop body, read off a run on an empty accumulator. *)
Definition step_of {A R} (e : env) (body : A -> list R -> M (list R))
           (x : A) : step R :=
  let '(r, w') := body x [] e empty_world in (r, w_trace w').

Lemma map_outcome_app_nil {R} (o : outcome (list R)) :
  map_outcome (app []) o = o.
Proof. now destruct o. Qed.

(** *** The fetch step *)

(** What the fetch step makes of a response. *)
Definition fetch_result (r : response) : outcome (option payload) :=
  if status_code r =? 404 then Returns None
  else if is_success (status_code r) then Returns (Some (json r))
  else Raises (HTTPStatusError (status_code r)).

Lemma fetch_url_run (url : string) (e : env) (w : world) :
  fetch_url url e w = (fetch_result (remote e url), extend_trace w [Get url]).
Proof.
  unfold fetch_url, fetch_result, bind, get, raise_for_status; simpl.
  destruct (status_code (remote e url) =? 404); [reflexivity|].
  destruct (is_success (status_code (remote e url))); reflexivity.
Qed.

(** The URL of a global series. *)
Definition global_url (region surface_type : string) (start_year current_year : Z)
  : string :=
  BASE_URL ++ "/" ++ region ++ "/" ++ surface_type ++ "/1/12/"
  ++ str start_year ++ "-" ++ str current_year ++ "/data.json".

(** The URL of a national series. *)
Definition us_url (var : string) (start_year current_year : Z) : string :=
  US_BASE_URL ++ "/110/" ++ var ++ "/1/12/"
  ++ str start_year ++ "-" ++ str current_year ++ "/data.json".

(** The skip rule of both global enumerators. *)
Definition skipped (region_code surface_code : string) : bool :=
  str_in region_code ["europe"; "asia"; "africa"]
  && String.eqb surface_code "ocean".

(** A loop round that makes the fetch step on [url] and then works on the
    payload without further calls. *)
Definition fetch_step {R} (e : env) (url : string)
           (k : payload -> outcome (list R)) : step R :=
  (match fetch_result (remote e url) with
   | Returns None => Returns []
   | Returns (Some p) => k p
   | Raises ex => Raises ex
   end, [Get url]).

(* ------------------------------------------------------------------ *)
(** *** The anomaly processor, round by round *)

Module GlobalFacts.
Import GlobalTemperatureAnomalies.

Section Rounds.
Variable e : env.
Variable ts : datetime.

Lemma fetch_temperature_data_run rc sc start w :
  fetch_temperature_data rc sc start e w
  = (fetch_result (remote e (global_url rc sc start (dt_year (now e)))),
     extend_trace w [Get (global_url rc sc start (dt_year (now e)))]).
Proof.
  unfold fetch_temperature_data, bind, datetime_now.
  apply fetch_url_run.
Qed.

(** The rows of one year. *)
Definition yearly_rows (rn sn base ttl : string) (item : string * entry)
  : outcome (list record) :=
  fst (step_of e (yearly_body rn sn base ttl ts) item).

Lemma yearly_step rn sn base ttl item :
  step_of e (yearly_body rn sn base ttl ts) item
  = (yearly_rows rn sn base ttl item, []).
Proof.
  unfold yearly_rows, step_of, yearly_body. destruct item as [k v].
  destruct (member_get (anomaly v)); [destruct (int k)|]; reflexivity.
Qed.

Lemma yearly_follows rn sn base ttl :
  follows e (yearly_body rn sn base ttl ts)
          (step_of e (yearly_body rn sn base ttl ts)).
Proof.
  intros [k v] s w. unfold step_of, yearly_body.
  destruct (member_get (anomaly v)); [destruct (int k)|];
    simpl; unfold ret, raise; now rewrite ?extend_trace_nil, ?app_nil_r.
Qed.

(** The rows of one payload. *)
Definition payload_rows (rn sn : string) (p : payload)
  : outcome (list record) :=
  fst (run_all (step_of e (yearly_body rn sn
                             (get_base_period (get_description p))
                             (get_title (get_description p)) ts))
               (get_data p)).

Lemma yearly_loop_silent rn sn base ttl (l : series) :
  snd (run_all (step_of e (yearly_body rn sn base ttl ts)) l) = [].
Proof.
  induction l as [|x l IH]; simpl; [reflexivity|].
  rewrite yearly_step.
  destruct (yearly_rows rn sn base ttl x); [|reflexivity].
  destruct (run_all _ l); simpl in *. now subst.
Qed.

(** One (region, surface) combination. *)
Definition combination_step (rc rn : string) (surface : string * string)
  : step record :=
  if skipped rc (fst surface) then (Returns [], [])
  else fetch_step e (global_url rc (fst surface) 1850 (dt_year (now e)))
                  (payload_rows rn (snd surface)).

Lemma surface_run rc rn surface s w :
  surface_body rc rn ts surface s e w
  = (map_outcome (app s) (fst (combination_step rc rn surface)),
     extend_trace w (snd (combination_step rc rn surface))).
Proof.
  destruct surface as [sc sn].
  unfold surface_body, combination_step; cbn [fst snd].
  change (str_in rc ["europe"; "asia"; "africa"] && String.eqb sc "ocean")
    with (skipped rc sc).
  destruct (skipped rc sc).
  - unfold ret; cbn [fst snd map_outcome].
    now rewrite app_nil_r, extend_trace_nil.
  - unfold bind. rewrite fetch_temperature_data_run.
    unfold fetch_step, payload_rows; cbn [fst snd].
    destruct (fetch_result _) as [[p|]|ex]; cbn [map_outcome].
    + rewrite (for_each_run_all e _ _ (yearly_follows _ _ _ _)).
      now rewrite yearly_loop_silent, extend_trace_nil.
    + unfold ret. now rewrite app_nil_r.
    + reflexivity.
Qed.

Lemma global_surface_follows rc rn :
  follows e (surface_body rc rn ts) (combination_step rc rn).
Proof. intros x s w. apply surface_run. Qed.

(** One region: its surface types in turn. *)
Definition region_step (r : string * string) : step record :=
  run_all (combination_step (fst r) (snd r)) surface_types.

Lemma global_region_follows : follows e (region_body ts) region_step.
Proof.
  intros [rc rn] s w. unfold region_body, region_step.
  apply for_each_run_all, global_surface_follows.
Qed.
End Rounds.

Definition NAME : string := "global_temperature_anomalies".

(** The enumeration of one invocation that passed the gate. *)
Definition enumeration (e : env) : step record :=
  run_all (region_step e (now e)) regions.

Definition gate_closed (e : env) (w : world) : bool :=
  option_string_eqb (last_update (store_get (w_store w) NAME))
                    (strftime_Ymd (now e)).

Definition final_state (e : env) (rows : list record) : run_state :=
  {| last_update := Some (strftime_Ymd (now e));
     records_processed := Some (len rows) |}.

(** The whole processor. *)
Lemma global_process_run (e : env) (w : world) :
  process_global_temperature_anomalies e w
  = if gate_closed e w
    then (Returns (from_pylist [] schema), extend_trace w [LoadState NAME])
    else match enumeration e with
         | (Returns rows, tr) =>
             (Returns (from_pylist rows schema),
              {| w_store := store_set (w_store w) NAME (final_state e rows);
                 w_trace := (w_trace w
                             ++ LoadState NAME :: tr
                             ++ [SaveState NAME (final_state e rows)])%list |})
         | (Raises ex, tr) =>
             (Raises ex, extend_trace w (LoadState NAME :: tr))
         end.
Proof.
  unfold process_global_temperature_anomalies, gate_closed, enumeration.
  unfold bind, load_state, datetime_now; cbv beta iota.
  rewrite log_extend; cbn [w_store extend_trace].
  destruct (option_string_eqb _ _); [reflexivity|].
  rewrite (for_each_run_all e _ _ (global_region_follows e (now e))).
  destruct (run_all (region_step e (now e)) regions) as [[rows|ex] tr];
    cbn [fst snd map_outcome app].
  - unfold save_state, ret, extend_trace, append; cbn [w_store w_trace].
    now rewrite <- !app_assoc.
  - unfold extend_trace; cbn [w_store w_trace]. now rewrite <- app_assoc.
Qed.

End GlobalFacts.

(* ------------------------------------------------------------------ *)
(** *** The regional trend processor, round by round *)

Module RegionalFacts.
Import RegionalClimateData.

Section Rounds.
Variable e : env.
Variable ts : datetime.

Definition period_url (rc sc : string) (period : Z) : string :=
  global_url rc sc (dt_year (now e) - period) (dt_year (now e)).

Lemma fetch_recent_climate_data_run rc sc period w :
  fetch_recent_climate_data rc sc period e w
  = (fetch_result (remote e (period_url rc sc period)),
     extend_trace w [Get (period_url rc sc period)]).
Proof.
  unfold fetch_recent_climate_data, bind, datetime_now.
  apply fetch_url_run.
Qed.

(** The rows of one payload: one summary, or none for an empty
    series. *)
Definition summary_rows (rn sn : string) (period : Z) (p : payload)
  : outcome (list record) :=
  match calculate_trend_statistics (get_data p) with
  | Returns (Some st) =>
      Returns [summary_record rn sn ts period
                 (get_base_period (get_description p)) (get_data p) st]
  | Returns None => Returns []
  | Raises ex => Raises ex
  end.

(** One (region, surface, period) combination. *)
Definition period_step (rc rn sc sn : string) (period : Z) : step record :=
  fetch_step e (period_url rc sc period) (summary_rows rn sn period).

Lemma period_follows rc rn sc sn :
  follows e (period_body rc rn sc sn ts) (period_step rc rn sc sn).
Proof.
  intros period s w. unfold period_body, period_step, fetch_step, bind.
  rewrite fetch_recent_climate_data_run; cbn [fst snd].
  destruct (fetch_result _) as [[p|]|ex]; cbn [map_outcome].
  - unfold summary_rows, lift.
    destruct (calculate_trend_statistics (get_data p)) as [[st|]|ex];
      unfold ret, append; cbn [map_outcome]; now rewrite ?app_nil_r.
  - unfold ret. now rewrite app_nil_r.
  - reflexivity.
Qed.

(** One (region, surface) combination: skipped, or its periods in
    turn. *)
Definition combination_step (rc rn : string) (surface : string * string)
  : step record :=
  if skipped rc (fst surface) then (Returns [], [])
  else run_all (period_step rc rn (fst surface) (snd surface)) periods.

Lemma regional_surface_follows rc rn :
  follows e (surface_body rc rn ts) (combination_step rc rn).
Proof.
  intros [sc sn] s w.
  unfold surface_body, combination_step; cbn [fst snd].
  change (str_in rc ["europe"; "asia"; "africa"] && String.eqb sc "ocean")
    with (skipped rc sc).
  destruct (skipped rc sc).
  - unfold ret; cbn [fst snd map_outcome].
    now rewrite app_nil_r, extend_trace_nil.
  - apply for_each_run_all, period_follows.
Qed.

Definition region_step (r : string * string) : step record :=
  run_all (combination_step (fst r) (snd r)) surface_types.

Lemma regional_region_follows : follows e (region_body ts) region_step.
Proof.
  intros [rc rn] s w. unfold region_body, region_step.
  apply for_each_run_all, regional_surface_follows.
Qed.
End Rounds.

Definition NAME : string := "regional_climate_data".

Definition enumeration (e : env) : step record :=
  run_all (region_step e (now e)) regions.

Definition gate_closed (e : env) (w : world) : bool :=
  option_string_eqb (last_update (store_get (w_store w) NAME))
                    (strftime_Ym (now e)).

Definition final_state (e : env) (rows : list record) : run_state :=
  {| last_update := Some (strftime_Ym (now e));
     records_processed := Some (len rows) |}.

Lemma regional_process_run (e : env) (w : world) :
  process_regional_climate_data e w
  = if gate_closed e w
    then (Returns (from_pylist [] schema), extend_trace w [LoadState NAME])
    else match enumeration e with
         | (Returns rows, tr) =>
             (Returns (from_pylist rows schema),
              {| w_store := store_set (w_store w) NAME (final_state e rows);
                 w_trace := (w_trace w
                             ++ LoadState NAME :: tr
                             ++ [SaveState NAME (final_state e rows)])%list |})
         | (Raises ex, tr) =>
             (Raises ex, extend_trace w (LoadState NAME :: tr))
         end.
Proof.
  unfold process_regional_climate_data, gate_closed, enumeration.
  unfold bind, load_state, datetime_now; cbv beta iota.
  rewrite log_extend; cbn [w_store extend_trace].
  destruct (option_string_eqb _ _); [reflexivity|].
  rewrite (for_each_run_all e _ _ (regional_region_follows e (now e))).
  destruct (run_all (region_step e (now e)) regions) as [[rows|ex] tr];
    cbn [fst snd map_outcome app].
  - unfold save_state, ret, extend_trace, append; cbn [w_store w_trace].
    now rewrite <- !app_assoc.
  - unfold extend_trace; cbn [w_store w_trace]. now rewrite <- app_assoc.
Qed.

End RegionalFacts.

(* ------------------------------------------------------------------ *)
(** *** The precipitation processor, step by step *)

Module PrecipFacts.
Import PrecipitationData.

Definition NAME : string := "precipitation_data".

Section Rounds.
Variable e : env.
Variable ts : datetime.

Definition precip_url : string := us_url "pcp" 1895 (dt_year (now e)).
Definition temp_url : string := us_url "tavg" 1895 (dt_year (now e)).

Lemma fetch_us_precipitation_data_run w :
  fetch_us_precipitation_data 1895 e w
  = (fetch_result (remote e precip_url), extend_trace w [Get precip_url]).
Proof.
  unfold fetch_us_precipitation_data, bind, datetime_now.
  apply fetch_url_run.
Qed.

Lemma fetch_us_temperature_data_run w :
  fetch_us_temperature_data 1895 e w
  = (fetch_result (remote e temp_url), extend_trace w [Get temp_url]).
Proof.
  unfold fetch_us_temperature_data, bind, datetime_now.
  apply fetch_url_run.
Qed.

(** One year of the precipitation series. *)
Definition annual_step (yearly_temp : series) (base : string)
           (item : string * entry) : step record :=
  (match int (fst item) with
   | None => Raises ValueError
   | Some y =>
       Returns [annual_record yearly_temp base ts (fst item) y (snd item)]
   end, []).

Lemma annual_follows yearly_temp base :
  follows e (annual_body yearly_temp base ts) (annual_step yearly_temp base).
Proof.
  intros [k v] s w. unfold annual_body, annual_step; cbn [fst snd].
  destruct (int k); unfold ret, raise, append; cbn [map_outcome];
    now rewrite extend_trace_nil.
Qed.

Lemma annual_loop_silent yearly_temp base (l : series) :
  snd (run_all (annual_step yearly_temp base) l) = [].
Proof.
  induction l as [|x l IH]; simpl; [reflexivity|].
  destruct (int (fst x)); [|reflexivity].
  destruct (run_all _ l); simpl in *. now subst.
Qed.

(** The temperature series the annual loop joins against. *)
Definition joined_temp (temp_data : option payload) : series :=
  match temp_data with
  | Some t => if payload_truthy t then get_data t else []
  | None => []
  end.

(** The annual records of the two fetched payloads. *)
Definition annual_outcome (precip_data temp_data : option payload)
  : outcome (list record) :=
  match precip_data with
  | Some p =>
      if payload_truthy p then
        fst (run_all (annual_step (joined_temp temp_data)
                        (get_base_period (get_description p)))
                     (get_data p))
      else Returns []
  | None => Returns []
  end.

Lemma annual_records_run precip_data temp_data w :
  annual_records precip_data temp_data ts e w
  = (annual_outcome precip_data temp_data, w).
Proof.
  unfold annual_records, annual_outcome.
  destruct precip_data as [p|]; [|reflexivity].
  destruct (payload_truthy p); [|reflexivity].
  fold (joined_temp temp_data).
  rewrite (for_each_run_all e _ _ (annual_follows _ _)).
  now rewrite annual_loop_silent, extend_trace_nil, map_outcome_app_nil.
Qed.
End Rounds.

Definition gate_closed (e : env) (w : world) : bool :=
  option_string_eqb (last_update (store_get (w_store w) NAME))
                    (strftime_Ym (now e)).

Definition final_state (e : env) (rows : list record) : run_state :=
  {| last_update := Some (strftime_Ym (now e));
     records_processed := Some (len rows) |}.

(** The work of one invocation that passed the gate: the two fetches,
    then the annual and the decade records. *)
Definition production (e : env) : step record :=
  match fetch_result (remote e (precip_url e)) with
  | Raises ex => (Raises ex, [Get (precip_url e)])
  | Returns precip_data =>
      (match fetch_result (remote e (temp_url e)) with
       | Raises ex => Raises ex
       | Returns temp_data =>
           map_outcome (add_decade_averages (now e))
                       (annual_outcome (now e) precip_data temp_data)
       end, [Get (precip_url e); Get (temp_url e)])
  end.

Lemma precip_process_run (e : env) (w : world) :
  process_precipitation_data e w
  = if gate_closed e w
    then (Returns (from_pylist [] schema), extend_trace w [LoadState NAME])
    else match production e with
         | (Returns rows, tr) =>
             (Returns (from_pylist rows schema),
              {| w_store := store_set (w_store w) NAME (final_state e rows);
                 w_trace := (w_trace w
                             ++ LoadState NAME :: tr
                             ++ [SaveState NAME (final_state e rows)])%list |})
         | (Raises ex, tr) =>
             (Raises ex, extend_trace w (LoadState NAME :: tr))
         end.
Proof.
  unfold process_precipitation_data, gate_closed, production.
  unfold bind, load_state, datetime_now; cbv beta iota.
  rewrite log_extend; cbn [w_store extend_trace].
  destruct (option_string_eqb _ _); [reflexivity|].
  rewrite fetch_us_precipitation_data_run.
  destruct (fetch_result (remote e (precip_url e))) as [pd|ex].
  - rewrite fetch_us_temperature_data_run.
    destruct (fetch_result (remote e (temp_url e))) as [td|ex].
    + rewrite annual_records_run.
      destruct (annual_outcome (now e) pd td) as [rows|ex];
        cbn [map_outcome].
      * unfold save_state, ret, extend_trace, append; cbn [w_store w_trace].
        now rewrite <- !app_assoc.
      * unfold extend_trace; cbn [w_store w_trace].
        now rewrite <- !app_assoc.
    + unfold extend_trace; cbn [w_store w_trace]. now rewrite <- !app_assoc.
  - unfold extend_trace; cbn [w_store w_trace]. now rewrite <- !app_assoc.
Qed.

End PrecipFacts.

(* ================================================================== *)
(** ** The idempotence gate and the external calls of an invocation *)
(* ================================================================== *)

Lemma option_string_eqb_true (o : option string) (s : string) :
  option_string_eqb o s = true <-> o = Some s.
Proof.
  destruct o as [s'|]; simpl.
  - rewrite String.eqb_eq. split; congruence.
  - split; discriminate.
Qed.

Definition is_get (ev : event) : Prop :=
  match ev with
  | Get _ => True
  | _ => False
  end.

Lemma fetch_step_gets {R} (e : env) (url : string)
      (k : payload -> outcome (list R)) :
  Forall is_get (snd (fetch_step e url k)).
Proof. unfold fetch_step; simpl. repeat constructor. Qed.

Lemma global_enumeration_gets (e : env) :
  Forall is_get (snd (GlobalFacts.enumeration e)).
Proof.
  apply run_all_trace; intros r _.
  apply run_all_trace; intros s _.
  unfold GlobalFacts.combination_step.
  destruct (skipped _ _); [constructor|apply fetch_step_gets].
Qed.

Lemma regional_enumeration_gets (e : env) :
  Forall is_get (snd (RegionalFacts.enumeration e)).
Proof.
  apply run_all_trace; intros r _.
  apply run_all_trace; intros s _.
  unfold RegionalFacts.combination_step.
  destruct (skipped _ _); [constructor|].
  apply run_all_trace; intros p _. apply fetch_step_gets.
Qed.

Lemma precip_production_gets (e : env) :
  Forall is_get (snd (PrecipFacts.production e)).
Proof.
  unfold PrecipFacts.production.
  destruct (fetch_result _); simpl; repeat constructor.
Qed.

(** The three processors share one shape: behind the gate, some work that
    only fetches, then the state write. *)
Definition gated_shape {R} (proc : M (table R)) (schema : list field)
           (name : string) (period : datetime -> string)
           (work : env -> step R) : Prop :=
  forall e w,
    proc e w
    = if option_string_eqb (last_update (store_get (w_store w) name))
                           (period (now e))
      then (Returns (from_pylist [] schema), extend_trace w [LoadState name])
      else match work e with
           | (Returns rows, tr) =>
               let st := {| last_update := Some (period (now e));
                            records_processed := Some (len rows) |} in
               (Returns (from_pylist rows schema),
                {| w_store := store_set (w_store w) name st;
                   w_trace := (w_trace w ++ LoadState name :: tr
                               ++ [SaveState name st])%list |})
           | (Raises ex, tr) =>
               (Raises ex, extend_trace w (LoadState name :: tr))
           end.

Lemma global_shape :
  gated_shape GlobalTemperatureAnomalies.process_global_temperature_anomalies
              GlobalTemperatureAnomalies.schema GlobalFacts.NAME
              strftime_Ymd GlobalFacts.enumeration.
Proof. intros e w. apply GlobalFacts.global_process_run. Qed.

Lemma regional_shape :
  gated_shape RegionalClimateData.process_regional_climate_data
              RegionalClimateData.schema RegionalFacts.NAME
              strftime_Ym RegionalFacts.enumeration.
Proof. intros e w. apply RegionalFacts.regional_process_run. Qed.

Lemma precip_shape :
  gated_shape PrecipitationData.process_precipitation_data
              PrecipitationData.schema PrecipFacts.NAME
              strftime_Ym PrecipFacts.production.
Proof. intros e w. apply PrecipFacts.precip_process_run. Qed.

Section Gate.
Context {R : Type} (proc : M (table R)) (schema : list field)
        (name : string) (period : datetime -> string) (work : env -> step R).
Hypothesis shape : gated_shape proc schema name period work.
Hypothesis work_gets : forall e, Forall is_get (snd (work e)).

(** The gate is closed when the persisted [last_update] is the current
    period string. *)
Definition closed (e : env) (w : world) : Prop :=
  last_update (store_get (w_store w) name) = Some (period (now e)).

Lemma closed_run e w :
  closed e w ->
  proc e w = (Returns (from_pylist [] schema), extend_trace w [LoadState name]).
Proof.
  intros H. rewrite shape.
  apply option_string_eqb_true in H. now rewrite H.
Qed.

(** A run that returns leaves the gate closed for its own period. *)
Lemma returned_closed e w t w' :
  proc e w = (Returns t, w') ->
  last_update (store_get (w_store w') name) = Some (period (now e)).
Proof.
  rewrite shape.
  destruct (option_string_eqb _ _) eqn:Hg.
  - intros H; inversion H; subst; simpl.
    now apply option_string_eqb_true.
  - destruct (work e) as [[rows|ex] tr]; intros H; inversion H; subst; simpl.
    now rewrite String.eqb_refl.
Qed.

Lemma second_run e1 e2 w t w1 :
  proc e1 w = (Returns t, w1) ->
  period (now e2) = period (now e1) ->
  proc e2 w1
  = (Returns (from_pylist [] schema), extend_trace w1 [LoadState name]).
Proof.
  intros H1 Hp. apply closed_run. unfold closed. rewrite Hp.
  eapply returned_closed; eauto.
Qed.

(** A run past the gate that returns: one read, fetches, one write. *)
Lemma open_run_returns e w t w' :
  ~ closed e w ->
  proc e w = (Returns t, w') ->
  exists gets st,
    w_trace w' = (w_trace w ++ LoadState name :: gets ++ [SaveState name st])%list
    /\ Forall is_get gets
    /\ w_store w' = store_set (w_store w) name st
    /\ last_update st = Some (period (now e)).
Proof.
  intros Hc. rewrite shape.
  destruct (option_string_eqb _ _) eqn:Hg.
  - apply option_string_eqb_true in Hg. contradiction.
  - pose proof (work_gets e) as Hw.
    destruct (work e) as [[rows|ex] tr]; intros H; inversion H; subst.
    eexists _, _; simpl; repeat split; auto.
Qed.

(** A run past the gate that raises: one read, fetches, no write. *)
Lemma open_run_raises e w ex w' :
  proc e w = (Raises ex, w') ->
  exists gets,
    w_trace w' = (w_trace w ++ LoadState name :: gets)%list
    /\ Forall is_get gets
    /\ w_store w' = w_store w.
Proof.
  rewrite shape.
  destruct (option_string_eqb _ _) eqn:Hg; [discriminate|].
  pose proof (work_gets e) as Hw.
  destruct (work e) as [[rows|ex'] tr]; intros H; inversion H; subst.
  eexists; simpl; repeat split; auto.
Qed.
End Gate.

(** Sample surroundings used by the examples below: a clock, a remote
    service that knows no series, and a store in which all three datasets
    were updated in the current period. *)
Definition sample_now : datetime :=
  {| dt_year := 2024; dt_month := 3; dt_day := 9; dt_second := 0 |}.

Definition empty_payload : payload :=
  {| p_description := None; p_data := None |}.

Definition not_found (url : string) : response :=
  {| status_code := 404; json := empty_payload |}.

Definition sample_env : env := {| now := sample_now; remote := not_found |}.

Definition updated_world : world :=
  {| w_store :=
       [ ("global_temperature_anomalies",
          {| last_update := Some "2024-03-09"; records_processed := Some 0 |});
         ("regional_climate_data",
          {| last_update := Some "2024-03"; records_processed := Some 0 |});
         ("precipitation_data",
          {| last_update := Some "2024-03"; records_processed := Some 0 |}) ];
     w_trace := [] |}.

(** What the gate promises of a processor [proc] with dataset [name],
    declared [schema] and period string [period]:
    - with [last_update] equal to the current period string the invocation
      returns the empty table over [schema], and its only external call is
      the state read;
    - a second invocation in the period of an invocation that returned
      hits the gate. *)
Definition gate_idempotent {R} (proc : M (table R)) (schema : list field)
           (name : string) (period : datetime -> string) : Prop :=
  (forall e w,
      last_update (store_get (w_store w) name) = Some (period (now e)) ->
      proc e w
      = (Returns {| tbl_schema := schema; tbl_rows := [] |},
         {| w_store := w_store w;
            w_trace := (w_trace w ++ [LoadState name])%list |}))
  /\
  (forall e1 e2 w t w1,
      proc e1 w = (Returns t, w1) ->
      period (now e2) = period (now e1) ->
      proc e2 w1
      = (Returns {| tbl_schema := schema; tbl_rows := [] |},
         {| w_store := w_store w1;
            w_trace := (w_trace w1 ++ [LoadState name])%list |})).

Lemma gate_idempotent_of_shape {R} (proc : M (table R)) schema name period work :
  gated_shape proc schema name period work ->
  gate_idempotent proc schema name period.
Proof.
  intros Hs; split.
  - intros e w H. now apply (closed_run _ _ _ _ _ Hs).
  - intros e1 e2 w t w1 H1 Hp. now apply (second_run _ _ _ _ _ Hs e1 e2 w t).
Qed.

(** C3. For each of the three processors, when the persisted
    [last_update] equals the current period string (the day string for the
    anomaly processor, the month string for the regional-trend and the
    precipitation processors) the invocation returns an empty table that
    carries the declared schema, fetches nothing and writes no state; so a
    second invocation in the same period after one that returned yields an
    empty table. *)
Theorem gate_returns_empty_table :
  gate_idempotent
    GlobalTemperatureAnomalies.process_global_temperature_anomalies
    GlobalTemperatureAnomalies.schema
    "global_temperature_anomalies" strftime_Ymd
  /\ gate_idempotent
       RegionalClimateData.process_regional_climate_data
       RegionalClimateData.schema
       "regional_climate_data" strftime_Ym
  /\ gate_idempotent
       PrecipitationData.process_precipitation_data
       PrecipitationData.schema
       "precipitation_data" strftime_Ym.
Proof.
  repeat split.
  1,2: apply (gate_idempotent_of_shape _ _ _ _ _ global_shape).
  1,2: apply (gate_idempotent_of_shape _ _ _ _ _ regional_shape).
  1,2: apply (gate_idempotent_of_shape _ _ _ _ _ precip_shape).
Qed.

Lemma gate_returns_empty_table_witness :
  last_update (store_get (w_store updated_world) "global_temperature_anomalies")
  = Some (strftime_Ymd (now sample_env))
  /\ GlobalTemperatureAnomalies.process_global_temperature_anomalies
       sample_env updated_world
     = (Returns {| tbl_schema := GlobalTemperatureAnomalies.schema;
                   tbl_rows := [] |},
        {| w_store := w_store updated_world;
           w_trace := [LoadState "global_temperature_anomalies"] |}).
Proof.
  split; [reflexivity|].
  apply (proj1 (proj1 gate_returns_empty_table) sample_env updated_world).
  reflexivity.
Defined.

(** The state-store protocol of a processor:
    - behind a closed gate the state is read, and nothing else happens;
    - an invocation past the gate that returns a table has read the state
      first, then only fetched, and written the state last;
    - an invocation that raises has read the state, fetched, and not
      written. *)
Definition store_protocol {R} (proc : M (table R)) (name : string)
           (period : datetime -> string) : Prop :=
  forall e w r w',
    proc e w = (r, w') ->
    (last_update (store_get (w_store w) name) = Some (period (now e)) ->
     w_trace w' = (w_trace w ++ [LoadState name])%list
     /\ w_store w' = w_store w)
    /\
    (last_update (store_get (w_store w) name) <> Some (period (now e)) ->
     forall t, r = Returns t ->
     exists gets st,
       w_trace w'
       = (w_trace w ++ LoadState name :: gets ++ [SaveState name st])%list
       /\ Forall is_get gets
       /\ w_store w' = store_set (w_store w) name st)
    /\
    (forall ex, r = Raises ex ->
     exists gets,
       w_trace w' = (w_trace w ++ LoadState name :: gets)%list
       /\ Forall is_get gets
       /\ w_store w' = w_store w).

Lemma store_protocol_of_shape {R} (proc : M (table R)) schema name period work :
  gated_shape proc schema name period work ->
  (forall e, Forall is_get (snd (work e))) ->
  store_protocol proc name period.
Proof.
  intros Hs Hg e w r w' Hrun. repeat split.
  - rewrite (closed_run _ _ _ _ _ Hs e w H) in Hrun. now inversion Hrun.
  - rewrite (closed_run _ _ _ _ _ Hs e w H) in Hrun. now inversion Hrun.
  - intros Hopen t ->.
    destruct (open_run_returns _ _ _ _ _ Hs Hg e w t w' Hopen Hrun)
      as (gets & st & Ht & Hgets & Hst & _).
    now exists gets, st.
  - intros ex ->.
    apply (open_run_raises _ _ _ _ _ Hs Hg e w ex w' Hrun).
Qed.




(* ================================================================== *)
(** ** The enumerators of the two global processors *)
(* ================================================================== *)

(** Region labels of the continents, and their codes. *)
Definition continental (region_name : string) : Prop :=
  In region_name ["Europe"; "Asia"; "Africa"].

(** A fetch of the ocean series of a continent. *)
Definition ocean_fetch (ev : event) : Prop :=
  exists rc start_year current_year,
    In rc ["europe"; "asia"; "africa"]
    /\ ev = Get (global_url rc "ocean" start_year current_year).

(** A fetch made for a combination of the tables that the skip rule lets
    through is no ocean fetch of a continent. *)
Lemma enumerated_fetch_allowed (r s : string * string) (start_year current_year : Z) :
  In r regions -> In s surface_types -> skipped (fst r) (fst s) = false ->
  ~ ocean_fetch (Get (global_url (fst r) (fst s) start_year current_year)).
Proof.
  intros Hr Hs Hk (rc & a & b & Hrc & Heq).
  injection Heq as Heq.
  simpl in Hr, Hs, Hrc.
  repeat match goal with
         | H : _ \/ _ |- _ => destruct H as [H|H]
         | H : False |- _ => destruct H
         end; subst; simpl in Hk; try discriminate Hk; simpl in Heq;
    inversion Heq.
Qed.

Definition labelled {R} (region_of surface_of : R -> string)
           (rn sn : string) (r : R) : Prop :=
  region_of r = rn /\ surface_of r = sn.

(** A record carrying the labels of a combination that the skip rule lets
    through is no ocean record of a continent. *)
Lemma enumerated_labels_allowed (r s : string * string) :
  In r regions -> In s surface_types -> skipped (fst r) (fst s) = false ->
  continental (snd r) -> snd s <> "Ocean".
Proof.
  intros Hr Hs Hk Hc. unfold continental in Hc.
  simpl in Hr, Hs, Hc.
  repeat match goal with
         | H : _ \/ _ |- _ => destruct H as [H|H]
         | H : False |- _ => destruct H
         end; subst; simpl in *; try discriminate.
Qed.

Lemma global_yearly_labels e ts rn sn base ttl item :
  Forall (labelled GlobalTemperatureAnomalies.region
                   GlobalTemperatureAnomalies.surface_type rn sn)
         (rows_of (step_of e (GlobalTemperatureAnomalies.yearly_body
                                rn sn base ttl ts) item)).
Proof.
  destruct item as [k v].
  unfold rows_of, step_of, GlobalTemperatureAnomalies.yearly_body.
  destruct (member_get (anomaly v)); [destruct (int k)|]; simpl;
    repeat constructor.
Qed.

Lemma fetch_step_rows {R} (P : R -> Prop) e url (k : payload -> outcome (list R)) :
  (forall p, Forall P (rows_of (k p, @nil event))) ->
  Forall P (rows_of (fetch_step e url k)).
Proof.
  intros H. unfold fetch_step, rows_of; simpl.
  destruct (fetch_result _) as [[p|]|ex]; try constructor.
  apply (H p).
Qed.

Lemma global_combination_labels e ts rc rn s :
  Forall (labelled GlobalTemperatureAnomalies.region
                   GlobalTemperatureAnomalies.surface_type rn (snd s))
         (rows_of (GlobalFacts.combination_step e ts rc rn s)).
Proof.
  unfold GlobalFacts.combination_step.
  destruct (skipped rc (fst s)); [constructor|].
  apply fetch_step_rows; intros p.
  unfold GlobalFacts.payload_rows.
  change (rows_of (fst ?x, [])) with (rows_of x).
  apply run_all_rows; intros item _. apply global_yearly_labels.
Qed.

Lemma regional_combination_labels e ts rc rn s :
  Forall (labelled RegionalClimateData.region
                   RegionalClimateData.surface_type rn (snd s))
         (rows_of (RegionalFacts.combination_step e ts rc rn s)).
Proof.
  unfold RegionalFacts.combination_step.
  destruct (skipped rc (fst s)); [constructor|].
  apply run_all_rows; intros period _.
  apply fetch_step_rows; intros p.
  unfold RegionalFacts.summary_rows, rows_of; simpl.
  destruct (RegionalClimateData.calculate_trend_statistics (get_data p))
    as [[st|]|ex]; repeat constructor.
Qed.

(** What the skip rule guarantees of an enumeration: its rows and its
    fetches. *)
Definition exclusion {R} (region_of surface_of : R -> string)
           (work : step R) : Prop :=
  Forall (fun r => continental (region_of r) -> surface_of r <> "Ocean")
         (rows_of work)
  /\ Forall (fun ev => ~ ocean_fetch ev) (snd work).

Lemma combination_rows_allowed {R} (region_of surface_of : R -> string)
      (r s : string * string) (rows : list R) :
  In r regions -> In s surface_types ->
  (skipped (fst r) (fst s) = true -> rows = []) ->
  Forall (labelled region_of surface_of (snd r) (snd s)) rows ->
  Forall (fun x => continental (region_of x) -> surface_of x <> "Ocean") rows.
Proof.
  intros Hr Hs Hk Hl.
  destruct (skipped (fst r) (fst s)) eqn:Hskip.
  - rewrite (Hk eq_refl). constructor.
  - eapply Forall_impl; [|exact Hl].
    intros x [Hx1 Hx2] Hc. rewrite Hx1 in Hc. rewrite Hx2.
    now apply (enumerated_labels_allowed r s).
Qed.

Lemma global_exclusion e :
  exclusion GlobalTemperatureAnomalies.region
            GlobalTemperatureAnomalies.surface_type
            (GlobalFacts.enumeration e).
Proof.
  split.
  - apply run_all_rows; intros r Hr.
    apply run_all_rows; intros s Hs.
    apply (combination_rows_allowed _ _ r s); auto.
    + intros Hk. unfold GlobalFacts.combination_step. now rewrite Hk.
    + apply global_combination_labels.
  - apply run_all_trace; intros r Hr.
    apply run_all_trace; intros s Hs.
    unfold GlobalFacts.combination_step.
    destruct (skipped (fst r) (fst s)) eqn:Hk; [constructor|].
    unfold fetch_step; simpl. constructor; [|constructor].
    now apply enumerated_fetch_allowed.
Qed.

Lemma regional_exclusion e :
  exclusion RegionalClimateData.region
            RegionalClimateData.surface_type
            (RegionalFacts.enumeration e).
Proof.
  split.
  - apply run_all_rows; intros r Hr.
    apply run_all_rows; intros s Hs.
    apply (combination_rows_allowed _ _ r s); auto.
    + intros Hk. unfold RegionalFacts.combination_step. now rewrite Hk.
    + apply regional_combination_labels.
  - apply run_all_trace; intros r Hr.
    apply run_all_trace; intros s Hs.
    unfold RegionalFacts.combination_step.
    destruct (skipped (fst r) (fst s)) eqn:Hk; [constructor|].
    apply run_all_trace; intros period _.
    unfold RegionalFacts.period_step, fetch_step; simpl.
    constructor; [|constructor].
    now apply enumerated_fetch_allowed.
Qed.

(** The exclusion carried over to an invocation of the processor. *)
Definition never_continental_ocean {R} (proc : M (table R))
           (region_of surface_of : R -> string) : Prop :=
  forall e w r w',
    proc e w = (r, w') ->
    (exists tr,
        w_trace w' = (w_trace w ++ tr)%list
        /\ Forall (fun ev => ~ ocean_fetch ev) tr)
    /\ forall t,
        r = Returns t ->
        Forall (fun x => continental (region_of x) -> surface_of x <> "Ocean")
               (tbl_rows t).

Lemma exclusion_of_shape {R} (proc : M (table R)) schema name period work
      (region_of surface_of : R -> string) :
  gated_shape proc schema name period work ->
  (forall e, exclusion region_of surface_of (work e)) ->
  never_continental_ocean proc region_of surface_of.
Proof.
  intros Hs Hx e w r w'. rewrite Hs.
  destruct (option_string_eqb _ _).
  - intros H; inversion H; subst; clear H. split.
    + exists [LoadState name]. split; [reflexivity|].
      constructor; [|constructor]. intros (? & ? & ? & _ & ?); discriminate.
    + intros t Ht; inversion Ht; subst. constructor.
  - destruct (Hx e) as [Hrows Htr]. unfold rows_of in Hrows.
    destruct (work e) as [[rows|ex] tr]; simpl in *;
      intros H; inversion H; subst; clear H; split.
    + eexists; split; [reflexivity|].
      constructor; [intros (? & ? & ? & _ & ?); discriminate|].
      apply Forall_app; split; [exact Htr|].
      constructor; [|constructor]. intros (? & ? & ? & _ & ?); discriminate.
    + intros t Ht; inversion Ht; subst. exact Hrows.
    + eexists; split; [reflexivity|].
      constructor; [intros (? & ? & ? & _ & ?); discriminate|exact Htr].
    + intros t Ht; discriminate.
Qed.

(** C7. No table of the anomaly processor or of the regional-trend
    processor has a record whose region is Europe, Asia or Africa and whose
    surface type is "Ocean"; and no invocation fetches the ocean series of
    one of these regions: the combination is skipped before the remote
    call. *)
Theorem continental_ocean_excluded :
  never_continental_ocean
    GlobalTemperatureAnomalies.process_global_temperature_anomalies
    GlobalTemperatureAnomalies.region
    GlobalTemperatureAnomalies.surface_type
  /\ never_continental_ocean
       RegionalClimateData.process_regional_climate_data
       RegionalClimateData.region
       RegionalClimateData.surface_type.
Proof.
  split.
  - apply (exclusion_of_shape _ _ _ _ _ _ _ global_shape global_exclusion).
  - apply (exclusion_of_shape _ _ _ _ _ _ _ regional_shape regional_exclusion).
Qed.

(** A remote service that has the same four-year series under every URL,
    and the surroundings built on it. *)
Definition num (n : Z) (d : positive) : member := Num (Qred (n # d)).

Definition four_years : series :=
  [ ("2000", {| value := Absent; anomaly := num 1 10 |});
    ("2001", {| value := Absent; anomaly := num 2 10 |});
    ("2002", {| value := Absent; anomaly := num 5 10 |});
    ("2003", {| value := Absent; anomaly := num 6 10 |}) ].

Definition four_years_payload : payload :=
  {| p_description :=
       Some {| title := Some "Temperature Anomalies";
               base_period := Some "1901-2000" |};
     p_data := Some four_years |}.

Definition always_four_years (url : string) : response :=
  {| status_code := 200; json := four_years_payload |}.

Definition data_env : env := {| now := sample_now; remote := always_four_years |}.

Lemma continental_ocean_excluded_witness :
  exists t w',
    GlobalTemperatureAnomalies.process_global_temperature_anomalies
      data_env empty_world = (Returns t, w')
    /\ num_rows t = 60
    /\ Forall (fun x => continental (GlobalTemperatureAnomalies.region x) ->
                        GlobalTemperatureAnomalies.surface_type x <> "Ocean")
              (tbl_rows t).
Proof.
  eexists; eexists. split; [vm_compute; reflexivity|].
  split; [reflexivity|].
  apply (proj2 (proj1 continental_ocean_excluded data_env empty_world _ _ eq_refl)
               _ eq_refl).
Defined.

(* ================================================================== *)
(** ** Not-found and failed fetches in the anomaly processor *)
(* ================================================================== *)

Lemma fetch_result_not_found (r : response) :
  status_code r = 404 -> fetch_result r = Returns None.
Proof. intros H. unfold fetch_result. now rewrite H. Qed.

Lemma fetch_result_success (r : response) :
  is_success (status_code r) = true -> fetch_result r = Returns (Some (json r)).
Proof.
  intros H. unfold fetch_result. rewrite H.
  unfold is_success in H. apply andb_true_iff in H as [_ H].
  destruct (status_code r =? 404) eqn:E; [|reflexivity].
  apply Z.eqb_eq in E. rewrite E in H. discriminate.
Qed.

Lemma fetch_result_failure (r : response) :
  status_code r <> 404 -> is_success (status_code r) = false ->
  fetch_result r = Raises (HTTPStatusError (status_code r)).
Proof.
  intros H4 Hs. unfold fetch_result. rewrite Hs.
  apply Z.eqb_neq in H4. now rewrite H4.
Qed.

(** The year keys that the anomaly processor converts: those of the
    entries with a non-null anomaly. *)
Definition converted_keys_parse (d : series) : Prop :=
  forall k v, In (k, v) d -> member_get (anomaly v) <> None -> int k <> None.

Lemma global_payload_rows_total e ts rn sn p :
  converted_keys_parse (get_data p) ->
  exists rows, GlobalFacts.payload_rows e ts rn sn p = Returns rows.
Proof.
  intros H. unfold GlobalFacts.payload_rows.
  erewrite run_all_returns; [eexists; reflexivity|].
  intros [k v] Hin. rewrite GlobalFacts.yearly_step; simpl.
  unfold GlobalFacts.yearly_rows, rows_of, step_of,
    GlobalTemperatureAnomalies.yearly_body.
  specialize (H k v Hin).
  instantiate (1 := fun item =>
    rows_of (step_of e (GlobalTemperatureAnomalies.yearly_body rn sn
               (get_base_period (get_description p))
               (get_title (get_description p)) ts) item)).
  unfold rows_of, step_of, GlobalTemperatureAnomalies.yearly_body.
  destruct (member_get (anomaly v)); [|reflexivity].
  destruct (int k); [reflexivity|]. exfalso. apply H; [discriminate|reflexivity].
Qed.

Section AnomalyRun.
Variable e : env.

Definition combination_url (r s : string * string) : string :=
  global_url (fst r) (fst s) 1850 (dt_year (now e)).

(** A combination of the enumeration is fine when its response is a
    not-found, or a success whose converted year keys parse. *)
Definition combination_fine (r s : string * string) : Prop :=
  let resp := remote e (combination_url r s) in
  status_code resp = 404
  \/ (is_success (status_code resp) = true
      /\ converted_keys_parse (get_data (json resp))).

(** A combination fails when its response is neither a not-found nor a
    success. *)
Definition combination_failed (r s : string * string) : Prop :=
  let resp := remote e (combination_url r s) in
  status_code resp <> 404 /\ is_success (status_code resp) = false.

(** The records of one combination: none when it is skipped or not
    found. *)
Definition emitted (r s : string * string) : list GlobalTemperatureAnomalies.record :=
  if skipped (fst r) (fst s) then []
  else
    let resp := remote e (combination_url r s) in
    if status_code resp =? 404 then []
    else rows_of (GlobalFacts.payload_rows e (now e) (snd r) (snd s) (json resp),
                  @nil event).

Lemma combination_step_fine r s :
  (skipped (fst r) (fst s) = false -> combination_fine r s) ->
  fst (GlobalFacts.combination_step e (now e) (fst r) (snd r) s)
  = Returns (emitted r s).
Proof.
  intros H. unfold GlobalFacts.combination_step, emitted.
  destruct (skipped (fst r) (fst s)); [reflexivity|].
  unfold fetch_step; simpl. fold (combination_url r s).
  destruct (H eq_refl) as [H4|[Hs Hk]].
  - rewrite (fetch_result_not_found _ H4), H4. reflexivity.
  - rewrite (fetch_result_success _ Hs).
    destruct (status_code _ =? 404) eqn:E.
    + apply Z.eqb_eq in E. unfold is_success in Hs. rewrite E in Hs. discriminate.
    + destruct (global_payload_rows_total e (now e) (snd r) (snd s) _ Hk)
        as [rows Hrows].
      unfold rows_of; simpl. now rewrite Hrows.
Qed.

Lemma combination_step_failed r s :
  skipped (fst r) (fst s) = false -> combination_failed r s ->
  exists ex,
    fst (GlobalFacts.combination_step e (now e) (fst r) (snd r) s) = Raises ex.
Proof.
  intros Hk [H4 Hs]. unfold GlobalFacts.combination_step. rewrite Hk.
  unfold fetch_step; simpl. fold (combination_url r s).
  rewrite (fetch_result_failure _ H4 Hs). eexists; reflexivity.
Qed.

Lemma enumeration_fine :
  (forall r s, In r regions -> In s surface_types ->
               skipped (fst r) (fst s) = false -> combination_fine r s) ->
  fst (GlobalFacts.enumeration e)
  = Returns (flat_map (fun r => flat_map (emitted r) surface_types) regions).
Proof.
  intros H. unfold GlobalFacts.enumeration.
  erewrite run_all_returns; [reflexivity|].
  intros r Hr. unfold GlobalFacts.region_step.
  erewrite run_all_returns; [reflexivity|].
  intros s Hs. apply combination_step_fine. now apply H.
Qed.

Lemma enumeration_failed r s :
  In r regions -> In s surface_types ->
  skipped (fst r) (fst s) = false -> combination_failed r s ->
  exists ex, fst (GlobalFacts.enumeration e) = Raises ex.
Proof.
  intros Hr Hs Hk Hf. unfold GlobalFacts.enumeration.
  apply (run_all_raises _ _ r Hr). unfold GlobalFacts.region_step.
  apply (run_all_raises _ _ s Hs). now apply combination_step_failed.
Qed.
End AnomalyRun.

Definition gate_open (e : env) (w : world) (name : string)
           (period : datetime -> string) : Prop :=
  last_update (store_get (w_store w) name) <> Some (period (now e)).

Lemma gate_open_eqb e w name period :
  gate_open e w name period ->
  option_string_eqb (last_update (store_get (w_store w) name)) (period (now e))
  = false.
Proof.
  intros H. destruct (option_string_eqb _ _) eqn:E; [|reflexivity].
  apply option_string_eqb_true in E. contradiction.
Qed.

Lemma anomaly_run_fine e w :
  gate_open e w "global_temperature_anomalies" strftime_Ymd ->
  (forall r s, In r regions -> In s surface_types ->
               skipped (fst r) (fst s) = false -> combination_fine e r s) ->
  exists w',
    GlobalTemperatureAnomalies.process_global_temperature_anomalies e w
    = (Returns {| tbl_schema := GlobalTemperatureAnomalies.schema;
                  tbl_rows := flat_map (fun r => flat_map (emitted e r) surface_types)
                                       regions |}, w').
Proof.
  intros Hg H. rewrite GlobalFacts.global_process_run.
  unfold GlobalFacts.gate_closed, GlobalFacts.NAME.
  rewrite (gate_open_eqb _ _ _ _ Hg).
  pose proof (enumeration_fine e H) as Hen.
  destruct (GlobalFacts.enumeration e) as [r tr]; simpl in Hen; subst r.
  eexists; reflexivity.
Qed.

Lemma anomaly_run_failed e w r s :
  gate_open e w "global_temperature_anomalies" strftime_Ymd ->
  In r regions -> In s surface_types ->
  skipped (fst r) (fst s) = false -> combination_failed e r s ->
  exists ex w',
    GlobalTemperatureAnomalies.process_global_temperature_anomalies e w
    = (Raises ex, w')
    /\ w_store w' = w_store w.
Proof.
  intros Hg Hr Hs Hk Hf. rewrite GlobalFacts.global_process_run.
  unfold GlobalFacts.gate_closed, GlobalFacts.NAME.
  rewrite (gate_open_eqb _ _ _ _ Hg).
  destruct (enumeration_failed e r s Hr Hs Hk Hf) as [ex Hex].
  destruct (GlobalFacts.enumeration e) as [o tr]; simpl in Hex; subst o.
  eexists; eexists; split; reflexivity.
Qed.


(** A remote service without the land series of the northern hemisphere. *)
Definition nhem_land_missing (url : string) : response :=
  if String.eqb url (global_url "nhem" "land" 1850 2024) then not_found url
  else always_four_years url.

Definition nhem_land_missing_env : env :=
  {| now := sample_now; remote := nhem_land_missing |}.

Lemma four_years_parse : converted_keys_parse four_years.
Proof.
  intros k v Hin _. simpl in Hin.
  repeat match goal with
         | H : _ \/ _ |- _ => destruct H as [H|H]
         | H : False |- _ => destruct H
         | H : (_, _) = (_, _) |- _ => inversion H; subst; clear H
         end; vm_compute; discriminate.
Qed.


(* ================================================================== *)
(** ** Year keys: decimal strings of one width *)
(* ================================================================== *)

Definition is_digit (c : ascii) : Prop := digit_of c <> None.

Definition digit (c : ascii) : Z := Z.of_N (N_of_ascii c) - 48.

(** A year key of width [n]: [n] decimal digits, as "1850" or "2024". *)
Definition year_key (n : nat) (k : string) : Prop :=
  String.length k = n /\ Forall is_digit (list_ascii_of_string k).

(** The number a digit string denotes, most significant digit first. *)
Fixpoint digits_value (l : list ascii) (acc : Z) : Z :=
  match l with
  | [] => acc
  | c :: l' => digits_value l' (10 * acc + digit c)
  end.

Definition year_of (k : string) : Z := digits_value (list_ascii_of_string k) 0.

Lemma is_digit_range (c : ascii) :
  is_digit c -> digit_of c = Some (digit c) /\ 0 <= digit c <= 9.
Proof.
  unfold is_digit, digit_of, digit; intros H.
  destruct ((48 <=? Z.of_N (N_of_ascii c)) && (Z.of_N (N_of_ascii c) <=? 57)) eqn:E;
    [|congruence].
  apply andb_true_iff in E as [E1 E2].
  apply Z.leb_le in E1, E2. split; [reflexivity|lia].
Qed.

Lemma is_digit_not_space (c : ascii) : is_digit c -> is_space c = false.
Proof.
  intros H. unfold is_digit, digit_of in H. unfold is_space.
  destruct ((48 <=? Z.of_N (N_of_ascii c)) && (Z.of_N (N_of_ascii c) <=? 57)) eqn:E;
    [|congruence].
  apply andb_true_iff in E as [E1 E2]. apply Z.leb_le in E1, E2.
  repeat rewrite orb_false_iff. repeat split.
  - apply Z.eqb_neq; lia.
  - apply andb_false_iff; right. apply Z.leb_gt; lia.
  - apply andb_false_iff; right. apply Z.leb_gt; lia.
Qed.

Lemma is_digit_not_sign (c : ascii) :
  is_digit c -> Ascii.eqb c "+" = false /\ Ascii.eqb c "-" = false.
Proof.
  intros H. split; apply Ascii.eqb_neq; intros ->; apply H; reflexivity.
Qed.

Lemma lstrip_digit (l : list ascii) :
  match l with c :: _ => is_digit c | [] => True end -> lstrip l = l.
Proof.
  destruct l as [|c l]; [reflexivity|]; intros H; simpl.
  now rewrite (is_digit_not_space c H).
Qed.

Lemma strip_digits (l : list ascii) : Forall is_digit l -> strip l = l.
Proof.
  intros H. unfold strip.
  rewrite (lstrip_digit l) by (destruct H; auto).
  rewrite (lstrip_digit (rev l)).
  - apply rev_involutive.
  - apply Forall_rev in H. destruct H; auto.
Qed.

Lemma parse_digits_value (l : list ascii) (acc : Z) (prev : bool) :
  Forall is_digit l -> (l <> [] \/ prev = true) ->
  parse_digits l acc prev = Some (digits_value l acc).
Proof.
  revert acc prev; induction l as [|c l IH]; intros acc prev Hd Hne; simpl.
  - destruct Hne as [Hne| ->]; [congruence|reflexivity].
  - inversion Hd as [|? ? Hc Hl]; subst.
    destruct (is_digit_range c Hc) as [-> _].
    apply IH; auto.
Qed.

(** [int] reads a year key as the number it denotes. *)
Lemma int_year_key (n : nat) (k : string) :
  (0 < n)%nat -> year_key n k -> int k = Some (year_of k).
Proof.
  intros Hn [Hlen Hd]. unfold int, year_of.
  rewrite (strip_digits _ Hd).
  destruct k as [|c k]; simpl in *; [lia|].
  inversion Hd as [|? ? Hc Hl]; subst.
  destruct (is_digit_not_sign c Hc) as [-> ->].
  destruct (is_digit_range c Hc) as [-> _].
  apply parse_digits_value; auto.
Qed.

Lemma digits_value_split (l : list ascii) (acc : Z) :
  digits_value l acc = acc * 10 ^ Z.of_nat (List.length l) + digits_value l 0.
Proof.
  revert acc; induction l as [|c l IH]; intros acc.
  - simpl. lia.
  - cbn [digits_value List.length].
    rewrite (IH (10 * acc + digit c)), (IH (10 * 0 + digit c)).
    rewrite Nat2Z.inj_succ, Z.pow_succ_r by lia. ring.
Qed.

Lemma digits_value_bound (l : list ascii) :
  Forall is_digit l -> 0 <= digits_value l 0 < 10 ^ Z.of_nat (List.length l).
Proof.
  induction l as [|c l IH]; intros Hd.
  - simpl. lia.
  - inversion Hd as [|? ? Hc Hl]; subst.
    cbn [digits_value List.length].
    rewrite digits_value_split, Nat2Z.inj_succ, Z.pow_succ_r by lia.
    destruct (is_digit_range c Hc) as [_ Hr]. specialize (IH Hl).
    nia.
Qed.

Lemma list_ascii_length (s : string) :
  List.length (list_ascii_of_string s) = String.length s.
Proof. induction s; simpl; congruence. Qed.

(** On digit strings of one width the string order is the numeric
    order. *)
Lemma compare_digits (s t : string) (acc : Z) :
  String.length s = String.length t ->
  Forall is_digit (list_ascii_of_string s) ->
  Forall is_digit (list_ascii_of_string t) ->
  String.compare s t
  = Z.compare (digits_value (list_ascii_of_string s) acc)
              (digits_value (list_ascii_of_string t) acc).
Proof.
  revert t acc; induction s as [|c s IH]; intros [|c' t] acc Hlen Hs Ht;
    simpl in Hlen; try discriminate.
  - simpl. now rewrite Z.compare_refl.
  - cbn [list_ascii_of_string] in *.
    inversion Hs as [|? ? Hc Hs']; inversion Ht as [|? ? Hc' Ht']; subst.
    cbn [String.compare digits_value].
    destruct (is_digit_range c Hc) as [_ Hr], (is_digit_range c' Hc') as [_ Hr'].
    pose proof (digits_value_bound _ Hs') as Bs.
    pose proof (digits_value_bound _ Ht') as Bt.
    assert (Hl : List.length (list_ascii_of_string s)
                 = List.length (list_ascii_of_string t))
      by (rewrite !list_ascii_length; lia).
    rewrite Hl in Bs.
    unfold Ascii.compare.
    destruct (N.compare_spec (N_of_ascii c) (N_of_ascii c')) as [E|E|E].
    + assert (c = c') by (rewrite <- (ascii_N_embedding c),
                           <- (ascii_N_embedding c'); now rewrite E).
      subst c'. apply IH; auto.
    + symmetry. apply Z.compare_lt_iff.
      rewrite (digits_value_split _ (10 * acc + digit c)),
              (digits_value_split _ (10 * acc + digit c')), Hl.
      unfold digit in *. nia.
    + symmetry. apply Z.compare_gt_iff.
      rewrite (digits_value_split _ (10 * acc + digit c)),
              (digits_value_split _ (10 * acc + digit c')), Hl.
      unfold digit in *. nia.
Qed.

Lemma year_key_leb (n : nat) (s t : string) :
  year_key n s -> year_key n t ->
  (String.leb s t = true <-> year_of s <= year_of t).
Proof.
  intros [Ls Ds] [Lt Dt]. unfold String.leb, year_of.
  rewrite (compare_digits s t 0) by (auto; congruence).
  destruct (Z.compare_spec (digits_value (list_ascii_of_string s) 0)
                           (digits_value (list_ascii_of_string t) 0));
    split; intros; try reflexivity; try lia; discriminate.
Qed.

Lemma year_of_inj (n : nat) (s t : string) :
  year_key n s -> year_key n t -> year_of s = year_of t -> s = t.
Proof.
  intros [Ls Ds] [Lt Dt] H. apply String.compare_eq_iff.
  rewrite (compare_digits s t 0) by (auto; congruence).
  apply Z.compare_eq_iff. exact H.
Qed.

Lemma sorted_permutation (l : list string) : Permutation l (sorted l).
Proof. apply StrSort.Permuted_sort. Qed.

Lemma sorted_in (l : list string) (k : string) : In k (sorted l) <-> In k l.
Proof.
  split; apply Permutation_in;
    [apply Permutation_sym|]; apply sorted_permutation.
Qed.

Lemma leb_sorted_chronological (n : nat) (l : list string) :
  Sorted (fun s t => is_true (String.leb s t)) l ->
  Forall (year_key n) l -> NoDup l ->
  StronglySorted (fun s t => year_of s < year_of t) l.
Proof.
  induction l as [|a l IH]; intros Hs Hk Hn; [constructor|].
  apply Sorted_inv in Hs as [Hs Hh].
  inversion Hk as [|? ? Ka Kl]; inversion Hn as [|? ? Na Nl]; subst.
  specialize (IH Hs Kl Nl).
  constructor; [exact IH|].
  destruct l as [|b l]; [constructor|].
  apply HdRel_inv in Hh.
  inversion Kl as [|? ? Kb _]; subst.
  assert (Hab : year_of a < year_of b).
  { apply (year_key_leb n a b Ka Kb) in Hh.
    assert (year_of a <> year_of b).
    { intros E. apply (year_of_inj n a b Ka Kb) in E. subst. apply Na. now left. }
    lia. }
  constructor; [exact Hab|].
  apply StronglySorted_inv in IH as [_ IH].
  eapply Forall_impl; [|exact IH]. simpl. intros; lia.
Qed.

(** [sorted] puts year keys of one width in chronological order. *)
Lemma sorted_chronological (n : nat) (l : list string) :
  Forall (year_key n) l -> NoDup l ->
  StronglySorted (fun s t => year_of s < year_of t) (sorted l).
Proof.
  intros Hk Hn. apply (leb_sorted_chronological n).
  - apply StrSort.Sorted_sort.
  - eapply Permutation_Forall; [apply sorted_permutation|exact Hk].
  - eapply Permutation_NoDup; [apply sorted_permutation|exact Hn].
Qed.

Lemma StronglySorted_map {A B} (f : A -> B) (R : B -> B -> Prop) (l : list A) :
  StronglySorted R (map f l) -> StronglySorted (fun a b => R (f a) (f b)) l.
Proof.
  induction l as [|a l IH]; simpl; intros H; [constructor|].
  apply StronglySorted_inv in H as [H1 H2].
  constructor; [auto|].
  rewrite Forall_map in H2. exact H2.
Qed.

Lemma last_in {A} (l : list A) (d : A) : l <> [] -> In (last l d) l.
Proof.
  induction l as [|a l IH]; [congruence|]; intros _.
  destruct l as [|b l]; [now left|].
  right. apply IH. discriminate.
Qed.

Lemma half_len {A} (a : list A) :
  Z.to_nat (len a / 2) = (List.length a / 2)%nat.
Proof.
  unfold len. change 2 with (Z.of_nat 2).
  now rewrite <- Nat2Z.inj_div, Nat2Z.id.
Qed.

(** *** The series seen through its sorted keys *)

Definition no_entry : entry := {| value := Absent; anomaly := Absent |}.

(** [(year, yearly_data[year])]. *)
Definition item_of (d : series) (k : string) : string * entry :=
  (k, match lookup d k with Some v => v | None => no_entry end).

Lemma lookup_in (d : series) (k : string) :
  In k (keys d) -> exists v, lookup d k = Some v /\ In (k, v) d.
Proof.
  induction d as [|[k' v'] d IH]; simpl; [contradiction|].
  intros Hin. destruct (String.eqb_spec k' k) as [->|Hne].
  - exists v'. split; [reflexivity|now left].
  - destruct Hin as [Heq|Hin]; [contradiction|].
    destruct (IH Hin) as [v [Hv Hi]]. exists v. split; [exact Hv|now right].
Qed.

Lemma items_of_keys (d : series) :
  well_formed d -> map (item_of d) (keys d) = d.
Proof.
  unfold well_formed. induction d as [|[k v] d IH]; simpl; intros Hn;
    [reflexivity|].
  inversion Hn as [|? ? Hk Hd]; subst.
  unfold item_of at 1; simpl. rewrite String.eqb_refl. f_equal.
  transitivity (map (item_of d) (keys d)); [|exact (IH Hd)].
  apply map_ext_in. intros k' Hk'. unfold item_of; simpl.
  destruct (String.eqb_spec k k') as [->|_]; [contradiction|reflexivity].
Qed.

Lemma sorted_items_permutation (d : series) :
  well_formed d -> Permutation (map (item_of d) (sorted (keys d))) d.
Proof.
  intros Hw. rewrite <- (items_of_keys d Hw) at 3.
  apply Permutation_map, Permutation_sym, sorted_permutation.
Qed.

(** The anomaly of an entry as the calculator reads it, when it is not
    [null]: the number, or [0] for a missing key. *)
Definition anomaly_value (v : entry) : Q :=
  match anomaly v with
  | Num x => x
  | _ => 0%Q
  end.

Definition no_null (d : series) : Prop :=
  Forall (fun it => anomaly (snd it) <> Null) d.

Lemma anomalies_numbers (d : series) (ks : list string) :
  no_null d -> (forall k, In k ks -> In k (keys d)) ->
  RegionalClimateData.numbers (RegionalClimateData.anomalies_of d ks)
  = Some (map (fun k => anomaly_value (snd (item_of d k))) ks).
Proof.
  intros Hn. induction ks as [|k ks IH]; intros Hk; [reflexivity|].
  cbn [RegionalClimateData.anomalies_of map RegionalClimateData.numbers].
  destruct (lookup_in d k (Hk k (or_introl eq_refl))) as [v [Hv Hi]].
  unfold item_of at 1. rewrite Hv. cbn [snd].
  unfold no_null in Hn. rewrite Forall_forall in Hn.
  specialize (Hn _ Hi). cbn [snd] in Hn.
  fold (RegionalClimateData.anomalies_of d ks).
  rewrite IH by (intros; apply Hk; now right).
  unfold RegionalClimateData.anomaly_or_zero, anomaly_value.
  destruct (anomaly v); [reflexivity|congruence|reflexivity].
Qed.

(** The statistics the calculator returns on a list of anomalies whose
    latest year is [y]. *)
Definition stats_of (a : list Q) (y : Z) : RegionalClimateData.stats :=
  let n := len a in
  let first_half_avg := (sum (slice_to a (n / 2)) / inject_Z (n / 2))%Q in
  let second_half_avg := (sum (slice_from a (n / 2)) / inject_Z (n - n / 2))%Q in
  {| RegionalClimateData.avg_anomaly := round (sum a / inject_Z n) 3;
     RegionalClimateData.min_anomaly := round (min a) 3;
     RegionalClimateData.max_anomaly := round (max a) 3;
     RegionalClimateData.trend_direction :=
       if 2 <=? n
       then if Qltb first_half_avg second_half_avg then "warming" else "cooling"
       else "stable";
     RegionalClimateData.trend_magnitude :=
       round (if 2 <=? n then Qabs (second_half_avg - first_half_avg) else 0%Q) 3;
     RegionalClimateData.latest_anomaly := Some (round (last a 0%Q) 3);
     RegionalClimateData.latest_year := Some y |}.

Lemma calculate_trend_statistics_run (d : series) (a : list Q) (y : Z) :
  d <> [] ->
  RegionalClimateData.numbers
    (RegionalClimateData.anomalies_of d (sorted (keys d))) = Some a ->
  int (last (sorted (keys d)) "") = Some y ->
  RegionalClimateData.calculate_trend_statistics d = Returns (Some (stats_of a y)).
Proof.
  intros Hd Ha Hy. unfold RegionalClimateData.calculate_trend_statistics.
  destruct d as [|x d]; [congruence|].
  rewrite Ha, Hy. unfold stats_of.
  destruct (2 <=? len a); reflexivity.
Qed.

(* ================================================================== *)
(** ** The trend statistics calculator *)
(* ================================================================== *)

(** The mean of a list of numbers. *)
Definition mean (l : list Q) : Q := (sum l / inject_Z (len l))%Q.

(** Items in chronological order of their year keys. *)
Definition chronological (its : series) : Prop :=
  StronglySorted (fun a b => year_of (fst a) < year_of (fst b)) its.

Lemma Qltb_lt (x y : Q) : Qltb x y = true <-> (x < y)%Q.
Proof.
  unfold Qltb. rewrite negb_true_iff. split.
  - intros H. apply Qnot_le_lt. intros Hle.
    apply Qle_bool_iff in Hle. congruence.
  - intros H. destruct (Qle_bool y x) eqn:E; [|reflexivity].
    apply Qle_bool_iff in E. exfalso. exact (Qlt_not_le _ _ H E).
Qed.

Lemma len_firstn_half (a : list Q) :
  len (firstn (List.length a / 2) a) = len a / 2.
Proof.
  unfold len. rewrite length_firstn.
  change 2 with (Z.of_nat 2). rewrite <- Nat2Z.inj_div.
  f_equal. apply Nat.min_l. apply Nat.Div0.div_le_upper_bound. lia.
Qed.

Lemma len_skipn_half (a : list Q) :
  len (skipn (List.length a / 2) a) = len a - len a / 2.
Proof.
  unfold len. rewrite length_skipn.
  change 2 with (Z.of_nat 2). rewrite <- Nat2Z.inj_div.
  assert (List.length a / 2 <= List.length a)%nat
    by (apply Nat.Div0.div_le_upper_bound; lia).
  lia.
Qed.

(** The two halves the calculator compares are the first [n/2] anomalies
    and the remaining ones. *)
Lemma stats_of_halves (a : list Q) (y : Z) :
  2 <= len a ->
  let h := (List.length a / 2)%nat in
  RegionalClimateData.trend_direction (stats_of a y)
  = (if Qltb (mean (firstn h a)) (mean (skipn h a))
     then "warming" else "cooling")
  /\ RegionalClimateData.trend_magnitude (stats_of a y)
     = round (Qabs (mean (skipn h a) - mean (firstn h a))) 3.
Proof.
  intros Hn h. unfold stats_of; cbn [RegionalClimateData.trend_direction
                                      RegionalClimateData.trend_magnitude].
  apply Z.leb_le in Hn. rewrite Hn.
  unfold mean, slice_to, slice_from. rewrite half_len. fold h.
  unfold h. rewrite len_firstn_half, len_skipn_half. split; reflexivity.
Qed.

Lemma sorted_items_anomalies (d : series) :
  map (fun it => anomaly_value (snd it)) (map (item_of d) (sorted (keys d)))
  = map (fun k => anomaly_value (snd (item_of d k))) (sorted (keys d)).
Proof. now rewrite map_map. Qed.

Lemma sorted_items_chronological (n : nat) (d : series) :
  well_formed d -> Forall (year_key n) (keys d) ->
  chronological (map (item_of d) (sorted (keys d))).
Proof.
  intros Hw Hk. unfold chronological.
  apply (StronglySorted_map fst (fun s t => year_of s < year_of t)).
  rewrite map_map. unfold item_of; cbn [fst]. rewrite map_id.
  now apply (sorted_chronological n).
Qed.

(** The calculator on a well-formed series of year keys without [null]
    anomalies returns the statistics of the chronological anomaly list. *)
Lemma calculate_trend_statistics_sorted (n : nat) (d : series) :
  d <> [] -> (0 < n)%nat -> Forall (year_key n) (keys d) -> no_null d ->
  exists y,
    int (last (sorted (keys d)) "") = Some y
    /\ RegionalClimateData.calculate_trend_statistics d
       = Returns (Some (stats_of
                          (map (fun it => anomaly_value (snd it))
                               (map (item_of d) (sorted (keys d)))) y)).
Proof.
  intros Hd Hn Hk Hnull.
  assert (Hne : sorted (keys d) <> []).
  { intros E. pose proof (sorted_permutation (keys d)) as P. rewrite E in P.
    apply Permutation_sym, Permutation_nil in P.
    destruct d; [congruence|discriminate]. }
  assert (Hlast : year_key n (last (sorted (keys d)) "")).
  { rewrite Forall_forall in Hk. apply Hk, sorted_in. now apply last_in. }
  exists (year_of (last (sorted (keys d)) "")).
  pose proof (int_year_key n _ Hn Hlast) as Hy.
  split; [exact Hy|].
  apply calculate_trend_statistics_run; auto.
  rewrite sorted_items_anomalies. apply anomalies_numbers; auto.
  intros k. apply sorted_in.
Qed.

Definition close_years : series :=
  [ ("2000", {| value := Absent; anomaly := num 0 1 |});
    ("2001", {| value := Absent; anomaly := num 4 10000 |}) ].

Definition mixed_width : series :=
  [ ("999", {| value := Absent; anomaly := num 0 1 |});
    ("1000", {| value := Absent; anomaly := num 1 1 |}) ].

Definition null_year : series :=
  [ ("2000", {| value := Absent; anomaly := num 1 10 |});
    ("2001", {| value := Absent; anomaly := Null |}) ].


Lemma four_years_year_keys : Forall (year_key 4) (keys four_years).
Proof.
  repeat constructor; intros H; vm_compute in H; discriminate.
Qed.

Lemma four_years_well_formed : well_formed four_years.
Proof.
  unfold well_formed; simpl.
  repeat constructor; simpl; intuition discriminate.
Qed.



(** *** Missing anomalies *)

(** The entry with a missing anomaly made an explicit zero. *)
Definition zero_filled (v : entry) : entry :=
  {| value := value v;
     anomaly := match anomaly v with
                | Absent => Num 0
                | m => m
                end |}.

Definition fill_missing (d : series) : series :=
  map (fun it => (fst it, zero_filled (snd it))) d.

(** The series without the entries whose anomaly is missing. *)
Definition drop_missing (d : series) : series :=
  filter (fun it => member_in (anomaly (snd it))) d.

Lemma keys_fill_missing (d : series) : keys (fill_missing d) = keys d.
Proof. unfold keys, fill_missing. rewrite map_map. reflexivity. Qed.

Lemma lookup_fill_missing (d : series) (k : string) :
  lookup (fill_missing d) k = option_map zero_filled (lookup d k).
Proof.
  induction d as [|[k' v] d IH]; simpl; [reflexivity|].
  destruct (String.eqb k' k); [reflexivity|exact IH].
Qed.

Lemma anomalies_fill_missing (d : series) (ks : list string) :
  RegionalClimateData.anomalies_of (fill_missing d) ks
  = RegionalClimateData.anomalies_of d ks.
Proof.
  unfold RegionalClimateData.anomalies_of. apply map_ext. intros k.
  rewrite lookup_fill_missing.
  destruct (lookup d k) as [v|]; [|reflexivity]. simpl.
  unfold RegionalClimateData.anomaly_or_zero, zero_filled; simpl.
  destruct (anomaly v); reflexivity.
Qed.

Definition one_missing : series :=
  [ ("2000", {| value := Absent; anomaly := num 1 1 |});
    ("2001", {| value := Absent; anomaly := Absent |}) ].

(** C2. A yearly entry without an anomaly counts as an anomaly of 0 in
    everything the calculator computes: the result is the one of the
    series with every missing anomaly written as 0, and all the
    aggregates are taken over one number per year of the series; the year
    is not left out. *)
Theorem missing_anomaly_counts_as_zero :
  (forall d : series,
      RegionalClimateData.calculate_trend_statistics d
      = RegionalClimateData.calculate_trend_statistics (fill_missing d))
  /\
  (forall (d : series) (y : Z),
      d <> [] -> no_null d ->
      int (last (sorted (keys d)) "") = Some y ->
      RegionalClimateData.calculate_trend_statistics d
      = Returns (Some (stats_of
                         (map (fun k => anomaly_value (snd (item_of d k)))
                              (sorted (keys d))) y)))
  /\
  (RegionalClimateData.calculate_trend_statistics one_missing
   <> RegionalClimateData.calculate_trend_statistics (drop_missing one_missing)).
Proof.
  split; [|split].
  - intros d. unfold RegionalClimateData.calculate_trend_statistics.
    destruct d as [|x d]; [reflexivity|].
    change (fill_missing (x :: d))
      with ((fst x, zero_filled (snd x)) :: fill_missing d) at 1.
    cbv iota.
    change ((fst x, zero_filled (snd x)) :: fill_missing d)
      with (fill_missing (x :: d)).
    now rewrite keys_fill_missing, anomalies_fill_missing.
  - intros d y Hd Hn Hy. apply calculate_trend_statistics_run; auto.
    apply anomalies_numbers; auto. intros k. apply sorted_in.
  - vm_compute. discriminate.
Qed.

Lemma missing_anomaly_counts_as_zero_witness :
  one_missing <> []
  /\ no_null one_missing
  /\ int (last (sorted (keys one_missing)) "") = Some 2001
  /\ RegionalClimateData.calculate_trend_statistics one_missing
     = Returns (Some (stats_of [1%Q; 0%Q] 2001)).
Proof.
  assert (Hn : no_null one_missing) by (repeat constructor; discriminate).
  assert (Hd : one_missing <> []) by discriminate.
  split; [exact Hd|]. split; [exact Hn|]. split; [reflexivity|].
  exact (proj1 (proj2 missing_anomaly_counts_as_zero) one_missing 2001
               Hd Hn eq_refl).
Defined.

(* ================================================================== *)
(** ** The decade buckets of the precipitation processor *)
(* ================================================================== *)

Module Decades.
Import PrecipitationData.

(** The decade of a record, and the annual records of one decade. *)
Definition decade_of (r : record) : Z := (year r / 10) * 10.

Definition bucket_rows (D : Z) (rows : list record) : list record :=
  filter (fun r => decade_of r =? D) rows.

(** The non-null precipitation and temperature values of one decade, in
    the order of the records. *)
Definition bucket_precip (D : Z) (rows : list record) : list Q :=
  filter_map precipitation_inches (bucket_rows D rows).

Definition bucket_temp (D : Z) (rows : list record) : list Q :=
  filter_map temperature_fahrenheit (bucket_rows D rows).

(** [decades[k]], when [k] is in the dict. *)
Fixpoint dict_get (d : decades_dict) (k : Z) : option bucket :=
  match d with
  | [] => None
  | (k', b) :: d' => if k' =? k then Some b else dict_get d' k
  end.

Lemma dict_mem_get (d : decades_dict) (k : Z) :
  dict_mem d k = match dict_get d k with Some _ => true | None => false end.
Proof.
  induction d as [|[k' b] d IH]; simpl; [reflexivity|].
  destruct (k' =? k); [reflexivity|exact IH].
Qed.

Lemma dict_get_update (d : decades_dict) (k k' : Z) (f : bucket -> bucket) :
  dict_get (dict_update d k f) k'
  = if k' =? k then option_map f (dict_get d k) else dict_get d k'.
Proof.
  induction d as [|[k0 b] d IH]; cbn [dict_update dict_get].
  - now destruct (k' =? k).
  - destruct (Z.eqb_spec k0 k) as [->|H0]; cbn [dict_get].
    + destruct (Z.eqb_spec k k'), (Z.eqb_spec k' k);
        try congruence; reflexivity.
    + rewrite IH.
      destruct (Z.eqb_spec k0 k'), (Z.eqb_spec k' k);
        try congruence; reflexivity.
Qed.

Lemma dict_get_append (d : decades_dict) (k k' : Z) (b : bucket) :
  dict_get (append d (k, b)) k'
  = match dict_get d k' with
    | Some x => Some x
    | None => if k =? k' then Some b else None
    end.
Proof.
  unfold append. induction d as [|[k0 b0] d IH]; simpl; [reflexivity|].
  destruct (k0 =? k'); [reflexivity|exact IH].
Qed.

Lemma dict_keys_update (d : decades_dict) (k : Z) (f : bucket -> bucket) :
  map fst (dict_update d k f) = map fst d.
Proof.
  induction d as [|[k0 b] d IH]; simpl; [reflexivity|].
  destruct (k0 =? k); simpl; [reflexivity|now rewrite IH].
Qed.

Lemma dict_get_none (d : decades_dict) (k : Z) :
  dict_get d k = None <-> ~ In k (map fst d).
Proof.
  induction d as [|[k0 b] d IH]; simpl; [tauto|].
  destruct (Z.eqb_spec k0 k) as [->|Hne].
  - split; [discriminate|]. intros H; exfalso; apply H; now left.
  - rewrite IH. tauto.
Qed.

Lemma filter_map_app {A B} (f : A -> option B) (l l' : list A) :
  filter_map f (l ++ l')%list = (filter_map f l ++ filter_map f l')%list.
Proof.
  induction l as [|x l IH]; simpl; [reflexivity|].
  destruct (f x); simpl; now rewrite IH.
Qed.

(** The bucket that the first decade loop has built for [D] after the
    records [rows]. *)
Definition bucket_after (D : Z) (rows : list record) : option bucket :=
  match bucket_rows D rows with
  | [] => None
  | _ => Some {| precip_values := bucket_precip D rows;
                 temp_values := bucket_temp D rows |}
  end.

Definition decades_built (rows : list record) (d : decades_dict) : Prop :=
  NoDup (map fst d) /\ forall D, dict_get d D = bucket_after D rows.

Lemma bucket_rows_snoc (D : Z) (rows : list record) (r : record) :
  bucket_rows D (rows ++ [r])%list
  = (bucket_rows D rows ++ (if decade_of r =? D then [r] else []))%list.
Proof. unfold bucket_rows. rewrite filter_app. reflexivity. Qed.

Lemma append_opt_app (l : list Q) (o : option Q) :
  append_opt l o = (l ++ match o with Some x => [x] | None => [] end)%list.
Proof. destruct o; simpl; [reflexivity|now rewrite app_nil_r]. Qed.

Lemma bucket_after_snoc_same (rows : list record) (r : record) :
  bucket_after (decade_of r) (rows ++ [r])%list
  = Some {| precip_values :=
              append_opt (bucket_precip (decade_of r) rows)
                         (precipitation_inches r);
            temp_values :=
              append_opt (bucket_temp (decade_of r) rows)
                         (temperature_fahrenheit r) |}.
Proof.
  unfold bucket_after, bucket_precip, bucket_temp.
  rewrite bucket_rows_snoc, Z.eqb_refl, !filter_map_app, !append_opt_app.
  cbn [filter_map].
  destruct (bucket_rows (decade_of r) rows);
    destruct (precipitation_inches r), (temperature_fahrenheit r); reflexivity.
Qed.

Lemma bucket_after_snoc_other (D : Z) (rows : list record) (r : record) :
  decade_of r <> D ->
  bucket_after D (rows ++ [r])%list = bucket_after D rows.
Proof.
  intros Hne. apply Z.eqb_neq in Hne.
  unfold bucket_after, bucket_precip, bucket_temp.
  now rewrite bucket_rows_snoc, Hne, app_nil_r.
Qed.

Lemma bucket_after_values (D : Z) (rows : list record) (b : bucket) :
  bucket_after D rows = Some b ->
  precip_values b = bucket_precip D rows /\ temp_values b = bucket_temp D rows.
Proof.
  unfold bucket_after. destruct (bucket_rows D rows); [discriminate|].
  intros H; inversion H; subst; split; reflexivity.
Qed.

Lemma decades_step_built (rows : list record) (r : record) (d : decades_dict) :
  decades_built rows d -> decades_built (rows ++ [r])%list (decades_step d r).
Proof.
  intros [Hnd Hget]. unfold decades_step. fold (decade_of r).
  set (D0 := decade_of r).
  split.
  - rewrite dict_keys_update, dict_mem_get.
    destruct (dict_get d D0) eqn:E; [exact Hnd|].
    unfold append. rewrite map_app; simpl.
    apply NoDup_app; [exact Hnd|repeat constructor; simpl; tauto|].
    intros a Ha [<-|[]]. apply dict_get_none in E. contradiction.
  - intros D. rewrite dict_get_update, dict_mem_get.
    destruct (Z.eqb_spec D D0) as [->|Hne].
    + unfold D0 at 4. rewrite bucket_after_snoc_same. fold D0.
      destruct (dict_get d D0) as [b|] eqn:E.
      * rewrite E. cbn [option_map]. rewrite Hget in E.
        destruct (bucket_after_values _ _ _ E) as [-> ->]. reflexivity.
      * rewrite dict_get_append, E, Z.eqb_refl. cbn [option_map precip_values
                                                     temp_values].
        rewrite Hget in E. unfold bucket_after in E.
        unfold bucket_precip, bucket_temp.
        destruct (bucket_rows D0 rows); [reflexivity|discriminate].
    + rewrite bucket_after_snoc_other by (fold D0; congruence).
      destruct (dict_get d D0) eqn:E; [apply Hget|].
      rewrite dict_get_append, Hget.
      assert ((D0 =? D) = false) as -> by (apply Z.eqb_neq; congruence).
      now destruct (bucket_after D rows).
Qed.

Lemma fold_decades_built (rows done : list record) (d : decades_dict) :
  decades_built done d ->
  decades_built (done ++ rows)%list (fold_left decades_step rows d).
Proof.
  revert done d; induction rows as [|r rows IH]; intros done d H; simpl.
  - now rewrite app_nil_r.
  - replace (done ++ r :: rows)%list with ((done ++ [r]) ++ rows)%list
      by (now rewrite <- app_assoc).
    apply IH. now apply decades_step_built.
Qed.

Lemma build_decades_built (rows : list record) :
  decades_built rows (build_decades rows).
Proof.
  unfold build_decades. apply (fold_decades_built rows [] []).
  split; [constructor|]. intros D. reflexivity.
Qed.

(** What the second decade loop makes of one bucket. *)
Lemma decade_record_some ts (k : Z) (b : bucket) (r : record) :
  decade_record ts (k, b) = Some r ->
  precip_values b <> []
  /\ year r = k
  /\ data_type r = "Decade Average"
  /\ precipitation_inches r
     = Some (round (sum (precip_values b) / inject_Z (len (precip_values b))) 2)
  /\ precipitation_anomaly_inches r = None
  /\ temperature_anomaly_fahrenheit r = None.
Proof.
  unfold decade_record. destruct (precip_values b) eqn:E; [discriminate|].
  intros H; inversion H; subst; clear H; cbn.
  repeat split. discriminate.
Qed.

Lemma decade_record_none ts (k : Z) (b : bucket) :
  decade_record ts (k, b) = None <-> precip_values b = [].
Proof.
  unfold decade_record. destruct (precip_values b); split;
    intros; try reflexivity; discriminate.
Qed.

Lemma decade_rows_absent ts (d : decades_dict) (D : Z) :
  ~ In D (map fst d) ->
  filter (fun r => year r =? D) (filter_map (decade_record ts) d) = [].
Proof.
  induction d as [|[k b] d IH]; intros Hn; [reflexivity|].
  cbn [filter_map]. simpl in Hn.
  destruct (decade_record ts (k, b)) as [r|] eqn:E.
  - destruct (decade_record_some _ _ _ _ E) as (_ & Hy & _).
    cbn [filter]. rewrite Hy.
    destruct (Z.eqb_spec k D); [exfalso; apply Hn; now left|].
    apply IH. tauto.
  - apply IH. tauto.
Qed.

(** The decade records of one decade: the record of its bucket, if the
    bucket has one. *)
Lemma decade_rows_of ts (d : decades_dict) (D : Z) :
  NoDup (map fst d) ->
  filter (fun r => year r =? D) (filter_map (decade_record ts) d)
  = match dict_get d D with
    | Some b =>
        match decade_record ts (D, b) with
        | Some r => [r]
        | None => []
        end
    | None => []
    end.
Proof.
  induction d as [|[k b] d IH]; intros Hn; [reflexivity|].
  simpl in Hn. inversion Hn as [|? ? Hk Hd]; subst.
  cbn [filter_map dict_get].
  destruct (Z.eqb_spec k D) as [->|Hne].
  - destruct (decade_record ts (D, b)) as [r|] eqn:E.
    + destruct (decade_record_some _ _ _ _ E) as (_ & Hy & _).
      cbn [filter]. rewrite Hy, Z.eqb_refl.
      now rewrite (decade_rows_absent ts d D Hk).
    + apply (decade_rows_absent ts d D Hk).
  - destruct (decade_record ts (k, b)) as [r|] eqn:E.
    + destruct (decade_record_some _ _ _ _ E) as (_ & Hy & _).
      cbn [filter]. rewrite Hy.
      apply Z.eqb_neq in Hne. rewrite Hne. now apply IH.
    + now apply IH.
Qed.

(** The decade records computed from [rows], decade by decade. *)
Lemma decade_records_of_bucket ts (rows : list record) (D : Z) :
  filter (fun r => year r =? D) (decade_records ts rows)
  = match bucket_after D rows with
    | Some b =>
        match decade_record ts (D, b) with
        | Some r => [r]
        | None => []
        end
    | None => []
    end.
Proof.
  unfold decade_records.
  destruct (build_decades_built rows) as [Hnd Hget].
  now rewrite (decade_rows_of ts _ D Hnd), Hget.
Qed.

Lemma decade_records_decade ts (rows : list record) :
  Forall (fun r => data_type r = "Decade Average") (decade_records ts rows).
Proof.
  unfold decade_records.
  induction (build_decades rows) as [|[k b] d IH]; [constructor|].
  cbn [filter_map]. destruct (decade_record ts (k, b)) as [r|] eqn:E; [|exact IH].
  constructor; [|exact IH].
  now destruct (decade_record_some _ _ _ _ E) as (_ & _ & Ht & _).
Qed.

End Decades.

(* ================================================================== *)
(** ** The tables of the precipitation processor *)
(* ================================================================== *)

Definition is_annual (r : PrecipitationData.record) : bool :=
  String.eqb (PrecipitationData.data_type r) "Annual Average".

Definition is_decade (r : PrecipitationData.record) : bool :=
  String.eqb (PrecipitationData.data_type r) "Decade Average".

(** How an annual record pairs one item of the precipitation series with
    the temperature series [yearly_temp]. *)
Definition annual_of (yearly_temp : series) (it : string * entry)
           (r : PrecipitationData.record) : Prop :=
  int (fst it) = Some (PrecipitationData.year r)
  /\ PrecipitationData.data_type r = "Annual Average"
  /\ PrecipitationData.precipitation_inches r = member_get (value (snd it))
  /\ PrecipitationData.precipitation_anomaly_inches r
     = member_get (anomaly (snd it))
  /\ match lookup yearly_temp (fst it) with
     | None =>
         PrecipitationData.temperature_fahrenheit r = None
         /\ PrecipitationData.temperature_anomaly_fahrenheit r = None
     | Some tv =>
         PrecipitationData.temperature_fahrenheit r = member_get (value tv)
         /\ PrecipitationData.temperature_anomaly_fahrenheit r
            = member_get (anomaly tv)
     end.

Lemma anomaly_if_present_get (v : entry) :
  PrecipitationData.anomaly_if_present v = member_get (anomaly v).
Proof. unfold PrecipitationData.anomaly_if_present. now destruct (anomaly v). Qed.

Lemma annual_record_of yt base ts (k : string) (y : Z) (v : entry) :
  int k = Some y ->
  annual_of yt (k, v) (PrecipitationData.annual_record yt base ts k y v).
Proof.
  intros Hy. unfold annual_of, PrecipitationData.annual_record; cbn [fst snd].
  destruct (lookup yt k) as [tv|]; cbn;
    rewrite ?anomaly_if_present_get; repeat split; auto.
Qed.

Lemma annual_record_type yt base ts k y v :
  PrecipitationData.data_type
    (PrecipitationData.annual_record yt base ts k y v) = "Annual Average".
Proof.
  unfold PrecipitationData.annual_record. now destruct (lookup yt k).
Qed.

(** The annual loop raises only [ValueError], and only on a year key that
    [int] rejects. *)
Lemma annual_loop_raises ts yt base (d : series) (ex : exn) :
  fst (run_all (PrecipFacts.annual_step ts yt base) d) = Raises ex ->
  ex = ValueError /\ exists k, In k (keys d) /\ int k = None.
Proof.
  induction d as [|[k v] d IH]; simpl; [discriminate|].
  destruct (int k) eqn:E; simpl.
  - destruct (run_all _ d) as [[rows|ex'] tr]; simpl in *; [discriminate|].
    intros H; inversion H; subst.
    destruct (IH eq_refl) as [-> [k' [Hk Hi]]].
    split; [reflexivity|]. exists k'. split; [now right|exact Hi].
  - intros H; inversion H; subst. split; [reflexivity|].
    exists k. split; [now left|exact E].
Qed.

(** The annual loop on keys that all parse: one record per item, in
    order. *)
Lemma annual_loop_returns ts yt base (d : series) :
  (forall k, In k (keys d) -> int k <> None) ->
  exists rows,
    fst (run_all (PrecipFacts.annual_step ts yt base) d) = Returns rows
    /\ Forall2 (annual_of yt) d rows.
Proof.
  induction d as [|[k v] d IH]; intros H; simpl.
  - exists []. split; [reflexivity|constructor].
  - destruct (int k) as [y|] eqn:E;
      [|exfalso; apply (H k); [now left|exact E]].
    destruct IH as [rows [Hr Hf]]; [intros; apply H; now right|].
    destruct (run_all _ d) as [o tr]; simpl in Hr; subst o. simpl.
    eexists. split; [reflexivity|].
    constructor; [now apply annual_record_of|exact Hf].
Qed.

(** A loop that fails on some key raises. *)
Lemma annual_loop_bad_key ts yt base (d : series) (k : string) :
  In k (keys d) -> int k = None ->
  fst (run_all (PrecipFacts.annual_step ts yt base) d) = Raises ValueError.
Proof.
  intros Hin Hk.
  destruct (fst (run_all (PrecipFacts.annual_step ts yt base) d)) as [rows|ex] eqn:E.
  - exfalso. apply run_all_returned in E as (Hall & _ & _).
    unfold keys in Hin. apply in_map_iff in Hin as [[k' v] [Hfst Hin]].
    simpl in Hfst; subst k'.
    specialize (Hall _ Hin). unfold PrecipFacts.annual_step in Hall.
    cbn [fst snd] in Hall. rewrite Hk in Hall. discriminate.
  - now destruct (annual_loop_raises _ _ _ _ _ E) as [-> _].
Qed.

Lemma annual_loop_annual ts yt base (d : series) (rows : list PrecipitationData.record) :
  fst (run_all (PrecipFacts.annual_step ts yt base) d) = Returns rows ->
  Forall (fun r => PrecipitationData.data_type r = "Annual Average") rows.
Proof.
  intros H.
  assert (Hr : Forall (fun r => PrecipitationData.data_type r = "Annual Average")
                      (rows_of (run_all (PrecipFacts.annual_step ts yt base) d))).
  { apply run_all_rows. intros [k v] _.
    unfold rows_of, PrecipFacts.annual_step; cbn [fst snd].
    destruct (int k); repeat constructor. apply annual_record_type. }
  unfold rows_of in Hr. now rewrite H in Hr.
Qed.

Lemma annual_outcome_annual ts pd td (rows : list PrecipitationData.record) :
  PrecipFacts.annual_outcome ts pd td = Returns rows ->
  Forall (fun r => PrecipitationData.data_type r = "Annual Average") rows.
Proof.
  unfold PrecipFacts.annual_outcome.
  destruct pd as [p|]; [destruct (payload_truthy p)|];
    try (intros H; inversion H; constructor).
  apply annual_loop_annual.
Qed.

Lemma add_decade_averages_app ts (rows : list PrecipitationData.record) :
  PrecipitationData.add_decade_averages ts rows
  = (rows ++ PrecipitationData.decade_records ts rows)%list.
Proof. destruct rows; reflexivity. Qed.

Lemma filter_all {A} (f : A -> bool) (l : list A) :
  Forall (fun x => f x = true) l -> filter f l = l.
Proof.
  induction 1 as [|x l Hx _ IH]; simpl; [reflexivity|]. now rewrite Hx, IH.
Qed.

Lemma filter_none {A} (f : A -> bool) (l : list A) :
  Forall (fun x => f x = false) l -> filter f l = [].
Proof.
  induction 1 as [|x l Hx _ IH]; simpl; [reflexivity|]. now rewrite Hx, IH.
Qed.

(** The annual part and the decade part of a table built from the annual
    records [annual]. *)
Lemma table_parts ts (annual : list PrecipitationData.record) :
  Forall (fun r => PrecipitationData.data_type r = "Annual Average") annual ->
  let rows := PrecipitationData.add_decade_averages ts annual in
  filter is_annual rows = annual
  /\ forall D,
      filter (fun r => is_decade r && (PrecipitationData.year r =? D)) rows
      = filter (fun r => PrecipitationData.year r =? D)
               (PrecipitationData.decade_records ts annual).
Proof.
  intros Ha rows. unfold rows. rewrite add_decade_averages_app.
  pose proof (Decades.decade_records_decade ts annual) as Hd.
  split; [|intros D]; rewrite filter_app.
  - rewrite (filter_all is_annual annual), (filter_none is_annual), app_nil_r;
      [reflexivity| |].
    + eapply Forall_impl; [|exact Hd]. intros r Hr. unfold is_annual.
      now rewrite Hr.
    + eapply Forall_impl; [|exact Ha]. intros r Hr. unfold is_annual.
      now rewrite Hr.
  - rewrite filter_none.
    + simpl. apply filter_ext_in. intros r Hr.
      rewrite Forall_forall in Hd. unfold is_decade. now rewrite (Hd r Hr).
    + eapply Forall_impl; [|exact Ha]. intros r Hr. unfold is_decade.
      now rewrite Hr.
Qed.

(** Every table of the processor is built from annual records. *)
Lemma precip_table_rows e w t w' :
  PrecipitationData.process_precipitation_data e w = (Returns t, w') ->
  exists annual,
    Forall (fun r => PrecipitationData.data_type r = "Annual Average") annual
    /\ tbl_rows t = PrecipitationData.add_decade_averages (now e) annual.
Proof.
  rewrite PrecipFacts.precip_process_run.
  destruct (PrecipFacts.gate_closed e w).
  - intros H; inversion H; subst. exists []. split; [constructor|reflexivity].
  - unfold PrecipFacts.production.
    destruct (fetch_result (remote e (PrecipFacts.precip_url e))) as [pd|ex];
      [|discriminate].
    destruct (fetch_result (remote e (PrecipFacts.temp_url e))) as [td|ex];
      [|discriminate].
    destruct (PrecipFacts.annual_outcome (now e) pd td) as [annual|ex] eqn:E;
      [|discriminate].
    cbn [map_outcome]. intros H; inversion H; subst.
    exists annual. split; [|reflexivity].
    now apply (annual_outcome_annual (now e) pd td).
Qed.

(** A remote service with the precipitation of the 1990s and no
    temperature series. *)
Definition only_value (n : Z) : entry := {| value := num n 1; anomaly := Absent |}.

Definition nineties : series :=
  [ ("1990", only_value 1); ("1991", only_value 2); ("1992", only_value 3);
    ("1993", only_value 4); ("1994", only_value 5); ("1995", only_value 6);
    ("1996", only_value 7); ("1997", only_value 8); ("1998", only_value 9);
    ("1999", only_value 10) ].

Definition series_payload (d : series) : payload :=
  {| p_description := Some {| title := None; base_period := Some "1901-2000" |};
     p_data := Some d |}.

Definition nineties_remote (url : string) : response :=
  if String.eqb url (us_url "pcp" 1895 2024)
  then {| status_code := 200; json := series_payload nineties |}
  else not_found url.

Definition nineties_env : env := {| now := sample_now; remote := nineties_remote |}.



(** A remote service with one year whose temperature is 0.0. *)
Definition zero_temp_remote (url : string) : response :=
  if String.eqb url (us_url "pcp" 1895 2024)
  then {| status_code := 200;
          json := series_payload [("1990", only_value 1)] |}
  else {| status_code := 200;
          json := series_payload [("1990", only_value 0)] |}.

Definition zero_temp_env : env := {| now := sample_now; remote := zero_temp_remote |}.

(** C5, the code at the failing input.  The only annual record of the
    1990s has the temperature 0.0; the bucket holds that value, whose mean
    rounded to 2 decimals is 0.0, and yet the decade record has no
    temperature: [round(avg_temp, 2) if avg_temp else None] takes the mean
    0.0 for a missing one. *)
Theorem decade_temperature_zero_dropped :
  exists t w' a r,
    PrecipitationData.process_precipitation_data zero_temp_env empty_world
    = (Returns t, w')
    /\ filter is_annual (tbl_rows t) = [a]
    /\ PrecipitationData.temperature_fahrenheit a = Some 0%Q
    /\ filter is_decade (tbl_rows t) = [r]
    /\ PrecipitationData.year r = 1990
    /\ Decades.bucket_temp 1990 (filter is_annual (tbl_rows t)) = [0%Q]
    /\ round (mean [0%Q]) 2 = 0%Q
    /\ PrecipitationData.temperature_fahrenheit r = None
    /\ PrecipitationData.precipitation_anomaly_inches r = None
    /\ PrecipitationData.temperature_anomaly_fahrenheit r = None.
Proof.
  do 4 eexists. split; [vm_compute; reflexivity|].
  repeat split.
Qed.

(** The temperature series that the annual loop joins against, as
    fetched. *)
Definition temperature_series (e : env) : series :=
  match fetch_result (remote e (PrecipFacts.temp_url e)) with
  | Returns td => PrecipFacts.joined_temp td
  | Raises _ => []
  end.



(* ================================================================== *)
(** ** The conversion of year keys with [int] *)
(* ================================================================== *)

(** Every year key of the series parses. *)
Definition keys_parse (d : series) : Prop :=
  forall k, In k (keys d) -> int k <> None.

Lemma keys_parse_converted (d : series) :
  keys_parse d -> converted_keys_parse d.
Proof.
  intros H k v Hin _. apply H. unfold keys.
  apply in_map_iff. exists (k, v). split; [reflexivity|exact Hin].
Qed.

(** The anomaly processor on one payload: a key is converted only when its
    entry has a non-null anomaly, and a converted key that does not parse
    raises. *)
Lemma global_payload_rows_bad_key e ts rn sn p k v :
  In (k, v) (get_data p) -> member_get (anomaly v) <> None -> int k = None ->
  GlobalFacts.payload_rows e ts rn sn p = Raises ValueError.
Proof.
  intros Hin Ha Hk. unfold GlobalFacts.payload_rows.
  destruct (fst (run_all _ (get_data p))) as [rows|ex] eqn:E.
  - exfalso. apply run_all_returned in E as (Hall & _ & _).
    specialize (Hall _ Hin).
    unfold step_of, GlobalTemperatureAnomalies.yearly_body in Hall.
    destruct (member_get (anomaly v)); [|congruence].
    rewrite Hk in Hall. discriminate.
  - revert E. clear Hin. induction (get_data p) as [|[k' v'] d IH]; simpl;
      [discriminate|].
    rewrite GlobalFacts.yearly_step.
    unfold GlobalFacts.yearly_rows, step_of,
      GlobalTemperatureAnomalies.yearly_body at 1.
    destruct (member_get (anomaly v')); [destruct (int k')|]; simpl.
    + destruct (run_all _ d) as [[rows|ex'] tr]; simpl in *; [discriminate|].
      intros H; inversion H; subst. now apply IH.
    + intros H; inversion H; reflexivity.
    + destruct (run_all _ d) as [[rows|ex'] tr]; simpl in *; [discriminate|].
      intros H; inversion H; subst. now apply IH.
Qed.

(** The calculator converts the greatest key only. *)
Lemma calculate_trend_statistics_last_key (d : series) :
  d <> [] -> no_null d ->
  RegionalClimateData.calculate_trend_statistics d
  = match int (last (sorted (keys d)) "") with
    | None => Raises ValueError
    | Some y =>
        Returns (Some (stats_of
                         (map (fun k => anomaly_value (snd (item_of d k)))
                              (sorted (keys d))) y))
    end.
Proof.
  intros Hd Hn.
  destruct (int (last (sorted (keys d)) "")) as [y|] eqn:E.
  - apply calculate_trend_statistics_run; auto.
    apply anomalies_numbers; auto. intros k. apply sorted_in.
  - unfold RegionalClimateData.calculate_trend_statistics.
    destruct d as [|x d]; [congruence|].
    rewrite (anomalies_numbers (x :: d) (sorted (keys (x :: d))) Hn)
      by (intros k; apply sorted_in).
    rewrite E. now destruct (2 <=? _).
Qed.

Lemma calculate_trend_statistics_total (d : series) :
  no_null d -> keys_parse d ->
  exists o, RegionalClimateData.calculate_trend_statistics d = Returns o.
Proof.
  intros Hn Hk. destruct d as [|x d]; [now exists None|].
  rewrite calculate_trend_statistics_last_key by (auto; discriminate).
  destruct (int (last (sorted (keys (x :: d))) "")) eqn:E; [now eexists|].
  exfalso. apply (Hk (last (sorted (keys (x :: d))) "")); [|exact E].
  apply sorted_in, last_in. intros E'.
  pose proof (sorted_permutation (keys (x :: d))) as P. rewrite E' in P.
  apply Permutation_sym, Permutation_nil in P. discriminate.
Qed.

Section RegionalRun.
Variable e : env.

(** A (region, surface, period) combination is fine when its response is
    a not-found, or a success whose series has no [null] anomaly and
    year keys that parse. *)
Definition summary_fine (r s : string * string) (period : Z) : Prop :=
  let resp := remote e (RegionalFacts.period_url e (fst r) (fst s) period) in
  status_code resp = 404
  \/ (is_success (status_code resp) = true
      /\ no_null (get_data (json resp))
      /\ keys_parse (get_data (json resp))).

Lemma period_step_fine r s period :
  summary_fine r s period ->
  exists rows,
    fst (RegionalFacts.period_step e (now e) (fst r) (snd r) (fst s) (snd s) period)
    = Returns rows.
Proof.
  unfold summary_fine, RegionalFacts.period_step, fetch_step; cbn [fst].
  intros [H4|(Hs & Hn & Hk)].
  - rewrite (fetch_result_not_found _ H4). now eexists.
  - rewrite (fetch_result_success _ Hs). unfold RegionalFacts.summary_rows.
    destruct (calculate_trend_statistics_total _ Hn Hk) as [[st|] ->];
      now eexists.
Qed.

Lemma regional_enumeration_fine :
  (forall r s period, In r regions -> In s surface_types ->
                      In period RegionalClimateData.periods ->
                      skipped (fst r) (fst s) = false ->
                      summary_fine r s period) ->
  exists rows, fst (RegionalFacts.enumeration e) = Returns rows.
Proof.
  intros H. unfold RegionalFacts.enumeration.
  erewrite run_all_returns; [eexists; reflexivity|].
  intros r Hr. unfold RegionalFacts.region_step.
  erewrite run_all_returns; [reflexivity|].
  intros s Hs. unfold RegionalFacts.combination_step.
  destruct (skipped (fst r) (fst s)) eqn:Hk.
  - instantiate (1 := fun s => rows_of (RegionalFacts.combination_step
                                          e (now e) (fst r) (snd r) s)).
    unfold RegionalFacts.combination_step, rows_of. now rewrite Hk.
  - unfold RegionalFacts.combination_step, rows_of. rewrite Hk.
    erewrite run_all_returns; [reflexivity|].
    intros period Hp.
    destruct (period_step_fine r s period (H r s period Hr Hs Hp Hk))
      as [rows Hrows].
    instantiate (1 := fun period =>
      rows_of (RegionalFacts.period_step e (now e) (fst r) (snd r)
                                         (fst s) (snd s) period)).
    unfold rows_of. now rewrite Hrows.
Qed.
End RegionalRun.

Lemma regional_run_fine e w :
  gate_open e w "regional_climate_data" strftime_Ym ->
  (forall r s period, In r regions -> In s surface_types ->
                      In period RegionalClimateData.periods ->
                      skipped (fst r) (fst s) = false ->
                      summary_fine e r s period) ->
  exists t w',
    RegionalClimateData.process_regional_climate_data e w = (Returns t, w').
Proof.
  intros Hg H. rewrite RegionalFacts.regional_process_run.
  unfold RegionalFacts.gate_closed, RegionalFacts.NAME.
  rewrite (gate_open_eqb _ _ _ _ Hg).
  destruct (regional_enumeration_fine e H) as [rows Hrows].
  destruct (RegionalFacts.enumeration e) as [o tr]; simpl in Hrows; subst o.
  do 2 eexists; reflexivity.
Qed.

(** The precipitation response is fine when it is a not-found, or a
    success whose year keys parse. *)
Definition precip_fine (e : env) : Prop :=
  let pr := remote e (us_url "pcp" 1895 (dt_year (now e))) in
  status_code pr = 404
  \/ (is_success (status_code pr) = true /\ keys_parse (get_data (json pr))).

Definition temp_fine (e : env) : Prop :=
  let tr := remote e (us_url "tavg" 1895 (dt_year (now e))) in
  status_code tr = 404 \/ is_success (status_code tr) = true.

Lemma temp_fine_result e :
  temp_fine e ->
  exists td, fetch_result (remote e (PrecipFacts.temp_url e)) = Returns td.
Proof.
  intros [H4|Hs].
  - unfold PrecipFacts.temp_url. rewrite (fetch_result_not_found _ H4).
    now eexists.
  - unfold PrecipFacts.temp_url. rewrite (fetch_result_success _ Hs).
    now eexists.
Qed.

Lemma precip_run_fine e w :
  gate_open e w "precipitation_data" strftime_Ym ->
  precip_fine e -> temp_fine e ->
  exists t w',
    PrecipitationData.process_precipitation_data e w = (Returns t, w').
Proof.
  intros Hg Hp Ht. rewrite PrecipFacts.precip_process_run.
  unfold PrecipFacts.gate_closed, PrecipFacts.NAME.
  rewrite (gate_open_eqb _ _ _ _ Hg).
  unfold PrecipFacts.production.
  destruct (temp_fine_result e Ht) as [td Htd]. rewrite Htd.
  unfold PrecipFacts.precip_url.
  destruct Hp as [H4|[Hs Hk]].
  - rewrite (fetch_result_not_found _ H4). cbn. do 2 eexists; reflexivity.
  - rewrite (fetch_result_success _ Hs).
    unfold PrecipFacts.annual_outcome.
    destruct (payload_truthy _); [|cbn; do 2 eexists; reflexivity].
    destruct (annual_loop_returns (now e) (PrecipFacts.joined_temp td)
                (get_base_period (get_description
                   (json (remote e (us_url "pcp" 1895 (dt_year (now e)))))))
                _ Hk) as [rows [Hr _]].
    rewrite Hr. cbn. do 2 eexists; reflexivity.
Qed.

Lemma precip_run_bad_key e w k :
  gate_open e w "precipitation_data" strftime_Ym ->
  let pr := remote e (us_url "pcp" 1895 (dt_year (now e))) in
  is_success (status_code pr) = true ->
  payload_truthy (json pr) = true ->
  temp_fine e ->
  In k (keys (get_data (json pr))) -> int k = None ->
  exists w',
    PrecipitationData.process_precipitation_data e w = (Raises ValueError, w')
    /\ w_store w' = w_store w.
Proof.
  intros Hg pr Hs Hp Ht Hin Hk. rewrite PrecipFacts.precip_process_run.
  unfold PrecipFacts.gate_closed, PrecipFacts.NAME.
  rewrite (gate_open_eqb _ _ _ _ Hg).
  unfold PrecipFacts.production.
  destruct (temp_fine_result e Ht) as [td Htd]. rewrite Htd.
  unfold PrecipFacts.precip_url. fold pr.
  rewrite (fetch_result_success _ Hs).
  unfold PrecipFacts.annual_outcome. rewrite Hp.
  rewrite (annual_loop_bad_key _ _ _ _ k Hin Hk). cbn.
  eexists; split; reflexivity.
Qed.

(** An enumerated combination of the anomaly processor whose response is
    a not-found, or a success whose year keys all parse. *)
Definition combination_parses (e : env) (r s : string * string) : Prop :=
  let resp := remote e (combination_url e r s) in
  status_code resp = 404
  \/ (is_success (status_code resp) = true
      /\ keys_parse (get_data (json resp))).

Lemma combination_parses_fine e r s :
  combination_parses e r s -> combination_fine e r s.
Proof.
  intros [H|[Hs Hk]]; [now left|right].
  split; [exact Hs|now apply keys_parse_converted].
Qed.

(** A remote service whose series have one entry, keyed "n/a", with a
    [null] anomaly. *)
Definition not_available : series :=
  [ ("n/a", {| value := Absent; anomaly := Null |}) ].

Definition not_available_remote (url : string) : response :=
  {| status_code := 200; json := series_payload not_available |}.

Definition not_available_env : env :=
  {| now := sample_now; remote := not_available_remote |}.

(** A series whose first key in string order is no number. *)
Definition bad_first_key : series :=
  [ ("1x", {| value := Absent; anomaly := num 1 10 |});
    ("2001", {| value := Absent; anomaly := num 2 10 |}) ].




(* ================================================================== *)
(** ** The run state a processor leaves behind *)
(* ================================================================== *)

Lemma store_get_set_other (s : store) (name other : string) (st : run_state) :
  other <> name -> store_get (store_set s name st) other = store_get s other.
Proof.
  intros H. unfold store_set; simpl.
  destruct (String.eqb_spec name other) as [E|_]; [congruence|reflexivity].
Qed.

Section StateWritten.
Context {R : Type} (proc : M (table R)) (schema : list field)
        (name : string) (period : datetime -> string) (work : env -> step R).
Hypothesis shape : gated_shape proc schema name period work.

(** Whatever the invocation does, the run state of the other datasets is
    what it was. *)
Lemma other_states_kept e w r w' other :
  proc e w = (r, w') -> other <> name ->
  store_get (w_store w') other = store_get (w_store w) other.
Proof.
  rewrite shape. intros H Hne.
  destruct (option_string_eqb _ _).
  - inversion H; subst. reflexivity.
  - destruct (work e) as [[rows|ex] tr]; inversion H; subst; simpl.
    + destruct (String.eqb_spec name other) as [E|_]; [congruence|reflexivity].
    + reflexivity.
Qed.

(** Past the gate, the state written counts the rows of the table
    returned. *)
Lemma state_counts_rows e w t w' :
  last_update (store_get (w_store w) name) <> Some (period (now e)) ->
  proc e w = (Returns t, w') ->
  store_get (w_store w') name
  = {| last_update := Some (period (now e));
       records_processed := Some (num_rows t) |}.
Proof.
  intros Hopen. rewrite shape.
  destruct (option_string_eqb _ _) eqn:Hg.
  - apply option_string_eqb_true in Hg. contradiction.
  - destruct (work e) as [[rows|ex] tr]; intros H; inversion H; subst; simpl.
    now rewrite String.eqb_refl.
Qed.

(** Behind the gate, and when the invocation raises, the store is what it
    was. *)
Lemma store_kept_unless_returned_open e w r w' :
  proc e w = (r, w') ->
  (last_update (store_get (w_store w) name) = Some (period (now e))
   \/ exists ex, r = Raises ex) ->
  w_store w' = w_store w.
Proof.
  rewrite shape. intros H Hc.
  destruct (option_string_eqb _ _) eqn:Hg.
  - inversion H; subst. reflexivity.
  - destruct Hc as [Hc|[ex ->]].
    + apply option_string_eqb_true in Hc. congruence.
    + destruct (work e) as [[rows|ex'] tr]; inversion H; subst. reflexivity.
Qed.
End StateWritten.

(** What a processor writes to the state store: past the gate, when it
    returns a table, the period string and the number of rows of that
    table under its own dataset name; nothing else, and nothing under
    another name. *)
Definition state_discipline {R} (proc : M (table R)) (name : string)
           (period : datetime -> string) : Prop :=
  (forall e w t w',
      last_update (store_get (w_store w) name) <> Some (period (now e)) ->
      proc e w = (Returns t, w') ->
      store_get (w_store w') name
      = {| last_update := Some (period (now e));
           records_processed := Some (num_rows t) |})
  /\ (forall e w r w' other,
         proc e w = (r, w') -> other <> name ->
         store_get (w_store w') other = store_get (w_store w) other)
  /\ (forall e w r w',
         proc e w = (r, w') ->
         (last_update (store_get (w_store w) name) = Some (period (now e))
          \/ exists ex, r = Raises ex) ->
         w_store w' = w_store w).

Lemma state_discipline_of_shape {R} (proc : M (table R)) schema name period work :
  gated_shape proc schema name period work ->
  state_discipline proc name period.
Proof.
  intros Hs. split; [|split].
  - intros e w t w'. apply (state_counts_rows _ _ _ _ _ Hs).
  - intros e w r w' other. apply (other_states_kept _ _ _ _ _ Hs).
  - intros e w r w'. apply (store_kept_unless_returned_open _ _ _ _ _ Hs).
Qed.



(* ================================================================== *)
(** ** The requests of an invocation *)
(* ================================================================== *)

Lemma flat_map_ext_in {A B} (f g : A -> list B) (l : list A) :
  (forall x, In x l -> f x = g x) -> flat_map f l = flat_map g l.
Proof.
  induction l as [|x l IH]; intros H; simpl; [reflexivity|].
  rewrite (H x (or_introl eq_refl)), IH; [reflexivity|].
  intros; apply H; now right.
Qed.

Lemma map_of_flat_map {A B C} (f : B -> C) (g : A -> list B) (l : list A) :
  map f (flat_map g l) = flat_map (fun x => map f (g x)) l.
Proof.
  induction l as [|x l IH]; simpl; [reflexivity|].
  now rewrite map_app, IH.
Qed.

(** The URLs of the anomaly processor, in the order of the enumeration. *)
Definition global_plan (current_year : Z) : list string :=
  flat_map (fun r =>
    flat_map (fun s =>
      if skipped (fst r) (fst s) then []
      else [global_url (fst r) (fst s) 1850 current_year])
      surface_types) regions.

(** The URLs of the regional-trend processor. *)
Definition regional_plan (current_year : Z) : list string :=
  flat_map (fun r =>
    flat_map (fun s =>
      if skipped (fst r) (fst s) then []
      else map (fun period =>
                  global_url (fst r) (fst s) (current_year - period) current_year)
               RegionalClimateData.periods)
      surface_types) regions.

(** The URLs of the precipitation processor. *)
Definition precip_plan (current_year : Z) : list string :=
  [us_url "pcp" 1895 current_year; us_url "tavg" 1895 current_year].

Lemma global_enumeration_plan e rows :
  fst (GlobalFacts.enumeration e) = Returns rows ->
  snd (GlobalFacts.enumeration e) = map Get (global_plan (dt_year (now e))).
Proof.
  intros H. unfold GlobalFacts.enumeration in *.
  apply run_all_returned in H as (Hr & _ & ->).
  unfold global_plan. rewrite map_of_flat_map.
  apply flat_map_ext_in. intros r Hin.
  specialize (Hr r Hin). unfold GlobalFacts.region_step in *.
  apply run_all_returned in Hr as (_ & _ & ->).
  rewrite map_of_flat_map.
  apply flat_map_ext_in. intros s _.
  unfold GlobalFacts.combination_step.
  destruct (skipped (fst r) (fst s)); reflexivity.
Qed.

Lemma regional_enumeration_plan e rows :
  fst (RegionalFacts.enumeration e) = Returns rows ->
  snd (RegionalFacts.enumeration e) = map Get (regional_plan (dt_year (now e))).
Proof.
  intros H. unfold RegionalFacts.enumeration in *.
  apply run_all_returned in H as (Hr & _ & ->).
  unfold regional_plan. rewrite map_of_flat_map.
  apply flat_map_ext_in. intros r Hin.
  specialize (Hr r Hin). unfold RegionalFacts.region_step in *.
  apply run_all_returned in Hr as (Hs & _ & ->).
  rewrite map_of_flat_map.
  apply flat_map_ext_in. intros s Hins.
  specialize (Hs s Hins). unfold RegionalFacts.combination_step in *.
  destruct (skipped (fst r) (fst s)); [reflexivity|].
  apply run_all_returned in Hs as (_ & _ & ->).
  rewrite map_map.
  unfold RegionalFacts.period_step, fetch_step, RegionalFacts.period_url.
  cbn [snd]. induction RegionalClimateData.periods as [|p ps IH];
    [reflexivity|]. cbn [map flat_map app]. now rewrite IH.
Qed.

Lemma precip_production_plan e rows :
  fst (PrecipFacts.production e) = Returns rows ->
  snd (PrecipFacts.production e) = map Get (precip_plan (dt_year (now e))).
Proof.
  unfold PrecipFacts.production.
  destruct (fetch_result _); [reflexivity|discriminate].
Qed.

(** The trace of an invocation that passed the gate and returned: the
    state read, the requests of the plan in order, the state write. *)
Definition follows_plan {R} (proc : M (table R)) (name : string)
           (period : datetime -> string) (plan : Z -> list string) : Prop :=
  forall e w t w',
    last_update (store_get (w_store w) name) <> Some (period (now e)) ->
    proc e w = (Returns t, w') ->
    exists st,
      w_trace w'
      = (w_trace w ++ LoadState name :: map Get (plan (dt_year (now e)))
           ++ [SaveState name st])%list.

Lemma follows_plan_of_shape {R} (proc : M (table R)) schema name period work plan :
  gated_shape proc schema name period work ->
  (forall e rows, fst (work e) = Returns rows ->
                  snd (work e) = map Get (plan (dt_year (now e)))) ->
  follows_plan proc name period plan.
Proof.
  intros Hs Hp e w t w' Hopen. rewrite Hs.
  destruct (option_string_eqb _ _) eqn:Hg.
  - apply option_string_eqb_true in Hg. contradiction.
  - specialize (Hp e).
    destruct (work e) as [[rows|ex] tr]; cbn [fst snd] in Hp;
      intros H; inversion H; subst.
    rewrite (Hp rows eq_refl). eexists; reflexivity.
Qed.

(** X2. An invocation that passes the gate and returns a table has made
    exactly the requests of its plan, once each and in enumeration order,
    between the state read and the state write: 15 for the anomaly
    processor, 45 for the regional-trend processor, 2 for the
    precipitation processor. *)
Theorem requests_follow_plan :
  (follows_plan
     GlobalTemperatureAnomalies.process_global_temperature_anomalies
     "global_temperature_anomalies" strftime_Ymd global_plan
   /\ forall y, List.length (global_plan y) = 15%nat)
  /\ (follows_plan
        RegionalClimateData.process_regional_climate_data
        "regional_climate_data" strftime_Ym regional_plan
      /\ forall y, List.length (regional_plan y) = 45%nat)
  /\ (follows_plan
        PrecipitationData.process_precipitation_data
        "precipitation_data" strftime_Ym precip_plan
      /\ forall y, List.length (precip_plan y) = 2%nat).
Proof.
  repeat split.
  - apply (follows_plan_of_shape _ _ _ _ _ _ global_shape).
    exact global_enumeration_plan.
  - apply (follows_plan_of_shape _ _ _ _ _ _ regional_shape).
    exact regional_enumeration_plan.
  - apply (follows_plan_of_shape _ _ _ _ _ _ precip_shape).
    exact precip_production_plan.
Qed.

Lemma requests_follow_plan_witness :
  exists t w' st,
    RegionalClimateData.process_regional_climate_data data_env empty_world
    = (Returns t, w')
    /\ w_trace w'
       = (LoadState "regional_climate_data"
            :: map Get (regional_plan 2024)
            ++ [SaveState "regional_climate_data" st])%list.
Proof.
  destruct (RegionalClimateData.process_regional_climate_data data_env empty_world)
    as [[t|ex] w'] eqn:E; [|vm_compute in E; discriminate].
  destruct (proj1 (proj1 (proj2 requests_follow_plan)) data_env empty_world t w')
    as [st Hst]; [discriminate|exact E|].
  exists t, w', st. split; [reflexivity|exact Hst].
Defined.

(* ================================================================== *)
(** ** main.py *)
(* ================================================================== *)

Module Main.

(** The table handed to the sink is one of the three kinds. *)
Inductive any_table :=
| GlobalTable (t : table GlobalTemperatureAnomalies.record)
| RegionalTable (t : table RegionalClimateData.record)
| PrecipTable (t : table PrecipitationData.record).

Definition rows_in (t : any_table) : Z :=
  match t with
  | GlobalTable t => num_rows t
  | RegionalTable t => num_rows t
  | PrecipTable t => num_rows t
  end.

(** Modelled from the spec: [upload_data(table, name)] hands a finished
    table to the sink under a destination name. *)
Record upload := { up_table : any_table; up_name : string }.

(** What the orchestrator changes: the world of the processors, and the
    uploads made so far. *)
Record site := { s_world : world; s_uploads : list upload }.

Definition O (A : Type) : Type := env -> site -> outcome A * site.

Definition oret {A} (a : A) : O A := fun _ s => (Returns a, s).

Definition obind {A B} (m : O A) (k : A -> O B) : O B :=
  fun e s =>
    match m e s with
    | (Returns a, s') => k a e s'
    | (Raises x, s') => (Raises x, s')
    end.

(** A processor run inside the orchestrator. *)
Definition call {A} (m : M A) : O A :=
  fun e s =>
    let '(r, w') := m e (s_world s) in
    (r, {| s_world := w'; s_uploads := s_uploads s |}).

Definition upload_data (t : any_table) (name : string) : O unit :=
  fun _ s =>
    (Returns tt,
     {| s_world := s_world s;
        s_uploads := append (s_uploads s) {| up_table := t; up_name := name |} |}).

(** Modelled from the spec: [validate_environment()] returns or raises,
    as the surroundings [validation] decide. *)
Definition validate_environment (validation : outcome unit) : O unit :=
  fun _ s => (validation, s).

Definition main (validation : outcome unit) : O unit :=
  obind (validate_environment validation) (fun _ =>
  obind (call GlobalTemperatureAnomalies.process_global_temperature_anomalies)
        (fun global_temp_data =>
  obind (if 0 <? num_rows global_temp_data
         then upload_data (GlobalTable global_temp_data)
                          "noaa_global_temperature_anomalies"
         else oret tt) (fun _ =>
  obind (call RegionalClimateData.process_regional_climate_data)
        (fun regional_data =>
  obind (if 0 <? num_rows regional_data
         then upload_data (RegionalTable regional_data)
                          "noaa_regional_climate_summaries"
         else oret tt) (fun _ =>
  obind (call PrecipitationData.process_precipitation_data)
        (fun precip_data =>
  if 0 <? num_rows precip_data
  then upload_data (PrecipTable precip_data) "noaa_us_precipitation"
  else oret tt)))))).

End Main.

(** The upload of a table under [name], when the table has a row. *)
Definition upload_if_rows (t : Main.any_table) (name : string)
  : list Main.upload :=
  if 0 <? Main.rows_in t
  then [ {| Main.up_table := t; Main.up_name := name |} ]
  else [].

(** The orchestrator, processor by processor. *)
Lemma main_run (validation : outcome unit) (e : env) (s : Main.site) :
  Main.main validation e s
  = match validation with
    | Raises x => (Raises x, s)
    | Returns _ =>
        match GlobalTemperatureAnomalies.process_global_temperature_anomalies
                e (Main.s_world s) with
        | (Raises x, w1) =>
            (Raises x, {| Main.s_world := w1; Main.s_uploads := Main.s_uploads s |})
        | (Returns tg, w1) =>
            let u1 := upload_if_rows (Main.GlobalTable tg)
                                     "noaa_global_temperature_anomalies" in
            match RegionalClimateData.process_regional_climate_data e w1 with
            | (Raises x, w2) =>
                (Raises x, {| Main.s_world := w2;
                              Main.s_uploads := (Main.s_uploads s ++ u1)%list |})
            | (Returns tr, w2) =>
                let u2 := upload_if_rows (Main.RegionalTable tr)
                                         "noaa_regional_climate_summaries" in
                match PrecipitationData.process_precipitation_data e w2 with
                | (Raises x, w3) =>
                    (Raises x,
                     {| Main.s_world := w3;
                        Main.s_uploads := (Main.s_uploads s ++ u1 ++ u2)%list |})
                | (Returns tp, w3) =>
                    let u3 := upload_if_rows (Main.PrecipTable tp)
                                             "noaa_us_precipitation" in
                    (Returns tt,
                     {| Main.s_world := w3;
                        Main.s_uploads :=
                          (Main.s_uploads s ++ u1 ++ u2 ++ u3)%list |})
                end
            end
        end
    end.
Proof.
  unfold Main.main, Main.obind, Main.validate_environment, Main.call.
  destruct validation as [[]|x]; [|reflexivity].
  destruct s as [w ups]; cbn [Main.s_world Main.s_uploads].
  destruct (GlobalTemperatureAnomalies.process_global_temperature_anomalies e w)
    as [[tg|x] w1]; [|reflexivity].
  unfold upload_if_rows; cbn [Main.rows_in].
  destruct (0 <? num_rows tg);
    unfold Main.upload_data, Main.oret, append;
    cbn [Main.s_world Main.s_uploads];
    (destruct (RegionalClimateData.process_regional_climate_data e w1)
      as [[tr|x] w2]; [|now rewrite ?app_nil_r]);
    (destruct (0 <? num_rows tr);
     cbn [Main.s_world Main.s_uploads];
     (destruct (PrecipitationData.process_precipitation_data e w2)
       as [[tp|x] w3]; [|now rewrite ?app_nil_r, <- ?app_assoc]);
     destruct (0 <? num_rows tp);
     cbn [Main.s_world Main.s_uploads];
     now rewrite ?app_nil_r, <- ?app_assoc).
Qed.

(** The destination of each kind of table, and the destinations in the
    order of the orchestrator. *)
Definition destination_of (t : Main.any_table) : string :=
  match t with
  | Main.GlobalTable _ => "noaa_global_temperature_anomalies"
  | Main.RegionalTable _ => "noaa_regional_climate_summaries"
  | Main.PrecipTable _ => "noaa_us_precipitation"
  end.

Definition destinations : list string :=
  [ "noaa_global_temperature_anomalies";
    "noaa_regional_climate_summaries";
    "noaa_us_precipitation" ].

Definition well_uploaded (u : Main.upload) : Prop :=
  0 < Main.rows_in (Main.up_table u)
  /\ Main.up_name u = destination_of (Main.up_table u).

Lemma upload_if_rows_well (t : Main.any_table) :
  Forall well_uploaded (upload_if_rows t (destination_of t)).
Proof.
  unfold upload_if_rows. destruct (0 <? Main.rows_in t) eqn:E; [|constructor].
  apply Z.ltb_lt in E. repeat constructor; assumption.
Qed.

Lemma upload_if_rows_names (t : Main.any_table) (name : string) :
  map Main.up_name (upload_if_rows t name)
  = if 0 <? Main.rows_in t then [name] else [].
Proof. unfold upload_if_rows. now destruct (0 <? Main.rows_in t). Qed.

(** X3. Whatever an orchestrator run does, the uploads it adds are tables
    with at least one row, each under the destination name of its
    dataset, at most one per dataset and in the fixed order anomalies,
    regional summaries, precipitation. *)
Theorem main_uploads_only_nonempty_in_order :
  forall validation e s r s',
    Main.main validation e s = (r, s') ->
    exists ups,
      Main.s_uploads s' = (Main.s_uploads s ++ ups)%list
      /\ Forall well_uploaded ups
      /\ exists keep : string -> bool,
          map Main.up_name ups = filter keep destinations.
Proof.
  intros validation e s r s'. rewrite main_run.
  destruct validation as [[]|x].
  2:{ intros H; inversion H; subst. exists []. rewrite app_nil_r.
      repeat split; [constructor|]. exists (fun _ => false). reflexivity. }
  destruct (GlobalTemperatureAnomalies.process_global_temperature_anomalies _ _)
    as [[tg|x] w1].
  2:{ intros H; inversion H; subst; cbn. exists []. rewrite app_nil_r.
      repeat split; [constructor|]. exists (fun _ => false). reflexivity. }
  cbv zeta.
  pose proof (upload_if_rows_well (Main.GlobalTable tg)) as W1.
  pose proof (upload_if_rows_names (Main.GlobalTable tg)
                "noaa_global_temperature_anomalies") as N1.
  cbn [destination_of] in W1.
  set (u1 := upload_if_rows (Main.GlobalTable tg) _) in *.
  destruct (RegionalClimateData.process_regional_climate_data e w1)
    as [[tr|x] w2].
  2:{ intros H; inversion H; subst; cbn. exists u1.
      repeat split; [exact W1|].
      exists (fun n => String.eqb n "noaa_global_temperature_anomalies"
                       && (0 <? Main.rows_in (Main.GlobalTable tg))).
      rewrite N1. cbn. now destruct (0 <? num_rows tg). }
  pose proof (upload_if_rows_well (Main.RegionalTable tr)) as W2.
  pose proof (upload_if_rows_names (Main.RegionalTable tr)
                "noaa_regional_climate_summaries") as N2.
  cbn [destination_of] in W2.
  set (u2 := upload_if_rows (Main.RegionalTable tr) _) in *.
  destruct (PrecipitationData.process_precipitation_data e w2)
    as [[tp|x] w3].
  2:{ intros H; inversion H; subst; cbn. exists (u1 ++ u2)%list.
      repeat split; [apply Forall_app; now split|].
      exists (fun n =>
                (String.eqb n "noaa_global_temperature_anomalies"
                 && (0 <? Main.rows_in (Main.GlobalTable tg)))
                || (String.eqb n "noaa_regional_climate_summaries"
                    && (0 <? Main.rows_in (Main.RegionalTable tr)))).
      rewrite map_app, N1, N2. cbn.
      now destruct (0 <? num_rows tg), (0 <? num_rows tr). }
  pose proof (upload_if_rows_well (Main.PrecipTable tp)) as W3.
  pose proof (upload_if_rows_names (Main.PrecipTable tp)
                "noaa_us_precipitation") as N3.
  cbn [destination_of] in W3.
  set (u3 := upload_if_rows (Main.PrecipTable tp) _) in *.
  intros H; inversion H; subst; cbn. exists (u1 ++ u2 ++ u3)%list.
  repeat split; [repeat (apply Forall_app; split); assumption|].
  exists (fun n =>
            (String.eqb n "noaa_global_temperature_anomalies"
             && (0 <? Main.rows_in (Main.GlobalTable tg)))
            || (String.eqb n "noaa_regional_climate_summaries"
                && (0 <? Main.rows_in (Main.RegionalTable tr)))
            || (String.eqb n "noaa_us_precipitation"
                && (0 <? Main.rows_in (Main.PrecipTable tp)))).
  rewrite !map_app, N1, N2, N3. cbn.
  now destruct (0 <? num_rows tg), (0 <? num_rows tr), (0 <? num_rows tp).
Qed.

Definition fresh_site : Main.site :=
  {| Main.s_world := empty_world; Main.s_uploads := [] |}.

Lemma main_uploads_only_nonempty_in_order_witness :
  exists r s' ups,
    Main.main (Returns tt) nineties_env fresh_site = (r, s')
    /\ Main.s_uploads s' = ([] ++ ups)%list
    /\ Forall well_uploaded ups
    /\ map Main.up_name ups = ["noaa_us_precipitation"].
Proof.
  destruct (Main.main (Returns tt) nineties_env fresh_site) as [r s'] eqn:E.
  destruct (main_uploads_only_nonempty_in_order _ _ _ _ _ E)
    as [ups [Hu [Hw _]]].
  exists r, s', ups. split; [reflexivity|]. split; [exact Hu|].
  split; [exact Hw|].
  assert (Hn : map Main.up_name (Main.s_uploads s') = ["noaa_us_precipitation"])
    by (vm_compute in E; inversion E; reflexivity).
  rewrite Hu in Hn. exact Hn.
Defined.

(** Two clock values of the same calendar day. *)
Definition same_day (d1 d2 : datetime) : Prop :=
  dt_year d1 = dt_year d2 /\ dt_month d1 = dt_month d2 /\ dt_day d1 = dt_day d2.

Lemma same_day_periods (d1 d2 : datetime) :
  same_day d1 d2 ->
  strftime_Ymd d1 = strftime_Ymd d2 /\ strftime_Ym d1 = strftime_Ym d2.
Proof.
  intros (Hy & Hm & Hd). unfold strftime_Ymd, strftime_Ym.
  now rewrite Hy, Hm, Hd.
Qed.

(** After an orchestrator run that returned, all three gates are closed
    for the day of the run. *)
Lemma main_returned_closed validation e s s1 :
  Main.main validation e s = (Returns tt, s1) ->
  closed "global_temperature_anomalies" strftime_Ymd e (Main.s_world s1)
  /\ closed "regional_climate_data" strftime_Ym e (Main.s_world s1)
  /\ closed "precipitation_data" strftime_Ym e (Main.s_world s1).
Proof.
  rewrite main_run. destruct validation as [[]|x]; [|discriminate].
  destruct (GlobalTemperatureAnomalies.process_global_temperature_anomalies _ _)
    as [[tg|x] w1] eqn:Eg; [|discriminate].
  destruct (RegionalClimateData.process_regional_climate_data e w1)
    as [[tr|x] w2] eqn:Er; [|discriminate].
  destruct (PrecipitationData.process_precipitation_data e w2)
    as [[tp|x] w3] eqn:Ep; [|discriminate].
  intros H; inversion H; subst; clear H. cbn [Main.s_world]. unfold closed.
  pose proof (returned_closed _ _ _ _ _ global_shape _ _ _ _ Eg) as Cg.
  pose proof (returned_closed _ _ _ _ _ regional_shape _ _ _ _ Er) as Cr.
  pose proof (returned_closed _ _ _ _ _ precip_shape _ _ _ _ Ep) as Cp.
  unfold GlobalFacts.NAME, RegionalFacts.NAME, PrecipFacts.NAME in *.
  repeat split.
  - rewrite (other_states_kept _ _ _ _ _ precip_shape _ _ _ _
               "global_temperature_anomalies" Ep) by discriminate.
    rewrite (other_states_kept _ _ _ _ _ regional_shape _ _ _ _
               "global_temperature_anomalies" Er) by discriminate.
    exact Cg.
  - rewrite (other_states_kept _ _ _ _ _ precip_shape _ _ _ _
               "regional_climate_data" Ep) by discriminate.
    exact Cr.
  - exact Cp.
Qed.

(** X4. An orchestrator run on the calendar day of a run that returned
    reads the three run states and does nothing else: no request, no
    state write, no upload. *)
Theorem main_second_run_same_day :
  forall validation e1 e2 s s1,
    Main.main validation e1 s = (Returns tt, s1) ->
    same_day (now e2) (now e1) ->
    Main.main (Returns tt) e2 s1
    = (Returns tt,
       {| Main.s_world :=
            extend_trace (Main.s_world s1)
              [ LoadState "global_temperature_anomalies";
                LoadState "regional_climate_data";
                LoadState "precipitation_data" ];
          Main.s_uploads := Main.s_uploads s1 |}).
Proof.
  intros validation e1 e2 s s1 Hrun Hday.
  destruct (main_returned_closed _ _ _ _ Hrun) as (Cg & Cr & Cp).
  destruct (same_day_periods _ _ Hday) as [Hd Hm].
  unfold closed in *. rewrite <- Hd in Cg. rewrite <- Hm in Cr, Cp.
  rewrite main_run.
  rewrite (closed_run _ _ _ _ _ global_shape e2 (Main.s_world s1) Cg).
  cbv zeta.
  rewrite (closed_run _ _ _ _ _ regional_shape e2
             (extend_trace (Main.s_world s1) [LoadState GlobalFacts.NAME]) Cr).
  rewrite (closed_run _ _ _ _ _ precip_shape e2
             (extend_trace
                (extend_trace (Main.s_world s1) [LoadState GlobalFacts.NAME])
                [LoadState RegionalFacts.NAME]) Cp).
  rewrite !extend_trace_app. cbn. now rewrite !app_nil_r.
Qed.

Lemma main_second_run_same_day_witness :
  exists s1,
    Main.main (Returns tt) nineties_env fresh_site = (Returns tt, s1)
    /\ same_day (now nineties_env) (now nineties_env)
    /\ Main.s_uploads
         (snd (Main.main (Returns tt) nineties_env s1))
       = Main.s_uploads s1.
Proof.
  destruct (Main.main (Returns tt) nineties_env fresh_site) as [r s1] eqn:E.
  assert (r = Returns tt) as -> by (vm_compute in E; inversion E; reflexivity).
  exists s1. split; [reflexivity|].
  assert (Hd : same_day (now nineties_env) (now nineties_env))
    by (repeat split).
  split; [exact Hd|].
  now rewrite (main_second_run_same_day _ _ nineties_env _ _ E Hd).
Defined.

(** An event of the processor of dataset [name]: a request, or a state
    call under that name. *)
Definition event_of (name : string) (ev : event) : Prop :=
  match ev with
  | LoadState n => n = name
  | SaveState n _ => n = name
  | Get _ => True
  end.

Lemma shape_events {R} (proc : M (table R)) schema name period work :
  gated_shape proc schema name period work ->
  (forall e, Forall is_get (snd (work e))) ->
  forall e w r w',
    proc e w = (r, w') ->
    exists tr,
      w_trace w' = (w_trace w ++ tr)%list /\ Forall (event_of name) tr.
Proof.
  intros Hs Hg e w r w'. rewrite Hs.
  assert (Hgets : Forall (event_of name) (snd (work e))).
  { eapply Forall_impl; [|apply Hg]. intros [| |] H; simpl in *; tauto. }
  destruct (option_string_eqb _ _).
  - intros H; inversion H; subst. exists [LoadState name].
    split; [reflexivity|]. repeat constructor.
  - destruct (work e) as [[rows|ex] tr]; cbn [snd] in Hgets;
      intros H; inversion H; subst; eexists; (split; [reflexivity|]).
    + constructor; [reflexivity|]. apply Forall_app; split; [exact Hgets|].
      repeat constructor.
    + constructor; [reflexivity|exact Hgets].
Qed.


Definition failing_remote (url : string) : response :=
  {| status_code := 500; json := empty_payload |}.

Definition failing_env : env := {| now := sample_now; remote := failing_remote |}.


(* ================================================================== *)
(** ** Order facts about the arithmetic of the calculator *)
(* ================================================================== *)

From Stdlib Require Import Lqa.

Lemma round_half_even_mono (x y : Q) :
  (x <= y)%Q -> round_half_even x <= round_half_even y.
Proof.
  intros Hxy. unfold round_half_even.
  pose proof (Qfloor_resp_le x y Hxy) as Hf.
  destruct (Z.eq_dec (Qfloor x) (Qfloor y)) as [E|E].
  - rewrite E.
    assert (Hr : (x - inject_Z (Qfloor y) <= y - inject_Z (Qfloor y))%Q) by lra.
    destruct (Qcompare_spec (x - inject_Z (Qfloor y)) (1 # 2)) as [Ex|Ex|Ex];
      destruct (Qcompare_spec (y - inject_Z (Qfloor y)) (1 # 2)) as [Ey|Ey|Ey];
      destruct (Z.even (Qfloor y)); try lia; exfalso; lra.
  - destruct (Qcompare (x - inject_Z (Qfloor x)) (1 # 2));
      destruct (Qcompare (y - inject_Z (Qfloor y)) (1 # 2));
      destruct (Z.even (Qfloor x)); destruct (Z.even (Qfloor y)); lia.
Qed.

Lemma pow10_pos (n : nat) : (0 < inject_Z (10 ^ Z.of_nat n))%Q.
Proof.
  change 0%Q with (inject_Z 0). rewrite <- Zlt_Qlt.
  apply Z.pow_pos_nonneg; lia.
Qed.

(** Rounding keeps the order. *)
Lemma round_mono (x y : Q) (n : nat) : (x <= y)%Q -> (round x n <= round y n)%Q.
Proof.
  intros H. unfold round. apply Qred_le.
  pose proof (pow10_pos n) as Hp.
  set (p := inject_Z (10 ^ Z.of_nat n)) in *.
  assert (Hm : (x * p <= y * p)%Q) by (apply Qmult_le_compat_r; lra).
  apply round_half_even_mono in Hm. rewrite Zle_Qle in Hm.
  unfold Qdiv. apply Qmult_le_compat_r; [exact Hm|].
  apply Qinv_le_0_compat. lra.
Qed.

Lemma round_half_even_comp (x y : Q) :
  (x == y)%Q -> round_half_even x = round_half_even y.
Proof.
  intros H. unfold round_half_even.
  assert (Hf : Qfloor x = Qfloor y) by (now rewrite H).
  rewrite Hf.
  assert (Hc : Qcompare (x - inject_Z (Qfloor y)) (1 # 2)
               = Qcompare (y - inject_Z (Qfloor y)) (1 # 2))
    by (now rewrite H).
  now rewrite Hc.
Qed.

(** Rounding does not see how a number is written. *)
Lemma round_comp (x y : Q) (n : nat) : (x == y)%Q -> round x n = round y n.
Proof.
  intros H. unfold round.
  assert (Hm : (x * inject_Z (10 ^ Z.of_nat n)
                == y * inject_Z (10 ^ Z.of_nat n))%Q) by (now rewrite H).
  now rewrite (round_half_even_comp _ _ Hm).
Qed.

Lemma round_zero (n : nat) : round 0 n = 0%Q.
Proof.
  unfold round.
  assert (H0 : round_half_even (0 * inject_Z (10 ^ Z.of_nat n)) = 0).
  { rewrite (round_half_even_comp _ 0); [reflexivity|ring]. }
  rewrite H0. change 0%Q with (Qred 0). apply Qred_complete.
  unfold Qdiv. ring.
Qed.

Lemma round_nonneg (x : Q) (n : nat) : (0 <= x)%Q -> (0 <= round x n)%Q.
Proof.
  intros H. rewrite <- (round_zero n) at 1. now apply round_mono.
Qed.

Lemma Qltb_false (x y : Q) : Qltb x y = false <-> (y <= x)%Q.
Proof.
  split; intros H.
  - apply Qnot_lt_le. intros Hlt. apply Qltb_lt in Hlt. congruence.
  - destruct (Qltb x y) eqn:E; [|reflexivity].
    apply Qltb_lt in E. exfalso. exact (Qlt_not_le _ _ E H).
Qed.

(** [min] and [max] return an element of the list that bounds it. *)
Lemma fold_min_spec (l : list Q) (m : Q) :
  let r := fold_left (fun m y => if Qltb y m then y else m) l m in
  (r = m \/ In r l) /\ (r <= m)%Q /\ forall y, In y l -> (r <= y)%Q.
Proof.
  revert m; induction l as [|y l IH]; intros m; cbn [fold_left].
  - repeat split; [now left|apply Qle_refl|contradiction].
  - destruct (IH (if Qltb y m then y else m)) as (Hin & Hle & Hall).
    set (r := fold_left _ l _) in *.
    assert (Hm : ((if Qltb y m then y else m) <= m
                  /\ (if Qltb y m then y else m) <= y)%Q).
    { destruct (Qltb y m) eqn:E.
      - apply Qltb_lt in E. split; [lra|apply Qle_refl].
      - apply Qltb_false in E. split; [apply Qle_refl|exact E]. }
    destruct Hm as [Hm1 Hm2]. repeat split.
    + destruct Hin as [Hin|Hin]; [|right; now right].
      rewrite Hin. destruct (Qltb y m); [right; now left|now left].
    + lra.
    + intros z [<-|Hz]; [lra|now apply Hall].
Qed.

Lemma fold_max_spec (l : list Q) (m : Q) :
  let r := fold_left (fun m y => if Qltb m y then y else m) l m in
  (r = m \/ In r l) /\ (m <= r)%Q /\ forall y, In y l -> (y <= r)%Q.
Proof.
  revert m; induction l as [|y l IH]; intros m; cbn [fold_left].
  - repeat split; [now left|apply Qle_refl|contradiction].
  - destruct (IH (if Qltb m y then y else m)) as (Hin & Hle & Hall).
    set (r := fold_left _ l _) in *.
    assert (Hm : (m <= (if Qltb m y then y else m)
                  /\ y <= (if Qltb m y then y else m))%Q).
    { destruct (Qltb m y) eqn:E.
      - apply Qltb_lt in E. split; [lra|apply Qle_refl].
      - apply Qltb_false in E. split; [apply Qle_refl|exact E]. }
    destruct Hm as [Hm1 Hm2]. repeat split.
    + destruct Hin as [Hin|Hin]; [|right; now right].
      rewrite Hin. destruct (Qltb m y); [right; now left|now left].
    + lra.
    + intros z [<-|Hz]; [lra|now apply Hall].
Qed.

Lemma min_spec (l : list Q) :
  l <> [] -> In (min l) l /\ forall y, In y l -> (min l <= y)%Q.
Proof.
  destruct l as [|x l]; [congruence|]; intros _. unfold min.
  destruct (fold_min_spec l x) as (Hin & Hle & Hall). split.
  - destruct Hin as [->|Hin]; [now left|now right].
  - intros y [<-|Hy]; [exact Hle|now apply Hall].
Qed.

Lemma max_spec (l : list Q) :
  l <> [] -> In (max l) l /\ forall y, In y l -> (y <= max l)%Q.
Proof.
  destruct l as [|x l]; [congruence|]; intros _. unfold max.
  destruct (fold_max_spec l x) as (Hin & Hle & Hall). split.
  - destruct Hin as [->|Hin]; [now left|now right].
  - intros y [<-|Hy]; [exact Hle|now apply Hall].
Qed.

Lemma inject_len_cons {A} (x : A) (l : list A) :
  (inject_Z (len (x :: l)) == inject_Z (len l) + 1)%Q.
Proof.
  unfold len. cbn [List.length]. rewrite Nat2Z.inj_succ.
  unfold Z.succ. now rewrite inject_Z_plus.
Qed.

Lemma sum_lower (l : list Q) (a acc : Q) :
  (forall x, In x l -> (a <= x)%Q) ->
  (acc + inject_Z (len l) * a <= fold_left Qplus l acc)%Q.
Proof.
  revert acc; induction l as [|x l IH]; intros acc H.
  - cbn [fold_left]. change (inject_Z (len (@nil Q))) with 0%Q. lra.
  - cbn [fold_left]. rewrite inject_len_cons.
    specialize (IH (acc + x)%Q (fun y Hy => H y (or_intror Hy))).
    pose proof (H x (or_introl eq_refl)). lra.
Qed.

Lemma sum_upper (l : list Q) (a acc : Q) :
  (forall x, In x l -> (x <= a)%Q) ->
  (fold_left Qplus l acc <= acc + inject_Z (len l) * a)%Q.
Proof.
  revert acc; induction l as [|x l IH]; intros acc H.
  - cbn [fold_left]. change (inject_Z (len (@nil Q))) with 0%Q. lra.
  - cbn [fold_left]. rewrite inject_len_cons.
    specialize (IH (acc + x)%Q (fun y Hy => H y (or_intror Hy))).
    pose proof (H x (or_introl eq_refl)). lra.
Qed.

Lemma len_pos {A} (l : list A) : l <> [] -> (0 < inject_Z (len l))%Q.
Proof.
  intros H. change 0%Q with (inject_Z 0). rewrite <- Zlt_Qlt.
  unfold len. destruct l; [congruence|simpl; lia].
Qed.

(** The mean lies between any bounds of the list. *)
Lemma mean_bounds (l : list Q) (a b : Q) :
  l <> [] ->
  (forall x, In x l -> (a <= x <= b)%Q) ->
  (a <= mean l <= b)%Q.
Proof.
  intros Hne H. pose proof (len_pos l Hne) as Hp. unfold mean, sum.
  pose proof (sum_lower l a 0 (fun x Hx => proj1 (H x Hx))) as Hl.
  pose proof (sum_upper l b 0 (fun x Hx => proj2 (H x Hx))) as Hu.
  split.
  - apply Qle_shift_div_l; [exact Hp|]. lra.
  - apply Qle_shift_div_r; [exact Hp|]. lra.
Qed.

(* ================================================================== *)
(** ** What the calculator returns *)
(* ================================================================== *)

Lemma numbers_length (l : list (option Q)) (a : list Q) :
  RegionalClimateData.numbers l = Some a -> List.length a = List.length l.
Proof.
  revert a; induction l as [|[x|] l IH]; intros a; simpl.
  - intros H; inversion H; reflexivity.
  - destruct (RegionalClimateData.numbers l); [|discriminate].
    intros H; inversion H; subst; simpl. now rewrite (IH _ eq_refl).
  - discriminate.
Qed.

(** Every result of the calculator is the statistics of a list with one
    number per entry of the series. *)
Lemma calculate_trend_statistics_returned (d : series)
      (st : RegionalClimateData.stats) :
  RegionalClimateData.calculate_trend_statistics d = Returns (Some st) ->
  exists a y,
    RegionalClimateData.numbers
      (RegionalClimateData.anomalies_of d (sorted (keys d))) = Some a
    /\ int (last (sorted (keys d)) "") = Some y
    /\ st = stats_of a y
    /\ List.length a = List.length d.
Proof.
  unfold RegionalClimateData.calculate_trend_statistics.
  destruct d as [|x d]; [discriminate|].
  destruct (RegionalClimateData.numbers _) as [a|] eqn:Ea; [|discriminate].
  destruct (int _) as [y|] eqn:Ey.
  - intros H. exists a, y. split; [reflexivity|]. split; [reflexivity|].
    split.
    + unfold stats_of. destruct (2 <=? len a); inversion H; reflexivity.
    + rewrite (numbers_length _ _ Ea).
      unfold RegionalClimateData.anomalies_of. rewrite length_map.
      rewrite <- (Permutation_length (sorted_permutation _)).
      unfold keys. now rewrite length_map.
  - destruct (2 <=? len a); discriminate.
Qed.

(** The statistics of a non-empty list are consistent with each other. *)
Lemma stats_of_consistent (a : list Q) (y : Z) :
  a <> [] ->
  let st := stats_of a y in
  (RegionalClimateData.min_anomaly st <= RegionalClimateData.avg_anomaly st)%Q
  /\ (RegionalClimateData.avg_anomaly st <= RegionalClimateData.max_anomaly st)%Q
  /\ (exists x,
         RegionalClimateData.latest_anomaly st = Some x
         /\ (RegionalClimateData.min_anomaly st <= x)%Q
         /\ (x <= RegionalClimateData.max_anomaly st)%Q)
  /\ (0 <= RegionalClimateData.trend_magnitude st)%Q
  /\ RegionalClimateData.latest_year st = Some y.
Proof.
  intros Hne st. unfold st, stats_of;
    cbn [RegionalClimateData.min_anomaly RegionalClimateData.avg_anomaly
         RegionalClimateData.max_anomaly RegionalClimateData.latest_anomaly
         RegionalClimateData.trend_magnitude RegionalClimateData.latest_year].
  destruct (min_spec a Hne) as [_ Hmin].
  destruct (max_spec a Hne) as [_ Hmax].
  assert (Hmean : (min a <= mean a <= max a)%Q).
  { apply mean_bounds; [exact Hne|]. intros x Hx. split; auto. }
  unfold mean, sum in Hmean.
  repeat split.
  - apply round_mono. apply Hmean.
  - apply round_mono. apply Hmean.
  - eexists. split; [reflexivity|].
    pose proof (last_in a 0%Q Hne) as Hl.
    split; apply round_mono; auto.
  - apply round_nonneg. destruct (2 <=? len a); [apply Qabs_nonneg|lra].
Qed.



Lemma lookup_some_in (d : series) (k : string) (v : entry) :
  lookup d k = Some v -> In (k, v) d.
Proof.
  induction d as [|[k' v'] d IH]; simpl; [discriminate|].
  destruct (String.eqb_spec k' k) as [->|_].
  - intros H; inversion H; now left.
  - intros H; right; auto.
Qed.

Lemma numbers_in (l : list (option Q)) (a : list Q) (x : Q) :
  RegionalClimateData.numbers l = Some a -> In x a -> In (Some x) l.
Proof.
  revert a; induction l as [|[y|] l IH]; intros a; simpl.
  - intros H; inversion H; contradiction.
  - destruct (RegionalClimateData.numbers l); [|discriminate].
    intros H; inversion H; subst. intros [->|Hin]; [now left|].
    right. eapply IH; eauto.
  - discriminate.
Qed.

(** Every number the calculator works on is the anomaly, or the zero, of
    an entry of the series. *)
Lemma anomalies_from_entries (d : series) (ks : list string) (a : list Q) (x : Q) :
  RegionalClimateData.numbers (RegionalClimateData.anomalies_of d ks) = Some a ->
  In x a ->
  exists k v, In (k, v) d /\ RegionalClimateData.anomaly_or_zero v = Some x.
Proof.
  intros Ha Hx. pose proof (numbers_in _ _ _ Ha Hx) as Hin.
  unfold RegionalClimateData.anomalies_of in Hin.
  apply in_map_iff in Hin as [k [Hk _]].
  destruct (lookup d k) as [v|] eqn:E; [|discriminate].
  exists k, v. split; [now apply lookup_some_in|exact Hk].
Qed.

Lemma in_firstn {A} (n : nat) (l : list A) (x : A) :
  In x (firstn n l) -> In x l.
Proof.
  intros H. rewrite <- (firstn_skipn n l). apply in_or_app. now left.
Qed.

Lemma in_skipn {A} (n : nat) (l : list A) (x : A) :
  In x (skipn n l) -> In x l.
Proof.
  intros H. rewrite <- (firstn_skipn n l). apply in_or_app. now right.
Qed.

Lemma mean_of_equal (l : list Q) (c : Q) :
  l <> [] -> (forall x, In x l -> (x == c)%Q) -> (mean l == c)%Q.
Proof.
  intros Hne H.
  assert (Hb : (c <= mean l <= c)%Q).
  { apply mean_bounds; [exact Hne|]. intros x Hx. rewrite (H x Hx). lra. }
  lra.
Qed.


Definition flat_years : series :=
  [ ("2000", {| value := Absent; anomaly := num 3 10 |});
    ("2001", {| value := Absent; anomaly := num 3 10 |});
    ("2002", {| value := Absent; anomaly := num 3 10 |}) ].


(* ================================================================== *)
(** ** The calculator and the order of the keys in the payload *)
(* ================================================================== *)

(** The string order is transitive. *)
Lemma string_compare_not_gt_trans (a b c : string) :
  String.compare a b <> Gt -> String.compare b c <> Gt ->
  String.compare a c <> Gt.
Proof.
  revert b c; induction a as [|x a IH]; intros [|y b] [|z c];
    cbn [String.compare]; try congruence.
  unfold Ascii.compare.
  destruct (N.compare_spec (N_of_ascii x) (N_of_ascii y)) as [E1|E1|E1];
    destruct (N.compare_spec (N_of_ascii y) (N_of_ascii z)) as [E2|E2|E2];
    destruct (N.compare_spec (N_of_ascii x) (N_of_ascii z)) as [E3|E3|E3];
    try congruence; try lia; intros H1 H2; eauto.
Qed.

Lemma string_leb_trans (a b c : string) :
  String.leb a b = true -> String.leb b c = true -> String.leb a c = true.
Proof.
  unfold String.leb. intros H1 H2.
  pose proof (string_compare_not_gt_trans a b c) as H.
  destruct (String.compare a b); try discriminate;
    destruct (String.compare b c); try discriminate;
    destruct (String.compare a c); try reflexivity;
    exfalso; apply H; congruence.
Qed.

(** Two sorted lists with the same elements are the same list. *)
Lemma sorted_unique (l1 l2 : list string) :
  StronglySorted (fun s t => is_true (String.leb s t)) l1 ->
  StronglySorted (fun s t => is_true (String.leb s t)) l2 ->
  Permutation l1 l2 -> l1 = l2.
Proof.
  revert l2; induction l1 as [|a l1 IH]; intros l2 S1 S2 P.
  - apply Permutation_nil in P. now subst.
  - destruct l2 as [|b l2];
      [apply Permutation_sym, Permutation_nil in P; discriminate|].
    apply StronglySorted_inv in S1 as [S1 F1].
    apply StronglySorted_inv in S2 as [S2 F2].
    rewrite Forall_forall in F1, F2.
    assert (a = b).
    { assert (Ha : In a (b :: l2))
        by (eapply Permutation_in; [exact P|now left]).
      assert (Hb : In b (a :: l1))
        by (eapply Permutation_in; [apply Permutation_sym; exact P|now left]).
      destruct Ha as [->|Ha]; [reflexivity|].
      destruct Hb as [->|Hb]; [reflexivity|].
      apply String.leb_antisym; [apply F1|apply F2]; assumption. }
    subst b. f_equal. apply IH; auto.
    now apply Permutation_cons_inv in P.
Qed.

Lemma sorted_strongly (l : list string) :
  StronglySorted (fun s t => is_true (String.leb s t)) (sorted l).
Proof.
  apply Sorted_StronglySorted.
  - intros a b c. apply string_leb_trans.
  - apply StrSort.Sorted_sort.
Qed.

(** [sorted] forgets the order of its argument. *)
Lemma sorted_of_permutation (l1 l2 : list string) :
  Permutation l1 l2 -> sorted l1 = sorted l2.
Proof.
  intros P. apply sorted_unique; try apply sorted_strongly.
  eapply Permutation_trans; [apply Permutation_sym, sorted_permutation|].
  eapply Permutation_trans; [exact P|apply sorted_permutation].
Qed.

Lemma in_lookup (d : series) (k : string) (v : entry) :
  well_formed d -> In (k, v) d -> lookup d k = Some v.
Proof.
  unfold well_formed.
  induction d as [|[k' v'] d IH]; simpl; intros Hn Hin; [contradiction|].
  inversion Hn as [|? ? Hk Hd]; subst.
  destruct Hin as [E|Hin].
  - inversion E; subst. now rewrite String.eqb_refl.
  - destruct (String.eqb_spec k' k) as [->|_]; [|now apply IH].
    exfalso. apply Hk. unfold keys. apply in_map_iff.
    exists (k, v). split; [reflexivity|exact Hin].
Qed.

(** A mapping is looked up the same way however its items are ordered. *)
Lemma lookup_of_permutation (d d' : series) (k : string) :
  well_formed d -> Permutation d d' -> lookup d k = lookup d' k.
Proof.
  intros Hw P.
  assert (Hw' : well_formed d').
  { unfold well_formed, keys in *.
    eapply Permutation_NoDup; [apply Permutation_map; exact P|exact Hw]. }
  destruct (lookup d k) as [v|] eqn:E.
  - symmetry. apply in_lookup; [exact Hw'|].
    eapply Permutation_in; [exact P|now apply lookup_some_in].
  - destruct (lookup d' k) as [v'|] eqn:E'; [|reflexivity].
    apply lookup_some_in in E'.
    apply (Permutation_in _ (Permutation_sym P)) in E'.
    apply (in_lookup d k v' Hw) in E'. congruence.
Qed.

(** X8. The statistics depend on the yearly mapping only, not on the
    order in which the payload lists its years. *)
Theorem trend_statistics_ignore_item_order :
  forall d d' : series,
    well_formed d -> Permutation d d' ->
    RegionalClimateData.calculate_trend_statistics d
    = RegionalClimateData.calculate_trend_statistics d'.
Proof.
  intros d d' Hw P.
  assert (Hk : sorted (keys d) = sorted (keys d'))
    by (apply sorted_of_permutation; unfold keys; now apply Permutation_map).
  assert (Ha : forall ks, RegionalClimateData.anomalies_of d ks
                          = RegionalClimateData.anomalies_of d' ks).
  { intros ks. unfold RegionalClimateData.anomalies_of. apply map_ext.
    intros k. now rewrite (lookup_of_permutation d d' k Hw P). }
  unfold RegionalClimateData.calculate_trend_statistics.
  destruct d as [|x d], d' as [|x' d'].
  - reflexivity.
  - apply Permutation_nil in P. discriminate.
  - apply Permutation_sym, Permutation_nil in P. discriminate.
  - now rewrite Hk, Ha.
Qed.

Lemma trend_statistics_ignore_item_order_witness :
  well_formed four_years
  /\ Permutation four_years (rev four_years)
  /\ RegionalClimateData.calculate_trend_statistics four_years
     = RegionalClimateData.calculate_trend_statistics (rev four_years).
Proof.
  split; [exact four_years_well_formed|].
  split; [apply Permutation_rev|].
  apply trend_statistics_ignore_item_order;
    [exact four_years_well_formed|apply Permutation_rev].
Defined.

Lemma last_map {A B} (g : A -> B) (l : list A) (d1 : B) (d2 : A) :
  l <> [] -> last (map g l) d1 = g (last l d2).
Proof.
  induction l as [|x l IH]; [congruence|]; intros _.
  destruct l as [|y l]; [reflexivity|].
  cbn [map last] in *. apply IH. discriminate.
Qed.

Lemma strongly_sorted_last (l : list string) (k : string) :
  StronglySorted (fun s t => year_of s < year_of t) l ->
  In k l -> year_of k <= year_of (last l "").
Proof.
  induction l as [|x l IH]; intros S Hin; [contradiction|].
  apply StronglySorted_inv in S as [S F].
  destruct l as [|y l].
  - destruct Hin as [->|[]]. simpl. lia.
  - change (last (x :: y :: l) "") with (last (y :: l) "").
    destruct Hin as [->|Hin]; [|now apply IH].
    rewrite Forall_forall in F.
    assert (Hl : In (last (y :: l) "") (y :: l)) by (apply last_in; discriminate).
    specialize (F _ Hl). lia.
Qed.



(* ================================================================== *)
(** ** The records of one combination of the anomaly processor *)
(* ================================================================== *)

(** The entries that give a record: those with a non-null anomaly. *)
Definition has_anomaly (it : string * entry) : bool :=
  match member_get (anomaly (snd it)) with
  | Some _ => true
  | None => false
  end.

(** The record of one entry of a series fetched for the labels [rn] and
    [sn], with the metadata of the payload. *)
Definition anomaly_row_of (rn sn base ttl : string) (ts : datetime)
           (it : string * entry) (r : GlobalTemperatureAnomalies.record) : Prop :=
  int (fst it) = Some (GlobalTemperatureAnomalies.year r)
  /\ member_get (anomaly (snd it))
     = Some (GlobalTemperatureAnomalies.temperature_anomaly_celsius r)
  /\ GlobalTemperatureAnomalies.region r = rn
  /\ GlobalTemperatureAnomalies.surface_type r = sn
  /\ GlobalTemperatureAnomalies.base_period r = base
  /\ GlobalTemperatureAnomalies.description r = ttl
  /\ GlobalTemperatureAnomalies.data_source r = "NOAA Climate at a Glance"
  /\ GlobalTemperatureAnomalies.updated_at r = ts.

Lemma yearly_loop_rows e ts rn sn base ttl (data : series)
      (rows : list GlobalTemperatureAnomalies.record) :
  fst (run_all (step_of e (GlobalTemperatureAnomalies.yearly_body
                             rn sn base ttl ts)) data) = Returns rows ->
  Forall2 (anomaly_row_of rn sn base ttl ts) (filter has_anomaly data) rows.
Proof.
  revert rows; induction data as [|[k v] data IH]; intros rows; simpl.
  - intros H; inversion H; constructor.
  - rewrite GlobalFacts.yearly_step.
    unfold GlobalFacts.yearly_rows, step_of,
      GlobalTemperatureAnomalies.yearly_body at 1.
    unfold has_anomaly at 1; cbn [snd].
    destruct (member_get (anomaly v)) as [a|] eqn:Ea.
    + destruct (int k) as [y|] eqn:Ey; simpl; [|discriminate].
      destruct (run_all _ data) as [[rs|ex] tr]; simpl in *; [|discriminate].
      intros H; inversion H; subst; clear H.
      constructor; [|now apply IH].
      unfold anomaly_row_of; cbn. repeat split; assumption.
    + simpl. destruct (run_all _ data) as [[rs|ex] tr]; simpl in *;
        [|discriminate].
      intros H; inversion H; subst. now apply IH.
Qed.

(** X10. When a combination of the anomaly processor is not skipped and
    its response is a success, the loop adds to the records exactly one
    record per entry of the series with a non-null anomaly, in the order
    of the series and after the records already there; each has the year
    and the anomaly of its entry, the labels of the combination, the base
    period and the title of the payload ("1901-2000" and "" when the
    payload has none), the fixed data source and the time of the run.
    Entries with a missing or null anomaly give no record. *)
Theorem anomaly_records_of_combination :
  forall e ts rc rn sc sn records out w w',
    skipped rc sc = false ->
    let resp := remote e (global_url rc sc 1850 (dt_year (now e))) in
    is_success (status_code resp) = true ->
    GlobalTemperatureAnomalies.surface_body rc rn ts (sc, sn) records e w
    = (Returns out, w') ->
    exists rows,
      out = (records ++ rows)%list
      /\ Forall2 (anomaly_row_of rn sn
                    (get_base_period (get_description (json resp)))
                    (get_title (get_description (json resp))) ts)
                 (filter has_anomaly (get_data (json resp))) rows.
Proof.
  intros e ts rc rn sc sn records out w w' Hk resp Hs.
  rewrite GlobalFacts.surface_run. unfold GlobalFacts.combination_step.
  cbn [fst snd]. rewrite Hk. unfold fetch_step; cbn [fst snd].
  fold resp. rewrite (fetch_result_success resp Hs).
  destruct (GlobalFacts.payload_rows e ts rn sn (json resp)) as [rows|ex] eqn:E;
    cbn [map_outcome]; intros H; inversion H; subst; clear H.
  exists rows. split; [reflexivity|].
  now apply (yearly_loop_rows e).
Qed.

Definition sparse_years : series :=
  [ ("1850", {| value := Absent; anomaly := num (-4) 10 |});
    ("1851", {| value := Absent; anomaly := Null |});
    ("1852", {| value := Absent; anomaly := Absent |});
    ("1853", {| value := Absent; anomaly := num 0 1 |}) ].

Definition sparse_remote (url : string) : response :=
  {| status_code := 200;
     json := {| p_description := None; p_data := Some sparse_years |} |}.

Definition sparse_env : env := {| now := sample_now; remote := sparse_remote |}.

Lemma anomaly_records_of_combination_witness :
  exists out w' rows,
    GlobalTemperatureAnomalies.surface_body "globe" "Global" sample_now
      ("land", "Land") [] sparse_env empty_world = (Returns out, w')
    /\ out = ([] ++ rows)%list
    /\ Forall2 (anomaly_row_of "Global" "Land" "1901-2000" "" sample_now)
               [ ("1850", {| value := Absent; anomaly := num (-4) 10 |});
                 ("1853", {| value := Absent; anomaly := num 0 1 |}) ] rows.
Proof.
  destruct (GlobalTemperatureAnomalies.surface_body "globe" "Global" sample_now
              ("land", "Land") [] sparse_env empty_world) as [[out|ex] w'] eqn:E;
    [|vm_compute in E; discriminate].
  destruct (anomaly_records_of_combination sparse_env sample_now
              "globe" "Global" "land" "Land" [] out empty_world w'
              eq_refl eq_refl E) as [rows [Ho Hf]].
  exists out, w', rows. split; [reflexivity|]. split; [exact Ho|exact Hf].
Defined.

(* ================================================================== *)
(** ** The rows of a table of the regional-trend processor *)
(* ================================================================== *)

Lemma rows_of_shape {R} (proc : M (table R)) schema name period work
      (P : env -> R -> Prop) :
  gated_shape proc schema name period work ->
  (forall e, Forall (P e) (rows_of (work e))) ->
  forall e w t w', proc e w = (Returns t, w') -> Forall (P e) (tbl_rows t).
Proof.
  intros Hs Hp e w t w'. rewrite Hs.
  destruct (option_string_eqb _ _).
  - intros H; inversion H; subst. constructor.
  - specialize (Hp e). unfold rows_of in Hp.
    destruct (work e) as [[rows|ex] tr]; intros H; inversion H; subst.
    exact Hp.
Qed.

Lemma run_all_length {A R} (g : A -> step R) (bound : A -> nat) (l : list A) :
  (forall x, In x l -> (List.length (rows_of (g x)) <= bound x)%nat) ->
  (List.length (rows_of (run_all g l)) <= list_sum (map bound l))%nat.
Proof.
  induction l as [|x l IH]; intros H; simpl; [lia|].
  pose proof (H x (or_introl eq_refl)) as Hx.
  specialize (IH (fun y Hy => H y (or_intror Hy))).
  unfold rows_of in *.
  destruct (g x) as [[rows|ex] t]; simpl in *; [|lia].
  destruct (run_all g l) as [[rl|ex] t']; simpl in *; [|lia].
  rewrite length_app. lia.
Qed.

(** What every summary record of a run at [ts] satisfies. *)
Definition summary_ok (ts : datetime) (r : RegionalClimateData.record) : Prop :=
  RegionalClimateData.period_end r = dt_year ts
  /\ In (RegionalClimateData.period_end r - RegionalClimateData.period_start r)
        RegionalClimateData.periods
  /\ 1 <= RegionalClimateData.data_points r
  /\ RegionalClimateData.updated_at r = ts
  /\ (RegionalClimateData.min_temperature_anomaly r
      <= RegionalClimateData.avg_temperature_anomaly r)%Q
  /\ (RegionalClimateData.avg_temperature_anomaly r
      <= RegionalClimateData.max_temperature_anomaly r)%Q
  /\ (0 <= RegionalClimateData.trend_magnitude_celsius r)%Q
  /\ In (RegionalClimateData.r_trend_direction r)
        ["warming"; "cooling"; "stable"]
  /\ RegionalClimateData.r_latest_year r <> None
  /\ RegionalClimateData.r_latest_anomaly r <> None
  /\ In (RegionalClimateData.region r) (map snd regions)
  /\ In (RegionalClimateData.surface_type r) (map snd surface_types).

Lemma stats_of_direction (a : list Q) (y : Z) :
  In (RegionalClimateData.trend_direction (stats_of a y))
     ["warming"; "cooling"; "stable"].
Proof.
  unfold stats_of; cbn [RegionalClimateData.trend_direction].
  destruct (2 <=? len a); [destruct (Qltb _ _)|]; simpl; tauto.
Qed.

Lemma summary_rows_ok ts (r s : string * string) (period : Z) (p : payload) :
  In r regions -> In s surface_types ->
  In period RegionalClimateData.periods ->
  Forall (summary_ok ts)
         (rows_of (RegionalFacts.summary_rows ts (snd r) (snd s) period p,
                   @nil event)).
Proof.
  intros Hr Hs Hp. unfold RegionalFacts.summary_rows, rows_of; cbn [fst].
  destruct (RegionalClimateData.calculate_trend_statistics (get_data p))
    as [[st|]|ex] eqn:E; try constructor; [|constructor].
  destruct (calculate_trend_statistics_returned _ _ E)
    as (a & y & _ & _ & -> & Hlen).
  assert (Hne : a <> []).
  { intros ->. destruct (get_data p); [discriminate|discriminate]. }
  destruct (stats_of_consistent a y Hne) as (H1 & H2 & (x & H3 & _) & H4 & H5).
  unfold summary_ok, RegionalClimateData.summary_record;
    cbn [RegionalClimateData.period_end RegionalClimateData.period_start
         RegionalClimateData.data_points RegionalClimateData.updated_at
         RegionalClimateData.min_temperature_anomaly
         RegionalClimateData.avg_temperature_anomaly
         RegionalClimateData.max_temperature_anomaly
         RegionalClimateData.trend_magnitude_celsius
         RegionalClimateData.r_trend_direction
         RegionalClimateData.r_latest_year RegionalClimateData.r_latest_anomaly
         RegionalClimateData.region RegionalClimateData.surface_type].
  split; [reflexivity|].
  split; [replace (dt_year ts - (dt_year ts - period)) with period by lia;
          exact Hp|].
  split.
  { unfold len. rewrite <- Hlen. destruct a; [congruence|simpl; lia]. }
  split; [reflexivity|]. split; [exact H1|]. split; [exact H2|].
  split; [exact H4|]. split; [apply stats_of_direction|].
  split; [rewrite H5; discriminate|]. split; [rewrite H3; discriminate|].
  split; [now apply in_map|now apply in_map].
Qed.

Lemma regional_enumeration_ok e :
  Forall (summary_ok (now e)) (rows_of (RegionalFacts.enumeration e)).
Proof.
  apply run_all_rows; intros r Hr.
  apply run_all_rows; intros s Hs.
  unfold RegionalFacts.combination_step.
  destruct (skipped (fst r) (fst s)); [constructor|].
  apply run_all_rows; intros period Hp.
  apply fetch_step_rows; intros p.
  now apply summary_rows_ok.
Qed.

(** The number of requests of one (region, surface) combination. *)
Definition requests_of (r s : string * string) : nat :=
  if skipped (fst r) (fst s) then 0%nat
  else List.length RegionalClimateData.periods.

Lemma regional_enumeration_length e :
  (List.length (rows_of (RegionalFacts.enumeration e)) <= 45)%nat.
Proof.
  change 45%nat
    with (list_sum (map (fun r => list_sum (map (requests_of r) surface_types))
                        regions)).
  apply run_all_length; intros r _.
  apply run_all_length; intros s _.
  unfold RegionalFacts.combination_step, requests_of.
  destruct (skipped (fst r) (fst s)); [simpl; lia|].
  rewrite <- (length_map (fun _ : Z => 1%nat) RegionalClimateData.periods).
  replace (List.length (map (fun _ : Z => 1%nat) RegionalClimateData.periods))
    with (list_sum (map (fun _ : Z => 1%nat) RegionalClimateData.periods))
    by reflexivity.
  apply run_all_length; intros period _.
  unfold RegionalFacts.period_step, fetch_step, rows_of; cbn [fst].
  destruct (fetch_result _) as [[p|]|ex]; simpl; try lia.
  unfold RegionalFacts.summary_rows.
  destruct (RegionalClimateData.calculate_trend_statistics _)
    as [[st|]|ex]; simpl; lia.
Qed.



(* ================================================================== *)
(** ** The shape of a table of the precipitation processor *)
(* ================================================================== *)

Lemma in_filter_map {A B} (f : A -> option B) (l : list A) (y : B) :
  In y (PrecipitationData.filter_map f l) -> exists x, In x l /\ f x = Some y.
Proof.
  induction l as [|x l IH]; simpl; [contradiction|].
  destruct (f x) as [z|] eqn:E.
  - intros [<-|H]; [exists x; split; [now left|exact E]|].
    destruct (IH H) as [x' [Hx Hf]]. exists x'. split; [now right|exact Hf].
  - intros H. destruct (IH H) as [x' [Hx Hf]]. exists x'.
    split; [now right|exact Hf].
Qed.

Lemma filter_map_nonempty {A B} (f : A -> option B) (l : list A) :
  PrecipitationData.filter_map f l <> [] ->
  exists x, In x l /\ f x <> None.
Proof.
  induction l as [|x l IH]; simpl; [congruence|].
  destruct (f x) as [z|] eqn:E.
  - intros _. exists x. split; [now left|congruence].
  - intros H. destruct (IH H) as [x' [Hx Hf]]. exists x'.
    split; [now right|exact Hf].
Qed.

Lemma in_dict_get (d : PrecipitationData.decades_dict) (k : Z)
      (b : PrecipitationData.bucket) :
  NoDup (map fst d) -> In (k, b) d -> Decades.dict_get d k = Some b.
Proof.
  induction d as [|[k' b'] d IH]; simpl; intros Hn Hin; [contradiction|].
  inversion Hn as [|? ? Hk Hd]; subst.
  destruct Hin as [E|Hin].
  - inversion E; subst. now rewrite Z.eqb_refl.
  - destruct (Z.eqb_spec k' k) as [->|_]; [|now apply IH].
    exfalso. apply Hk. apply in_map_iff. exists (k, b). split; auto.
Qed.

(** What every decade record computed from the annual records [annual]
    satisfies. *)
Definition decade_ok (ts : datetime) (annual : list PrecipitationData.record)
           (r : PrecipitationData.record) : Prop :=
  PrecipitationData.data_type r = "Decade Average"
  /\ PrecipitationData.year r mod 10 = 0
  /\ PrecipitationData.region r = "United States"
  /\ PrecipitationData.updated_at r = ts
  /\ PrecipitationData.base_period r = None
  /\ PrecipitationData.precipitation_anomaly_inches r = None
  /\ PrecipitationData.temperature_anomaly_fahrenheit r = None
  /\ PrecipitationData.precipitation_inches r <> None
  /\ exists a,
      In a annual
      /\ (PrecipitationData.year a / 10) * 10 = PrecipitationData.year r
      /\ PrecipitationData.precipitation_inches a <> None.

Lemma decade_record_fields ts (k : Z) (b : PrecipitationData.bucket)
      (r : PrecipitationData.record) :
  PrecipitationData.decade_record ts (k, b) = Some r ->
  PrecipitationData.region r = "United States"
  /\ PrecipitationData.updated_at r = ts
  /\ PrecipitationData.base_period r = None
  /\ PrecipitationData.temperature_fahrenheit r
     = match PrecipitationData.temp_values b with
       | [] => None
       | _ =>
           if Qeq_bool (mean (PrecipitationData.temp_values b)) 0 then None
           else Some (round (mean (PrecipitationData.temp_values b)) 2)
       end.
Proof.
  unfold PrecipitationData.decade_record.
  destruct (PrecipitationData.precip_values b) eqn:E; [discriminate|].
  intros H; inversion H; subst; clear H;
    cbn [PrecipitationData.region PrecipitationData.updated_at
         PrecipitationData.base_period PrecipitationData.temperature_fahrenheit].
  repeat split.
  destruct (PrecipitationData.temp_values b) as [|x xs] eqn:Et; [reflexivity|].
  unfold PrecipitationData.avg_truthy, mean.
  destruct (Qeq_bool _ 0); reflexivity.
Qed.

Lemma decade_records_ok ts (annual : list PrecipitationData.record) :
  Forall (decade_ok ts annual) (PrecipitationData.decade_records ts annual).
Proof.
  apply Forall_forall. intros r Hr.
  unfold PrecipitationData.decade_records in Hr.
  apply in_filter_map in Hr as [[k b] [Hin Hrec]].
  destruct (Decades.build_decades_built annual) as [Hnd Hget].
  pose proof (in_dict_get _ _ _ Hnd Hin) as Hb. rewrite Hget in Hb.
  destruct (Decades.bucket_after_values _ _ _ Hb) as [Hp _].
  destruct (Decades.decade_record_some _ _ _ _ Hrec)
    as (Hne & Hy & Ht & Hpr & Hpa & Hta).
  destruct (decade_record_fields _ _ _ _ Hrec) as (Hreg & Hup & Hbase & _).
  rewrite Hp in Hne. unfold Decades.bucket_precip in Hne.
  apply filter_map_nonempty in Hne as [a [Ha Hpa']].
  unfold Decades.bucket_rows in Ha. apply filter_In in Ha as [Ha Hd].
  apply Z.eqb_eq in Hd. unfold Decades.decade_of in Hd.
  unfold decade_ok. rewrite Hy.
  repeat split; auto.
  - rewrite <- Hd. apply Z.mod_mul. lia.
  - rewrite Hpr. discriminate.
  - exists a. repeat split; assumption.
Qed.

Lemma decade_records_years ts (annual : list PrecipitationData.record) :
  NoDup (map PrecipitationData.year (PrecipitationData.decade_records ts annual)).
Proof.
  unfold PrecipitationData.decade_records.
  destruct (Decades.build_decades_built annual) as [Hnd _].
  induction (PrecipitationData.build_decades annual) as [|[k b] d IH];
    [constructor|].
  simpl in Hnd. inversion Hnd as [|? ? Hk Hd]; subst.
  cbn [PrecipitationData.filter_map].
  destruct (PrecipitationData.decade_record ts (k, b)) as [r|] eqn:E;
    [|now apply IH].
  cbn [map]. constructor; [|now apply IH].
  destruct (Decades.decade_record_some _ _ _ _ E) as (_ & Hy & _).
  rewrite Hy. intros Hin. apply Hk.
  apply in_map_iff in Hin as [r' [Hy' Hr']].
  apply in_filter_map in Hr' as [[k' b'] [Hin' Hrec']].
  destruct (Decades.decade_record_some _ _ _ _ Hrec') as (_ & Hy'' & _).
  apply in_map_iff. exists (k', b'). split; [simpl; congruence|exact Hin'].
Qed.

(** What every annual record of a run at [ts] satisfies. *)
Definition annual_ok (ts : datetime) (r : PrecipitationData.record) : Prop :=
  PrecipitationData.data_type r = "Annual Average"
  /\ PrecipitationData.region r = "United States"
  /\ PrecipitationData.updated_at r = ts
  /\ PrecipitationData.base_period r <> None.

Lemma annual_loop_ok ts yt base (d : series)
      (rows : list PrecipitationData.record) :
  fst (run_all (PrecipFacts.annual_step ts yt base) d) = Returns rows ->
  Forall (annual_ok ts) rows.
Proof.
  intros H.
  assert (Hr : Forall (annual_ok ts)
                      (rows_of (run_all (PrecipFacts.annual_step ts yt base) d))).
  { apply run_all_rows. intros [k v] _.
    unfold rows_of, PrecipFacts.annual_step; cbn [fst snd].
    destruct (int k); repeat constructor;
      unfold PrecipitationData.annual_record;
      destruct (lookup yt k); cbn; (reflexivity || discriminate). }
  unfold rows_of in Hr. now rewrite H in Hr.
Qed.

Lemma precip_table_parts e w t w' :
  PrecipitationData.process_precipitation_data e w = (Returns t, w') ->
  exists annual,
    Forall (annual_ok (now e)) annual
    /\ tbl_rows t
       = (annual ++ PrecipitationData.decade_records (now e) annual)%list.
Proof.
  rewrite PrecipFacts.precip_process_run.
  destruct (PrecipFacts.gate_closed e w).
  - intros H; inversion H; subst. exists []. split; [constructor|reflexivity].
  - unfold PrecipFacts.production.
    destruct (fetch_result (remote e (PrecipFacts.precip_url e))) as [pd|ex];
      [|discriminate].
    destruct (fetch_result (remote e (PrecipFacts.temp_url e))) as [td|ex];
      [|discriminate].
    destruct (PrecipFacts.annual_outcome (now e) pd td) as [annual|ex] eqn:E;
      [|discriminate].
    cbn [map_outcome]. intros H; inversion H; subst.
    exists annual. split; [|apply add_decade_averages_app].
    unfold PrecipFacts.annual_outcome in E.
    destruct pd as [p|]; [destruct (payload_truthy p)|];
      try (inversion E; constructor).
    now apply annual_loop_ok in E.
Qed.

(** X12. Every table of the precipitation processor is the annual
    records followed by the decade records.  All carry the region
    "United States" and the time of the run.  The decade records have
    distinct years, each a multiple of 10 that is the decade of an annual
    record of the table with a non-null precipitation; they have a
    precipitation value, no base period and no anomaly. *)
Theorem precipitation_table_shape :
  forall e w t w',
    PrecipitationData.process_precipitation_data e w = (Returns t, w') ->
    exists annual decade,
      tbl_rows t = (annual ++ decade)%list
      /\ Forall (annual_ok (now e)) annual
      /\ Forall (decade_ok (now e) annual) decade
      /\ NoDup (map PrecipitationData.year decade).
Proof.
  intros e w t w' H.
  destruct (precip_table_parts e w t w' H) as [annual [Ha Hrows]].
  exists annual, (PrecipitationData.decade_records (now e) annual).
  split; [exact Hrows|]. split; [exact Ha|].
  split; [apply decade_records_ok|apply decade_records_years].
Qed.

Lemma precipitation_table_shape_witness :
  exists t w' annual decade,
    PrecipitationData.process_precipitation_data nineties_env empty_world
    = (Returns t, w')
    /\ tbl_rows t = (annual ++ decade)%list
    /\ Forall (annual_ok (now nineties_env)) annual
    /\ Forall (decade_ok (now nineties_env) annual) decade.
Proof.
  destruct (PrecipitationData.process_precipitation_data nineties_env empty_world)
    as [[t|ex] w'] eqn:E; [|vm_compute in E; discriminate].
  destruct (precipitation_table_shape nineties_env empty_world t w' E)
    as (annual & decade & H1 & H2 & H3 & _).
  exists t, w', annual, decade. repeat split; assumption.
Defined.



(** X14. When the precipitation series is not found, the precipitation
    processor still requests the temperature series, returns the empty
    table (no annual and no decade record) and writes the run state with
    a count of 0: the month is marked as updated although nothing was
    obtained. *)
Theorem precipitation_not_found_closes_month :
  forall e w,
    gate_open e w "precipitation_data" strftime_Ym ->
    status_code (remote e (us_url "pcp" 1895 (dt_year (now e)))) = 404 ->
    temp_fine e ->
    let st := {| last_update := Some (strftime_Ym (now e));
                 records_processed := Some 0 |} in
    PrecipitationData.process_precipitation_data e w
    = (Returns {| tbl_schema := PrecipitationData.schema; tbl_rows := [] |},
       {| w_store := store_set (w_store w) "precipitation_data" st;
          w_trace :=
            (w_trace w
             ++ [ LoadState "precipitation_data";
                  Get (us_url "pcp" 1895 (dt_year (now e)));
                  Get (us_url "tavg" 1895 (dt_year (now e)));
                  SaveState "precipitation_data" st ])%list |}).
Proof.
  intros e w Hg H4 Ht st. rewrite PrecipFacts.precip_process_run.
  unfold PrecipFacts.gate_closed, PrecipFacts.NAME.
  rewrite (gate_open_eqb _ _ _ _ Hg).
  unfold PrecipFacts.production.
  destruct (temp_fine_result e Ht) as [td Htd]. rewrite Htd.
  unfold PrecipFacts.precip_url, PrecipFacts.temp_url.
  rewrite (fetch_result_not_found _ H4). reflexivity.
Qed.

Lemma precipitation_not_found_closes_month_witness :
  gate_open sample_env empty_world "precipitation_data" strftime_Ym
  /\ temp_fine sample_env
  /\ fst (PrecipitationData.process_precipitation_data sample_env empty_world)
     = Returns {| tbl_schema := PrecipitationData.schema; tbl_rows := [] |}.
Proof.
  assert (Hg : gate_open sample_env empty_world "precipitation_data" strftime_Ym)
    by discriminate.
  assert (Ht : temp_fine sample_env) by (left; reflexivity).
  split; [exact Hg|]. split; [exact Ht|].
  now rewrite (precipitation_not_found_closes_month sample_env empty_world
                 Hg eq_refl Ht).
Defined.

(* ================================================================== *)
(** ** The rows of a table of the anomaly processor *)
(* ================================================================== *)

(** What every record of a run of the anomaly processor satisfies. *)
Definition anomaly_row_ok (ts : datetime)
           (r : GlobalTemperatureAnomalies.record) : Prop :=
  GlobalTemperatureAnomalies.data_source r = "NOAA Climate at a Glance"
  /\ GlobalTemperatureAnomalies.updated_at r = ts
  /\ exists rc sc,
      In (rc, GlobalTemperatureAnomalies.region r) regions
      /\ In (sc, GlobalTemperatureAnomalies.surface_type r) surface_types
      /\ skipped rc sc = false.

Lemma global_enumeration_ok e :
  Forall (anomaly_row_ok (now e)) (rows_of (GlobalFacts.enumeration e)).
Proof.
  apply run_all_rows; intros [rc rn] Hr.
  apply run_all_rows; intros [sc sn] Hs.
  unfold GlobalFacts.combination_step; cbn [fst snd].
  destruct (skipped rc sc) eqn:Hk; [constructor|].
  apply fetch_step_rows; intros p.
  unfold GlobalFacts.payload_rows.
  change (rows_of (fst ?x, [])) with (rows_of x).
  apply run_all_rows; intros [k v] _.
  unfold rows_of, step_of, GlobalTemperatureAnomalies.yearly_body.
  destruct (member_get (anomaly v)); [destruct (int k)|]; simpl;
    repeat constructor.
  exists rc, sc. repeat split; assumption.
Qed.

(** X15. Every record of a table of the anomaly processor carries the
    fixed data source, the time of the run, and the region and surface
    labels of one combination of the two tables that the skip rule lets
    through. *)
Theorem anomaly_table_rows_well_formed :
  forall e w t w',
    GlobalTemperatureAnomalies.process_global_temperature_anomalies e w
    = (Returns t, w') ->
    Forall (anomaly_row_ok (now e)) (tbl_rows t).
Proof.
  apply (rows_of_shape _ _ _ _ _ (fun e => anomaly_row_ok (now e))
           global_shape global_enumeration_ok).
Qed.

Lemma anomaly_table_rows_well_formed_witness :
  exists t w',
    GlobalTemperatureAnomalies.process_global_temperature_anomalies
      data_env empty_world = (Returns t, w')
    /\ Forall (anomaly_row_ok (now data_env)) (tbl_rows t).
Proof.
  destruct (GlobalTemperatureAnomalies.process_global_temperature_anomalies
              data_env empty_world) as [[t|ex] w'] eqn:E;
    [|vm_compute in E; discriminate].
  exists t, w'. split; [reflexivity|].
  exact (anomaly_table_rows_well_formed data_env empty_world t w' E).
Defined.

(* ================================================================== *)
(** ** Null anomalies in the calculator *)
(* ================================================================== *)

Lemma numbers_none (l : list (option Q)) :
  RegionalClimateData.numbers l = None <-> In None l.
Proof.
  induction l as [|[x|] l IH]; simpl.
  - split; [discriminate|contradiction].
  - destruct (RegionalClimateData.numbers l) eqn:E; simpl.
    + split; [discriminate|].
      intros [H|H]; [discriminate|]. apply IH in H. discriminate.
    + split; [intros _; right; now apply IH|reflexivity].
  - split; [intros _; now left|reflexivity].
Qed.

(** X16. On a well-formed series the calculator raises [TypeError]
    exactly when some entry has a null anomaly; a missing anomaly never
    does. *)
Theorem null_anomaly_raises_type_error :
  forall d : series,
    well_formed d ->
    (RegionalClimateData.calculate_trend_statistics d = Raises TypeError
     <-> exists k v, In (k, v) d /\ anomaly v = Null).
Proof.
  intros d Hw. split.
  - unfold RegionalClimateData.calculate_trend_statistics.
    destruct d as [|x d]; [discriminate|].
    destruct (RegionalClimateData.numbers _) as [a|] eqn:E.
    + destruct (int _); destruct (2 <=? len a); discriminate.
    + intros _. apply numbers_none in E.
      unfold RegionalClimateData.anomalies_of in E.
      apply in_map_iff in E as [k [Hk Hin]].
      apply (proj1 (sorted_in _ _)) in Hin.
      destruct (lookup_in _ k Hin) as [v [Hv Hi]]. rewrite Hv in Hk.
      exists k, v. split; [exact Hi|].
      unfold RegionalClimateData.anomaly_or_zero in Hk.
      destruct (anomaly v); [discriminate|reflexivity|discriminate].
  - intros (k & v & Hin & Hnull).
    unfold RegionalClimateData.calculate_trend_statistics.
    destruct d as [|x d]; [contradiction|].
    assert (E : RegionalClimateData.numbers
                  (RegionalClimateData.anomalies_of (x :: d)
                     (sorted (keys (x :: d)))) = None).
    { apply numbers_none. unfold RegionalClimateData.anomalies_of.
      apply in_map_iff. exists k. split.
      - rewrite (in_lookup _ _ _ Hw Hin).
        unfold RegionalClimateData.anomaly_or_zero. now rewrite Hnull.
      - apply sorted_in. unfold keys. apply in_map_iff.
        exists (k, v). split; [reflexivity|exact Hin]. }
    now rewrite E.
Qed.

Lemma null_year_well_formed : well_formed null_year.
Proof.
  unfold well_formed; simpl. repeat constructor; simpl; intuition discriminate.
Qed.

Lemma null_anomaly_raises_type_error_witness :
  well_formed null_year
  /\ RegionalClimateData.calculate_trend_statistics null_year = Raises TypeError.
Proof.
  split; [exact null_year_well_formed|].
  apply (null_anomaly_raises_type_error null_year null_year_well_formed).
  exists "2001", {| value := Absent; anomaly := Null |}.
  split; [right; left; reflexivity|reflexivity].
Defined.

(* ================================================================== *)
(** ** dev.py *)
(* ================================================================== *)

Module Dev.

(** [try: ... except Exception as e: print(...)]: the exception is caught,
    what was done before it stays done.  The messages printed are not
    modelled. *)
Definition attempt {A} (m : Main.O A) : Main.O unit :=
  fun e s => let '(_, s') := m e s in (Returns tt, s').

(** The script: the three processors one by one, then the orchestrator,
    each under its own [try]. *)
Definition dev (validation : outcome unit) : Main.O unit :=
  Main.obind
    (attempt (Main.call
                GlobalTemperatureAnomalies.process_global_temperature_anomalies))
    (fun _ =>
  Main.obind
    (attempt (Main.call RegionalClimateData.process_regional_climate_data))
    (fun _ =>
  Main.obind
    (attempt (Main.call PrecipitationData.process_precipitation_data))
    (fun _ =>
  attempt (Main.main validation)))).

End Dev.

(** With the three gates closed the orchestrator reads the three run
    states and does nothing else. *)
Lemma main_all_closed e (w : world) (ups : list Main.upload) :
  closed "global_temperature_anomalies" strftime_Ymd e w ->
  closed "regional_climate_data" strftime_Ym e w ->
  closed "precipitation_data" strftime_Ym e w ->
  Main.main (Returns tt) e {| Main.s_world := w; Main.s_uploads := ups |}
  = (Returns tt,
     {| Main.s_world :=
          extend_trace w [ LoadState "global_temperature_anomalies";
                           LoadState "regional_climate_data";
                           LoadState "precipitation_data" ];
        Main.s_uploads := ups |}).
Proof.
  intros Cg Cr Cp. rewrite main_run. cbn [Main.s_world Main.s_uploads].
  rewrite (closed_run _ _ _ _ _ global_shape e w Cg). cbv zeta.
  rewrite (closed_run _ _ _ _ _ regional_shape e
             (extend_trace w [LoadState GlobalFacts.NAME]) Cr).
  rewrite (closed_run _ _ _ _ _ precip_shape e
             (extend_trace (extend_trace w [LoadState GlobalFacts.NAME])
                           [LoadState RegionalFacts.NAME]) Cp).
  rewrite !extend_trace_app. cbn. now rewrite !app_nil_r.
Qed.

(** X17. In the development script, when the three processors called
    first all return, the orchestrator called last finds the three gates
    closed: it uploads nothing, requests nothing and writes no state,
    whatever the tables were, and the script returns (the clock is read
    as one instant of one calendar day for the whole script). *)
Theorem dev_orchestration_uploads_nothing :
  forall validation e s tg w1 tr w2 tp w3,
    GlobalTemperatureAnomalies.process_global_temperature_anomalies
      e (Main.s_world s) = (Returns tg, w1) ->
    RegionalClimateData.process_regional_climate_data e w1 = (Returns tr, w2) ->
    PrecipitationData.process_precipitation_data e w2 = (Returns tp, w3) ->
    exists s',
      Dev.dev validation e s = (Returns tt, s')
      /\ Main.s_uploads s' = Main.s_uploads s
      /\ w_store (Main.s_world s') = w_store w3
      /\ exists reads,
          w_trace (Main.s_world s') = (w_trace w3 ++ reads)%list
          /\ Forall (fun ev => exists name, ev = LoadState name) reads.
Proof.
  intros validation e s tg w1 tr w2 tp w3 Hg Hr Hp.
  unfold Dev.dev, Main.obind, Dev.attempt, Main.call.
  rewrite Hg. cbn [Main.s_world Main.s_uploads]. rewrite Hr.
  cbn [Main.s_world Main.s_uploads]. rewrite Hp.
  destruct validation as [[]|x].
  - pose proof (returned_closed _ _ _ _ _ global_shape _ _ _ _ Hg) as Cg.
    pose proof (returned_closed _ _ _ _ _ regional_shape _ _ _ _ Hr) as Cr.
    pose proof (returned_closed _ _ _ _ _ precip_shape _ _ _ _ Hp) as Cp.
    unfold GlobalFacts.NAME, RegionalFacts.NAME, PrecipFacts.NAME in *.
    rewrite main_all_closed.
    + eexists. split; [reflexivity|]. cbn. split; [reflexivity|].
      split; [reflexivity|]. eexists. split; [reflexivity|].
      repeat constructor; eexists; reflexivity.
    + unfold closed.
      rewrite (other_states_kept _ _ _ _ _ precip_shape _ _ _ _
                 "global_temperature_anomalies" Hp) by discriminate.
      rewrite (other_states_kept _ _ _ _ _ regional_shape _ _ _ _
                 "global_temperature_anomalies" Hr) by discriminate.
      exact Cg.
    + unfold closed.
      rewrite (other_states_kept _ _ _ _ _ precip_shape _ _ _ _
                 "regional_climate_data" Hp) by discriminate.
      exact Cr.
    + exact Cp.
  - rewrite main_run. eexists. split; [reflexivity|]. cbn.
    split; [reflexivity|]. split; [reflexivity|].
    exists []. split; [now rewrite app_nil_r|constructor].
Qed.

Lemma dev_orchestration_uploads_nothing_witness :
  exists tg w1 tr w2 tp w3 s',
    GlobalTemperatureAnomalies.process_global_temperature_anomalies
      nineties_env (Main.s_world fresh_site) = (Returns tg, w1)
    /\ RegionalClimateData.process_regional_climate_data nineties_env w1
       = (Returns tr, w2)
    /\ PrecipitationData.process_precipitation_data nineties_env w2
       = (Returns tp, w3)
    /\ num_rows tp = 11
    /\ Dev.dev (Returns tt) nineties_env fresh_site = (Returns tt, s')
    /\ Main.s_uploads s' = Main.s_uploads fresh_site.
Proof.
  destruct (GlobalTemperatureAnomalies.process_global_temperature_anomalies
              nineties_env (Main.s_world fresh_site)) as [[tg|x] w1] eqn:Eg;
    [|vm_compute in Eg; discriminate].
  destruct (RegionalClimateData.process_regional_climate_data nineties_env w1)
    as [[tr|x] w2] eqn:Er.
  2:{ exfalso. vm_compute in Eg. inversion Eg; subst.
      vm_compute in Er. discriminate. }
  destruct (PrecipitationData.process_precipitation_data nineties_env w2)
    as [[tp|x] w3] eqn:Ep.
  2:{ exfalso. vm_compute in Eg. inversion Eg; subst.
      vm_compute in Er. inversion Er; subst.
      vm_compute in Ep. discriminate. }
  destruct (dev_orchestration_uploads_nothing (Returns tt) nineties_env
              fresh_site tg w1 tr w2 tp w3 Eg Er Ep) as (s' & Hd & Hu & _).
  exists tg, w1, tr, w2, tp, w3, s'.
  split; [first [exact Eg|reflexivity]|].
  split; [first [exact Er|reflexivity]|].
  split; [first [exact Ep|reflexivity]|].
  split.
  { vm_compute in Eg. inversion Eg; subst.
    vm_compute in Er. inversion Er; subst.
    vm_compute in Ep. inversion Ep; subst. reflexivity. }
  split; [exact Hd|exact Hu].
Defined.

(* ================================================================== *)
(** ** Requests of an invocation that raises *)
(* ================================================================== *)

(** [p] is an initial segment of [l]. *)
Definition initial_segment {A} (p l : list A) : Prop :=
  exists rest, l = (p ++ rest)%list.

(** A round is traced by [full] when its calls are an initial segment of
    [full], and all of [full] when it returns. *)
Definition traced_by {A R} (g : A -> step R) (full : A -> list event) : Prop :=
  forall x,
    initial_segment (snd (g x)) (full x)
    /\ (forall rows, fst (g x) = Returns rows -> snd (g x) = full x).

Lemma run_all_traced {A R} (g : A -> step R) (full : A -> list event) :
  traced_by g full ->
  traced_by (run_all g) (flat_map full).
Proof.
  intros Hg l. induction l as [|x l [IHp IHr]]; simpl.
  - split; [exists []; reflexivity|reflexivity].
  - destruct (Hg x) as [[rx Hx] Hrx].
    destruct (g x) as [[rows|ex] t] eqn:Ex; simpl in *.
    + rewrite (Hrx rows eq_refl).
      destruct (run_all g l) as [[rl|ex] t'] eqn:El; simpl in *.
      * split.
        -- destruct IHp as [r Hr]. exists r. rewrite Hr. now rewrite app_assoc.
        -- intros out _. now rewrite (IHr rl eq_refl).
      * split; [|discriminate].
        destruct IHp as [r Hr]. exists r. rewrite Hr. now rewrite app_assoc.
    + split; [|discriminate].
      exists (rx ++ flat_map full l)%list. rewrite Hx. now rewrite app_assoc.
Qed.

Lemma fetch_step_traced {R} e (url : string) (k : payload -> outcome (list R)) :
  initial_segment (snd (fetch_step e url k)) [Get url]
  /\ (forall rows, fst (fetch_step e url k) = Returns rows ->
                   snd (fetch_step e url k) = [Get url]).
Proof. split; [exists []; reflexivity|reflexivity]. Qed.

Lemma global_enumeration_traced e :
  initial_segment (snd (GlobalFacts.enumeration e))
                  (map Get (global_plan (dt_year (now e)))).
Proof.
  unfold global_plan. rewrite map_of_flat_map.
  refine (proj1 (run_all_traced _ _ _ regions)). intros r.
  rewrite map_of_flat_map.
  refine (run_all_traced _ _ _ surface_types). intros s.
  unfold GlobalFacts.combination_step.
  destruct (skipped (fst r) (fst s)); [|apply fetch_step_traced].
  split; [exists []; reflexivity|reflexivity].
Qed.

Lemma regional_enumeration_traced e :
  initial_segment (snd (RegionalFacts.enumeration e))
                  (map Get (regional_plan (dt_year (now e)))).
Proof.
  unfold regional_plan. rewrite map_of_flat_map.
  refine (proj1 (run_all_traced _ _ _ regions)). intros r.
  rewrite map_of_flat_map.
  refine (run_all_traced _ _ _ surface_types). intros s.
  unfold RegionalFacts.combination_step.
  destruct (skipped (fst r) (fst s)).
  - split; [exists []; reflexivity|reflexivity].
  - rewrite map_map.
    replace (map (fun period =>
                    Get (global_url (fst r) (fst s)
                                    (dt_year (now e) - period) (dt_year (now e))))
                 RegionalClimateData.periods)
      with (flat_map (fun period =>
                        [Get (RegionalFacts.period_url e (fst r) (fst s) period)])
                     RegionalClimateData.periods)
      by reflexivity.
    refine (run_all_traced _ _ _ RegionalClimateData.periods). intros period.
    apply fetch_step_traced.
Qed.

(** The requests of an invocation that raises are an initial segment of
    the plan, after the state read; nothing is written. *)
Definition fails_within_plan {R} (proc : M (table R)) (name : string)
           (plan : Z -> list string) : Prop :=
  forall e w ex w',
    proc e w = (Raises ex, w') ->
    exists gets,
      w_trace w' = (w_trace w ++ LoadState name :: gets)%list
      /\ initial_segment gets (map Get (plan (dt_year (now e))))
      /\ w_store w' = w_store w.

Lemma fails_within_plan_of_shape {R} (proc : M (table R))
      schema name period work plan :
  gated_shape proc schema name period work ->
  (forall e, initial_segment (snd (work e))
                             (map Get (plan (dt_year (now e))))) ->
  fails_within_plan proc name plan.
Proof.
  intros Hs Hp e w ex w'. rewrite Hs.
  destruct (option_string_eqb _ _); [discriminate|].
  specialize (Hp e).
  destruct (work e) as [[rows|ex'] tr]; intros H; inversion H; subst.
  exists tr. repeat split. exact Hp.
Qed.


